(** * Hashlife quadtree (package quadtree): a shallow embedding and its properties

    The Go package keeps every node behind a pointer and interns nodes in a
    process-wide map keyed by the four child pointers.  Pointer identity is
    observable (the tests compare handles), so the embedding keeps an explicit
    heap and the intern cache, and threads both through every operation in a
    small state-and-panic monad.

    Machine types: [Dim] is Go's int64, [Level] is Go's uint (64 bits on the
    platforms the package targets), the bitmask of [oneGen] is a uint16.  They
    are integers of [Z] with the wrap-around written out. *)

From Stdlib Require Import ZArith Lia Bool List.
From stdpp Require Import base option countable gmap fin_maps fin_sets.

Local Open Scope Z_scope.

(** ** Machine integers *)

(** int64 two's complement wrap-around. *)
Definition wrap64 (z : Z) : Z := (z + 2 ^ 63) mod 2 ^ 64 - 2 ^ 63.

(** uint (64 bit) wrap-around. *)
Definition wrapu (z : Z) : Z := z mod 2 ^ 64.

(** uint16 wrap-around. *)
Definition wrap16 (z : Z) : Z := z mod 2 ^ 16.

(** [a << c] on int64 with an unsigned shift count: a count of 64 or more
    shifts every bit out. *)
Definition shl64 (a c : Z) : Z := if 64 <=? c then 0 else wrap64 (a * 2 ^ c).

(** The ranges of int64 and of uint. *)
Definition int64 (z : Z) : Prop := - 2 ^ 63 <= z < 2 ^ 63.
Definition uint (z : Z) : Prop := 0 <= z < 2 ^ 64.

(** ** Data model *)

(** A pointer; [nil] is the null pointer. *)
Definition ptr := N.
Definition nil : ptr := 0%N.

(** The two package-level leaves, in declaration order. *)
Definition liveLeaf : ptr := 1%N.
Definition deadLeaf : ptr := 2%N.

Record Childs := mkChilds { SE : ptr; SW : ptr; NW : ptr; NE : ptr }.

Record Quadtree := mkQuadtree {
  Level : Z;
  childs : Childs;
  Population : Z;
  next : ptr
}.

#[global] Instance Childs_eq_dec : EqDecision Childs.
Proof. solve_decision. Defined.

Definition Childs_to_tuple (c : Childs) : ptr * ptr * ptr * ptr :=
  (SE c, SW c, NW c, NE c).
Definition Childs_of_tuple (t : ptr * ptr * ptr * ptr) : Childs :=
  let '(a, b, c, d) := t in mkChilds a b c d.

#[global] Instance Childs_countable : Countable Childs.
Proof.
  refine (inj_countable' Childs_to_tuple Childs_of_tuple _).
  intros []; reflexivity.
Defined.

(** The process state: the allocated nodes, the intern cache [nodeMap] and
    the two counters. *)
Record state := mkState {
  heap : gmap ptr Quadtree;
  nodeMap : gmap Childs ptr;
  cacheHit : Z;
  cacheMiss : Z
}.

(** A leaf has no children. *)
Definition nilChilds : Childs := mkChilds nil nil nil nil.
Definition liveNode : Quadtree := mkQuadtree 0 nilChilds 1 nil.
Definition deadNode : Quadtree := mkQuadtree 0 nilChilds 0 nil.

(** The state at package initialisation. *)
Definition init : state :=
  mkState (<[liveLeaf := liveNode]> (<[deadLeaf := deadNode]> ∅)) ∅ 0 0.

(** ** The monad: state passing, panics, and fuel for unbounded loops *)

Inductive panic :=
  | NilDeref
  | GrowBeyond (level : Z)
  | GrowBaby (level : Z)
  | LeafCoords (x y : Z)
  | SlowSimLevel.

Inductive res (A : Type) :=
  | Ok (a : A) (s : state)
  | Panic (e : panic)
  | OutOfFuel.
Arguments Ok {A} a s.
Arguments Panic {A} e.
Arguments OutOfFuel {A}.

(** A run either returns a value and the new state, or panics, or exhausts
    the fuel of a loop; a panic ends the program. *)
Definition M (A : Type) : Type := state -> res A.

Definition ret {A} (a : A) : M A := fun s => Ok a s.
Definition bind {A B} (m : M A) (k : A -> M B) : M B :=
  fun s => match m s with
           | Ok a s' => k a s'
           | Panic e => Panic e
           | OutOfFuel => OutOfFuel
           end.
Definition throw {A} (e : panic) : M A := fun _ => Panic e.
Definition diverge {A} : M A := fun _ => OutOfFuel.

Notation "'let!' x ':=' m 'in' k" := (bind m (fun x => k))
  (at level 10, x name, m at level 100, k at level 200).

(** Reading through a pointer; a nil (or dangling) pointer panics. *)
Definition deref (p : ptr) : M Quadtree :=
  fun s => match heap s !! p with
           | Some n => Ok n s
           | None => Panic NilDeref
           end.

(** ** The intern cache *)

Definition population (ch : Childs) : M Z :=
  let! se := deref (SE ch) in
  let! sw := deref (SW ch) in
  let! nw := deref (NW ch) in
  let! ne := deref (NE ch) in
  ret (wrap64 (wrap64 (wrap64 (Population se + Population sw) + Population nw)
               + Population ne)).

(** Allocation of a new node. *)
Definition alloc (n : Quadtree) : M ptr :=
  fun s =>
    let p : ptr := fresh ({[nil]} ∪ dom (heap s) : gset ptr) in
    Ok p (mkState (<[p := n]> (heap s)) (nodeMap s) (cacheHit s) (cacheMiss s)).

Definition NewTree (ch : Childs) : M ptr :=
  fun s =>
    match nodeMap s !! ch with
    | Some qt =>
        Ok qt (mkState (heap s) (nodeMap s) (wrapu (cacheHit s + 1)) (cacheMiss s))
    | None =>
        (let! ne := deref (NE ch) in
         let! pop := population ch in
         let n := mkQuadtree (wrapu (Level ne + 1)) ch pop nil in
         let! qt := alloc n in
         fun s1 =>
           if (Population n =? 0) || (Level n <=? 16)
           then Ok qt (mkState (heap s1) (<[ch := qt]> (nodeMap s1))
                         (cacheHit s1) (cacheMiss s1))
           else Ok qt s1)
          (mkState (heap s) (nodeMap s) (cacheHit s) (wrapu (cacheMiss s + 1)))
    end.

(** ** Quadtree algebra *)

Fixpoint EmptyTree_fuel (fuel : nat) (level : Z) : M ptr :=
  if (level =? 0) || (wrapu (level + 1) =? 0) || (wrapu (level + 2) =? 0)
  then ret deadLeaf
  else match fuel with
       | O => diverge
       | S fuel' =>
           let! child := EmptyTree_fuel fuel' (wrapu (level - 1)) in
           NewTree (mkChilds child child child child)
       end.

(** The recursion descends once per level. *)
Definition EmptyTree (level : Z) : M ptr := EmptyTree_fuel (Z.to_nat level) level.

Definition grow (qt : ptr) : M ptr :=
  let! n := deref qt in
  if 63 <=? Level n then throw (GrowBeyond (Level n))
  else if Level n <? 1 then throw (GrowBaby (Level n))
  else
    let! emptyChild := EmptyTree (wrapu (Level n - 1)) in
    let! se := NewTree (mkChilds emptyChild emptyChild (SE (childs n)) emptyChild) in
    let! sw := NewTree (mkChilds emptyChild emptyChild emptyChild (SW (childs n))) in
    let! nw := NewTree (mkChilds (NW (childs n)) emptyChild emptyChild emptyChild) in
    let! ne := NewTree (mkChilds emptyChild (NE (childs n)) emptyChild emptyChild) in
    NewTree (mkChilds se sw nw ne).

(** [k] calls of [grow] in a row. *)
Fixpoint grows (k : nat) (qt : ptr) : M ptr :=
  match k with
  | O => ret qt
  | S k' => let! g := grow qt in grows k' g
  end.

(** The fit test of [GrowToFit], on the level field. *)
Definition fits (level x y : Z) : bool :=
  let maxCoordinate := shl64 1 (wrapu (level - 1)) in
  (x <=? wrap64 (maxCoordinate - 1)) && (y <=? wrap64 (maxCoordinate - 1))
  && (wrap64 (- maxCoordinate) <=? x) && (wrap64 (- maxCoordinate) <=? y).

Fixpoint GrowToFit_fuel (fuel : nat) (qt : ptr) (x y : Z) : M ptr :=
  match fuel with
  | O => diverge
  | S fuel' =>
      let! n := deref qt in
      if fits (Level n) x y then ret qt
      else let! qt' := grow qt in GrowToFit_fuel fuel' qt' x y
  end.

(** [grow] refuses level 63, so the loop body runs at most 64 times. *)
Definition GrowToFit (qt : ptr) (x y : Z) : M ptr := GrowToFit_fuel 64 qt x y.

(** The assertion at a leaf: coordinates outside [-1, 0] panic. *)
Definition leafCheck (x y : Z) : bool :=
  (x <? -1) || (0 <? x) || (y <? -1) || (0 <? y).

(** [Dim(1) << (qt.Level - 2)]; the subtraction is on uint and wraps at
    levels 0 and 1, where the shift then gives 0. *)
Definition distanceToOrigin (level : Z) : Z := shl64 1 (wrapu (level - 2)).

Fixpoint SetCell_fuel (fuel : nat) (qt : ptr) (x y value : Z) : M ptr :=
  match fuel with
  | O => diverge
  | S fuel' =>
      let! n := deref qt in
      if Level n =? 0 then
        if leafCheck x y then throw (LeafCoords x y)
        else if value =? 0 then ret deadLeaf else ret liveLeaf
      else
        let d := distanceToOrigin (Level n) in
        let c := childs n in
        if 0 <=? x then
          if 0 <=? y then
            let! r := SetCell_fuel fuel' (SE c) (wrap64 (x - d)) (wrap64 (y - d)) value in
            NewTree (mkChilds r (SW c) (NW c) (NE c))
          else
            let! r := SetCell_fuel fuel' (NE c) (wrap64 (x - d)) (wrap64 (y + d)) value in
            NewTree (mkChilds (SE c) (SW c) (NW c) r)
        else
          if 0 <=? y then
            let! r := SetCell_fuel fuel' (SW c) (wrap64 (x + d)) (wrap64 (y - d)) value in
            NewTree (mkChilds (SE c) r (NW c) (NE c))
          else
            let! r := SetCell_fuel fuel' (NW c) (wrap64 (x + d)) (wrap64 (y + d)) value in
            NewTree (mkChilds (SE c) (SW c) r (NE c))
  end.

(** The recursion descends once per level and then visits the leaf. *)
Definition SetCell (qt : ptr) (x y value : Z) : M ptr :=
  let! n := deref qt in
  SetCell_fuel (S (Z.to_nat (Level n))) qt x y value.

Fixpoint findLeaf_fuel (fuel : nat) (qt : ptr) (x y : Z) : M ptr :=
  match fuel with
  | O => diverge
  | S fuel' =>
      let! n := deref qt in
      if Level n =? 0 then
        if leafCheck x y then throw (LeafCoords x y) else ret qt
      else
        let d := distanceToOrigin (Level n) in
        let c := childs n in
        if 0 <=? x then
          if 0 <=? y then findLeaf_fuel fuel' (SE c) (wrap64 (x - d)) (wrap64 (y - d))
          else findLeaf_fuel fuel' (NE c) (wrap64 (x - d)) (wrap64 (y + d))
        else
          if 0 <=? y then findLeaf_fuel fuel' (SW c) (wrap64 (x + d)) (wrap64 (y - d))
          else findLeaf_fuel fuel' (NW c) (wrap64 (x + d)) (wrap64 (y + d))
  end.

Definition findLeaf (qt : ptr) (x y : Z) : M ptr :=
  let! n := deref qt in
  findLeaf_fuel (S (Z.to_nat (Level n))) qt x y.

Definition Cell (qt : ptr) (x y : Z) : M Z :=
  let! leaf := findLeaf qt x y in
  let! n := deref leaf in
  ret (Population n).

(** ** Centering helpers *)

Definition centeredSubnode (qt : ptr) : M ptr :=
  let! n := deref qt in
  let! nse := deref (SE (childs n)) in
  let se := NW (childs nse) in
  let! nsw := deref (SW (childs n)) in
  let sw := NE (childs nsw) in
  let! nnw := deref (NW (childs n)) in
  let nw := SE (childs nnw) in
  let! nne := deref (NE (childs n)) in
  let ne := SW (childs nne) in
  NewTree (mkChilds se sw nw ne).

Definition centeredHorizontal (w e : ptr) : M ptr :=
  let! ne_ := deref e in
  let! nesw := deref (SW (childs ne_)) in
  let se := NW (childs nesw) in
  let! nenw := deref (NW (childs ne_)) in
  let ne := SW (childs nenw) in
  let! nw_ := deref w in
  let! nwse := deref (SE (childs nw_)) in
  let sw := NE (childs nwse) in
  let! nwne := deref (NE (childs nw_)) in
  let nw := SE (childs nwne) in
  NewTree (mkChilds se sw nw ne).

Definition centeredVertical (n s : ptr) : M ptr :=
  let! ns := deref s in
  let! nsne := deref (NE (childs ns)) in
  let se := NW (childs nsne) in
  let! nsnw := deref (NW (childs ns)) in
  let sw := NE (childs nsnw) in
  let! nn := deref n in
  let! nnsw := deref (SW (childs nn)) in
  let nw := SE (childs nnsw) in
  let! nnse := deref (SE (childs nn)) in
  let ne := SW (childs nnse) in
  NewTree (mkChilds se sw nw ne).

Definition centeredSubSubnode (qt : ptr) : M ptr :=
  let! n := deref qt in
  let! a := deref (SE (childs n)) in
  let! a' := deref (NW (childs a)) in
  let se := NW (childs a') in
  let! b := deref (SW (childs n)) in
  let! b' := deref (NE (childs b)) in
  let sw := NE (childs b') in
  let! c := deref (NW (childs n)) in
  let! c' := deref (SE (childs c)) in
  let nw := SE (childs c') in
  let! d := deref (NE (childs n)) in
  let! d' := deref (SW (childs d)) in
  let ne := SW (childs d') in
  NewTree (mkChilds se sw nw ne).

(** ** The generation engine *)

(** The bit-clearing loop of [oneGen]; every round clears one of at most
    sixteen set bits. *)
Fixpoint countBits (fuel : nat) (bitmask neighborCount : Z) : option Z :=
  match fuel with
  | O => None
  | S fuel' =>
      if bitmask =? 0 then Some neighborCount
      else countBits fuel' (Z.land bitmask (wrap16 (bitmask - 1))) (neighborCount + 1)
  end.

Definition oneGen (bitmask : Z) : option ptr :=
  if bitmask =? 0 then Some deadLeaf
  else
    let self := Z.land (Z.shiftr bitmask 5) 1 in
    let bitmask := Z.land bitmask 0x757 in
    match countBits 17 bitmask 0 with
    | None => None
    | Some neighborCount =>
        if (neighborCount =? 3) || ((neighborCount =? 2) && negb (self =? 0))
        then Some liveLeaf else Some deadLeaf
    end.

(** A pure loop that did not finish within its fuel. *)
Definition lift {A} (o : option A) : M A :=
  match o with Some a => ret a | None => diverge end.

(** The two counting loops of [slowSimulation], y outside and x inside, both
    from -2 up to 1. *)
Definition scan : list Z := [-2; -1; 0; 1].

Fixpoint packRow (qt : ptr) (y : Z) (xs : list Z) (allbits : Z) : M Z :=
  match xs with
  | [] => ret allbits
  | x :: xs' =>
      let! c := Cell qt x y in
      packRow qt y xs' (wrap16 (wrap16 (allbits * 2) + wrap16 c))
  end.

Fixpoint packRows (qt : ptr) (ys : list Z) (allbits : Z) : M Z :=
  match ys with
  | [] => ret allbits
  | y :: ys' =>
      let! a := packRow qt y scan allbits in
      packRows qt ys' a
  end.

Definition slowSimulation (qt : ptr) : M ptr :=
  let! n := deref qt in
  if negb (Level n =? 2) then throw SlowSimLevel
  else
    let! allbits := packRows qt scan 0 in
    let! se := lift (oneGen allbits) in
    let! sw := lift (oneGen (Z.shiftr allbits 1)) in
    let! nw := lift (oneGen (Z.shiftr allbits 5)) in
    let! ne := lift (oneGen (Z.shiftr allbits 4)) in
    NewTree (mkChilds se sw nw ne).

(** The write [qt.next = nextGen]. *)
Definition setNext (qt r : ptr) : M unit :=
  fun s =>
    match heap s !! qt with
    | Some n =>
        Ok tt (mkState (<[qt := mkQuadtree (Level n) (childs n) (Population n) r]> (heap s))
                 (nodeMap s) (cacheHit s) (cacheMiss s))
    | None => Panic NilDeref
    end.

Fixpoint NextGeneration_fuel (fuel : nat) (qt : ptr) : M ptr :=
  match fuel with
  | O => diverge
  | S fuel' =>
      let! n := deref qt in
      if negb (next n =? nil)%N then ret (next n)
      else if Level n =? 2 then slowSimulation qt
      else
        let c := childs n in
        let! n00 := centeredSubnode (NW c) in
        let! n01 := centeredHorizontal (NW c) (NE c) in
        let! n02 := centeredSubnode (NE c) in
        let! n10 := centeredVertical (NW c) (SW c) in
        let! n11 := centeredSubSubnode qt in
        let! n12 := centeredVertical (NE c) (SE c) in
        let! n20 := centeredSubnode (SW c) in
        let! n21 := centeredHorizontal (SW c) (SE c) in
        let! n22 := centeredSubnode (SE c) in
        let! bnw := NewTree (mkChilds n11 n10 n00 n01) in
        let! rnw := NextGeneration_fuel fuel' bnw in
        let! bne := NewTree (mkChilds n12 n11 n01 n02) in
        let! rne := NextGeneration_fuel fuel' bne in
        let! bsw := NewTree (mkChilds n21 n20 n10 n11) in
        let! rsw := NextGeneration_fuel fuel' bsw in
        let! bse := NewTree (mkChilds n22 n21 n11 n12) in
        let! rse := NextGeneration_fuel fuel' bse in
        let! nextGen := NewTree (mkChilds rse rsw rnw rne) in
        let! _ := setNext qt nextGen in
        ret nextGen
  end.

(** The recursion descends once per level down to level 2. *)
Definition NextGeneration (qt : ptr) : M ptr :=
  let! n := deref qt in
  NextGeneration_fuel (S (Z.to_nat (Level n))) qt.

(** The high-water mark of the cache. *)
Definition cacheLimit : Z := 13000000.

(** The cache reset at the head of [NextGen]. *)
Definition discardCache : M unit :=
  fun s =>
    if cacheLimit <? Z.of_nat (size (nodeMap s))
    then Ok tt (mkState (heap s) ∅ (cacheHit s) (cacheMiss s))
    else Ok tt s.

(** The mutex, the log line and the call of the garbage collector leave no
    trace in the state. *)
Definition NextGen (qt : ptr) : M ptr :=
  let! _ := discardCache in
  let! g := grow qt in
  NextGeneration g.

(** ** Sequences of public operations *)

(** The public operations, as commands. *)
Inductive op :=
  | OpEmptyTree (level : Z)
  | OpNewTree (ch : Childs)
  | OpSetCell (qt : ptr) (x y value : Z)
  | OpGrow (qt : ptr)
  | OpGrowToFit (qt : ptr) (x y : Z)
  | OpNextGen (qt : ptr).

Definition run_op (o : op) : M ptr :=
  match o with
  | OpEmptyTree level => EmptyTree level
  | OpNewTree ch => NewTree ch
  | OpSetCell qt x y value => SetCell qt x y value
  | OpGrow qt => grow qt
  | OpGrowToFit qt x y => GrowToFit qt x y
  | OpNextGen qt => NextGen qt
  end.

(** ** Abstraction: the region a pointer stands for *)

(** The picture behind a handle, with the children in the field order of
    [Childs]. *)
Inductive quad :=
  | QLeaf (b : bool)
  | QNode (se sw nw ne : quad).

(** The children of a picture. *)
Definition qSE (q : quad) : quad := match q with QNode a _ _ _ => a | _ => q end.
Definition qSW (q : quad) : quad := match q with QNode _ a _ _ => a | _ => q end.
Definition qNW (q : quad) : quad := match q with QNode _ _ a _ => a | _ => q end.
Definition qNE (q : quad) : quad := match q with QNode _ _ _ a => a | _ => q end.

(** The leaf that stands for a cell. *)
Definition leafPtr (b : bool) : ptr := if b then liveLeaf else deadLeaf.

(** [abs s l p] reads the complete tree of level [l] below [p] off the heap,
    if there is one. *)
Fixpoint abs (s : state) (l : nat) (p : ptr) : option quad :=
  match l with
  | O => if (p =? liveLeaf)%N then Some (QLeaf true)
         else if (p =? deadLeaf)%N then Some (QLeaf false) else None
  | S l' =>
      match heap s !! p with
      | Some n =>
          if Level n =? Z.of_nat l then
            match abs s l' (SE (childs n)), abs s l' (SW (childs n)),
                  abs s l' (NW (childs n)), abs s l' (NE (childs n)) with
            | Some se, Some sw, Some nw, Some ne => Some (QNode se sw nw ne)
            | _, _, _, _ => None
            end
          else None
      | None => None
      end
  end.

(** [p] is (the root of) a tree of level [l]. *)
Definition is_tree (s : state) (l : nat) (p : ptr) : Prop := is_Some (abs s l p).

(** A picture is complete of level [l]. *)
Fixpoint qwf (l : nat) (q : quad) : Prop :=
  match l, q with
  | O, QLeaf _ => True
  | S l', QNode se sw nw ne => qwf l' se /\ qwf l' sw /\ qwf l' nw /\ qwf l' ne
  | _, _ => False
  end.

(** The all-dead picture of level [l]. *)
Fixpoint qempty (l : nat) : quad :=
  match l with
  | O => QLeaf false
  | S l' => let e := qempty l' in QNode e e e e
  end.

(** The picture of [grow] applied to a tree of level [l]. *)
Definition qgrow (l : nat) (q : quad) : quad :=
  let e := qempty (l - 1) in
  QNode (QNode e e (qSE q) e) (QNode e e e (qSW q))
        (QNode (qNW q) e e e) (QNode e (qNE q) e e).

(** [k] applications of [grow] to a picture of level [l]. *)
Fixpoint qgrows (k l : nat) (q : quad) : quad :=
  match k with
  | O => q
  | S k' => qgrows k' (S l) (qgrow l q)
  end.

(** The coordinate handed to the child by [findLeaf] and [SetCell]. *)
Definition childCoord (l : nat) (x : Z) : Z :=
  let d := distanceToOrigin (Z.of_nat l) in
  if 0 <=? x then wrap64 (x - d) else wrap64 (x + d).

(** The descent of [findLeaf] and [SetCell] on pictures, with the machine
    arithmetic of the code; [None] when the leaf is reached with coordinates
    the leaf test refuses. *)
Fixpoint qfind (l : nat) (q : quad) (x y : Z) : option bool :=
  match l, q with
  | O, QLeaf b => if leafCheck x y then None else Some b
  | S l', QNode se sw nw ne =>
      let d := distanceToOrigin (Z.of_nat l) in
      if 0 <=? x then
        if 0 <=? y then qfind l' se (wrap64 (x - d)) (wrap64 (y - d))
        else qfind l' ne (wrap64 (x - d)) (wrap64 (y + d))
      else
        if 0 <=? y then qfind l' sw (wrap64 (x + d)) (wrap64 (y - d))
        else qfind l' nw (wrap64 (x + d)) (wrap64 (y + d))
  | _, _ => None
  end.

(** The picture of [SetCell], by the same descent. *)
Fixpoint qset (l : nat) (q : quad) (x y : Z) (b : bool) : option quad :=
  match l, q with
  | O, QLeaf _ => if leafCheck x y then None else Some (QLeaf b)
  | S l', QNode se sw nw ne =>
      let d := distanceToOrigin (Z.of_nat l) in
      if 0 <=? x then
        if 0 <=? y then
          match qset l' se (wrap64 (x - d)) (wrap64 (y - d)) b with
          | Some r => Some (QNode r sw nw ne) | None => None end
        else
          match qset l' ne (wrap64 (x - d)) (wrap64 (y + d)) b with
          | Some r => Some (QNode se sw nw r) | None => None end
      else
        if 0 <=? y then
          match qset l' sw (wrap64 (x + d)) (wrap64 (y - d)) b with
          | Some r => Some (QNode se r nw ne) | None => None end
        else
          match qset l' nw (wrap64 (x + d)) (wrap64 (y + d)) b with
          | Some r => Some (QNode se sw r ne) | None => None end
  | _, _ => None
  end.

(** The centering helpers on pictures. *)
Definition qcentered (q : quad) : quad :=
  QNode (qNW (qSE q)) (qNE (qSW q)) (qSE (qNW q)) (qSW (qNE q)).

Definition qcenteredH (w e : quad) : quad :=
  QNode (qNW (qSW e)) (qNE (qSE w)) (qSE (qNE w)) (qSW (qNW e)).

Definition qcenteredV (n s : quad) : quad :=
  QNode (qNW (qNE s)) (qNE (qNW s)) (qSE (qSW n)) (qSW (qSE n)).

Definition qcenteredSS (q : quad) : quad :=
  QNode (qNW (qNW (qSE q))) (qNE (qNE (qSW q)))
        (qSE (qSE (qNW q))) (qSW (qSW (qNE q))).

(** The cell [Cell] reads, dead where the descent panics. *)
Definition cellb (l : nat) (q : quad) (x y : Z) : bool :=
  match qfind l q x y with Some b => b | None => false end.

(** The sixteen cells of a level-2 picture packed as [slowSimulation] does. *)
Definition qbits (q : quad) : Z :=
  fold_left (fun a y =>
    fold_left (fun a x => wrap16 (wrap16 (a * 2) + wrap16 (Z.b2z (cellb 2 q x y))))
      scan a) scan 0.

(** The same packing of an explicit row-major list of cells. *)
Definition bits16 (cells : list bool) : Z :=
  fold_left (fun a b => wrap16 (wrap16 (a * 2) + wrap16 (Z.b2z b))) cells 0.

(** [oneGen] as a truth value: is the result the live leaf? *)
Definition oneGenb (bitmask : Z) : bool :=
  match oneGen bitmask with Some p => (p =? liveLeaf)%N | None => false end.

(** The picture [slowSimulation] computes from a picture of level 2. *)
Definition qslow (q : quad) : quad :=
  let allbits := qbits q in
  QNode (QLeaf (oneGenb allbits)) (QLeaf (oneGenb (Z.shiftr allbits 1)))
        (QLeaf (oneGenb (Z.shiftr allbits 5))) (QLeaf (oneGenb (Z.shiftr allbits 4))).

(** The picture [NextGeneration] computes from a tree of level [l]. *)
Fixpoint qnext (l : nat) (q : quad) : quad :=
  match l with
  | O => q
  | S l' =>
      match l' with
      | O => q
      | S O => qslow q
      | _ =>
          let n00 := qcentered (qNW q) in
          let n01 := qcenteredH (qNW q) (qNE q) in
          let n02 := qcentered (qNE q) in
          let n10 := qcenteredV (qNW q) (qSW q) in
          let n11 := qcenteredSS q in
          let n12 := qcenteredV (qNE q) (qSE q) in
          let n20 := qcentered (qSW q) in
          let n21 := qcenteredH (qSW q) (qSE q) in
          let n22 := qcentered (qSE q) in
          QNode (qnext l' (QNode n22 n21 n11 n12)) (qnext l' (QNode n21 n20 n10 n11))
                (qnext l' (QNode n11 n10 n00 n01)) (qnext l' (QNode n12 n11 n01 n02))
      end
  end.

(** ** Coordinates and the Life rule *)

(** The coordinate box of a level: [-2^(l-1), 2^(l-1)-1], a single cell at
    level 0; coordinates are int64 values. *)
Definition inbox (l : nat) (x : Z) : Prop :=
  match l with
  | O => x = 0
  | S l' => int64 x /\ - 2 ^ Z.of_nat l' <= x <= 2 ^ Z.of_nat l' - 1
  end.

(** [inbox] as a test. *)
Definition inboxb (l : nat) (x : Z) : bool :=
  match l with
  | O => x =? 0
  | S l' => (- 2 ^ 63 <=? x) && (x <? 2 ^ 63)
            && (- 2 ^ Z.of_nat l' <=? x) && (x <=? 2 ^ Z.of_nat l' - 1)
  end.

(** The coordinates the descent can hold at level [l]: the box of the level,
    and at the leaf whatever the leaf test lets through. *)
Definition dbox (l : nat) (x : Z) : Prop :=
  match l with
  | O => -1 <= x <= 0
  | S _ => inbox l x
  end.

(** Cells counted from the north-west corner of a picture: [i] grows to the
    east, [j] to the south, both in [0, 2^l). *)
Fixpoint qat (l : nat) (q : quad) (i j : Z) : bool :=
  match l, q with
  | O, QLeaf b => b
  | S l', QNode se sw nw ne =>
      let h := 2 ^ Z.of_nat l' in
      if i <? h then (if j <? h then qat l' nw i j else qat l' sw i (j - h))
      else (if j <? h then qat l' ne (i - h) j else qat l' se (i - h) (j - h))
  | _, _ => false
  end.

(** [win l q f a b]: the picture [q] of level [l] shows the square of the
    plane [f] whose north-west corner is [(a, b)]. *)
Definition win (l : nat) (q : quad) (f : Z -> Z -> bool) (a b : Z) : Prop :=
  qwf l q /\
  forall i j, 0 <= i < 2 ^ Z.of_nat l -> 0 <= j < 2 ^ Z.of_nat l ->
    qat l q i j = f (a + i) (b + j).

(** The plane with a picture of level [l] around the origin, in the
    coordinates of [Cell], and dead cells everywhere else. *)
Definition plane (l : nat) (q : quad) (x y : Z) : bool :=
  let h := 2 ^ (Z.of_nat l - 1) in
  if (- h <=? x) && (x <? h) && (- h <=? y) && (y <? h)
  then qat l q (x + h) (y + h) else false.

(** Conway's rule: alive with exactly three live neighbours, or with two
    when the cell is alive. *)
Definition lifeRule (self : bool) (neighbours : Z) : bool :=
  (neighbours =? 3) || ((neighbours =? 2) && self).

(** The eight neighbour bits of the 3x3 window of [oneGen]: the south row in
    bits 0..2, the current row in bits 4 and 6, the north row in bits 8..10. *)
Definition windowCount (b : Z) : Z :=
  Z.b2z (Z.testbit b 0) + Z.b2z (Z.testbit b 1) + Z.b2z (Z.testbit b 2)
  + Z.b2z (Z.testbit b 4) + Z.b2z (Z.testbit b 6)
  + Z.b2z (Z.testbit b 8) + Z.b2z (Z.testbit b 9) + Z.b2z (Z.testbit b 10).

(** The live cells among the eight neighbours of [(x, y)]. *)
Definition neighbours (f : Z -> Z -> bool) (x y : Z) : Z :=
  Z.b2z (f (x - 1) (y - 1)) + Z.b2z (f x (y - 1)) + Z.b2z (f (x + 1) (y - 1))
  + Z.b2z (f (x - 1) y) + Z.b2z (f (x + 1) y)
  + Z.b2z (f (x - 1) (y + 1)) + Z.b2z (f x (y + 1)) + Z.b2z (f (x + 1) (y + 1)).

(** One generation of Conway's Life on a plane of cells. *)
Definition life (f : Z -> Z -> bool) (x y : Z) : bool :=
  lifeRule (f x y) (neighbours f x y).

(** The cell of tree [t] at [(x, y)] as [Cell] reports it, dead outside the
    box of level [l]. *)
Definition cellOrDead (s : state) (l : nat) (t : ptr) (x y : Z) : bool :=
  if inboxb l x && inboxb l y then
    match Cell t x y s with
    | Ok v _ => negb (v =? 0)
    | _ => false
    end
  else false.

(** The level at which the loop of [GrowToFit] stops when started at level
    [l], if it stops without a panic within [fuel] rounds. *)
Fixpoint fitLevel (fuel l : nat) (x y : Z) : option nat :=
  match fuel with
  | O => None
  | S fuel' =>
      if fits (Z.of_nat l) x y then Some l
      else if (63 <=? Z.of_nat l) || (Z.of_nat l <? 1) then None
           else fitLevel fuel' (S l) x y
  end.

(** ** State invariants *)

(** Later states keep every node, with its level, children and population. *)
Definition ext (s s' : state) : Prop :=
  forall p n, heap s !! p = Some n ->
    exists n', heap s' !! p = Some n' /\ Level n' = Level n /\
               childs n' = childs n /\ Population n' = Population n.

(** [p] is one of the two leaves. *)
Definition isLeafPtr (p : ptr) : Prop := p = liveLeaf \/ p = deadLeaf.

(** [inv c s]: the leaves are in place, inner nodes are as [NewTree] builds
    them, the cache maps a key to a node with exactly these children, a set
    [next] field holds the advanced center.  With [c = true] moreover every
    node that [NewTree] interns is still the cache entry of its children. *)
Record inv (c : bool) (s : state) : Prop := mkInv {
  inv_live : heap s !! liveLeaf = Some liveNode;
  inv_dead : heap s !! deadLeaf = Some deadNode;
  inv_nil : heap s !! nil = None;
  inv_node : forall p n, heap s !! p = Some n -> ~ isLeafPtr p ->
      (exists nne, heap s !! NE (childs n) = Some nne /\
                   Level n = wrapu (Level nne + 1)) /\
      is_Some (heap s !! SE (childs n)) /\ is_Some (heap s !! SW (childs n)) /\
      is_Some (heap s !! NW (childs n));
  inv_cache : forall k p, nodeMap s !! k = Some p ->
      ~ isLeafPtr p /\ exists n, heap s !! p = Some n /\ childs n = k;
  inv_memo : forall p n l q, heap s !! p = Some n -> next n <> nil ->
      abs s l p = Some q ->
      (3 <= l)%nat /\ abs s (l - 1) (next n) = Some (qnext l q);
  inv_canon : c = true -> forall p n, heap s !! p = Some n -> ~ isLeafPtr p ->
      Population n = 0 \/ Level n <= 16 -> nodeMap s !! childs n = Some p
}.

(** An operation applied to trees and machine integers. *)
Definition op_ok (s : state) (o : op) : Prop :=
  match o with
  | OpEmptyTree level => uint level
  | OpNewTree ch => True
  | OpSetCell qt x y value =>
      (exists l, is_tree s l qt) /\ int64 x /\ int64 y /\ int64 value
  | OpGrow qt => exists l, is_tree s l qt
  | OpGrowToFit qt x y => (exists l, is_tree s l qt) /\ int64 x /\ int64 y
  | OpNextGen qt => exists l, is_tree s l qt
  end.

(** States reached from initialisation by operations that return. *)
Inductive reachable : state -> Prop :=
  | reach_init : reachable init
  | reach_step s o r s' :
      reachable s -> op_ok s o -> run_op o s = Ok r s' -> reachable s'.

(** [NextGen] empties the cache when it holds more than [cacheLimit]
    entries; [keeps_cache s o] says that [o] run in [s] does not. *)
Definition keeps_cache (s : state) (o : op) : Prop :=
  match o with
  | OpNextGen _ => Z.of_nat (size (nodeMap s)) <= cacheLimit
  | _ => True
  end.

(** States reached without the cache ever being emptied. *)
Inductive reachable_keeping : state -> Prop :=
  | keep_init : reachable_keeping init
  | keep_step s o r s' :
      reachable_keeping s -> op_ok s o -> keeps_cache s o ->
      run_op o s = Ok r s' -> reachable_keeping s'.

(** The outcome of a monadic run that returns, keeps the invariant and
    satisfies [Q]. *)
Definition post {A} (c : bool) (s : state) (m : M A) (Q : A -> state -> Prop) : Prop :=
  exists a s', m s = Ok a s' /\ inv c s' /\ ext s s' /\ Q a s'.

(** ** Checks by enumeration *)

(** [oneGen] agrees with the rule on the bitmask [b]. *)
Definition oneGen_agrees (b : Z) : bool :=
  match oneGen b with
  | Some p => (p =? leafPtr (lifeRule (Z.testbit b 5) (windowCount b)))%N
  | None => false
  end.

(** [all_below n base P] checks [P] on the [2^n] integers from [base] on. *)
Fixpoint all_below (n : nat) (base : Z) (P : Z -> bool) : bool :=
  match n with
  | O => P base
  | S n' => all_below n' base P && all_below n' (base + 2 ^ Z.of_nat n') P
  end.

(** ** Sample runs *)

(** The state and the value a run ends with. *)
Definition state_of {A} (r : res A) : state :=
  match r with Ok _ s => s | _ => init end.

Definition value_of (r : res ptr) : ptr :=
  match r with Ok p _ => p | _ => nil end.

(** The empty tree of level 1, and the state that holds it. *)
Definition run_empty1 : res ptr := EmptyTree 1 init.

(** The empty tree of level 2. *)
Definition run_empty2 : res ptr := EmptyTree 2 init.

(** A level-2 tree with the single live cell (0, 0). *)
Definition run_dot2 : res ptr :=
  (let! e := EmptyTree 2 in SetCell e 0 0 1) init.

(** The same cell set twice in the empty tree of level 17. *)
Definition run_twin17 : res (ptr * ptr) :=
  (let! e := EmptyTree 17 in
   let! a := SetCell e 0 0 1 in
   let! b := SetCell e 0 0 1 in
   ret (a, b)) init.

(** A level-17 tree with one live cell, grown and centered again. *)
Definition run_regrow17 : res (ptr * ptr) :=
  (let! e := EmptyTree 17 in
   let! a := SetCell e 0 0 1 in
   let! g := grow a in
   let! r := centeredSubnode g in
   ret (a, r)) init.

(** The node behind a pointer of a sample state. *)
Definition node_at (s : state) (p : ptr) : Quadtree :=
  match heap s !! p with Some n => n | None => deadNode end.


(** Machine arithmetic stays folded under [simpl]. *)
Arguments wrap64 : simpl never.
Arguments wrapu : simpl never.
Arguments wrap16 : simpl never.
Arguments shl64 : simpl never.
Arguments distanceToOrigin : simpl never.
Arguments fits : simpl never.
Arguments leafCheck : simpl never.
Arguments oneGen : simpl never.
Arguments Z.pow : simpl never.
Arguments Z.of_nat : simpl never.
Arguments oneGenb : simpl never.
Arguments qbits : simpl never.
Arguments childCoord : simpl never.

(** ** Enumerating live cells *)

(** [FindLifeCells] with its callback as a function on the caller's data
    [U]: [callback x y u] is the caller's data after one call.  A callback
    does not touch the trees. *)
Fixpoint FindLifeCells_fuel {U : Type} (fuel : nat) (qt : ptr) (x y : Z)
    (callback : Z -> Z -> U -> U) (u : U) : M U :=
  match fuel with
  | O => diverge
  | S fuel' =>
      let! n := deref qt in
      if Population n =? 0 then ret u
      else if Level n =? 0 then
        if 0 <? Population n then ret (callback x y u) else ret u
      else
        let distance := shl64 1 (wrapu (Level n - 1)) in
        let c := childs n in
        let! u1 := FindLifeCells_fuel fuel' (SE c) (wrap64 (x + distance))
                     (wrap64 (y + distance)) callback u in
        let! u2 := FindLifeCells_fuel fuel' (SW c) x (wrap64 (y + distance)) callback u1 in
        let! u3 := FindLifeCells_fuel fuel' (NW c) x y callback u2 in
        FindLifeCells_fuel fuel' (NE c) (wrap64 (x + distance)) y callback u3
  end.

Definition FindLifeCells {U : Type} (qt : ptr) (x y : Z)
    (callback : Z -> Z -> U -> U) (u : U) : M U :=
  let! n := deref qt in
  FindLifeCells_fuel (S (Z.to_nat (Level n))) qt x y callback u.

(** The live cells of a picture in the order [FindLifeCells] visits them,
    [(x, y)] being the coordinates of the north-west corner. *)
Fixpoint qlive (l : nat) (q : quad) (x y : Z) : list (Z * Z) :=
  match l, q with
  | O, QLeaf b => if b then [(x, y)] else []
  | S l', QNode se sw nw ne =>
      let d := shl64 1 (wrapu (Z.of_nat l - 1)) in
      qlive l' se (wrap64 (x + d)) (wrap64 (y + d))
      ++ qlive l' sw x (wrap64 (y + d))
      ++ qlive l' nw x y
      ++ qlive l' ne (wrap64 (x + d)) y
  | _, _ => []
  end.

(** The number of live cells of a picture. *)
Fixpoint qcount (q : quad) : Z :=
  match q with
  | QLeaf b => Z.b2z b
  | QNode se sw nw ne => qcount se + qcount sw + qcount nw + qcount ne
  end.

(** ** Invariants kept by every operation *)

(** [keeps P m]: a run of [m] that returns takes a state with [P] to a state
    with [P]. *)
Definition keeps {A} (P : state -> Prop) (m : M A) : Prop :=
  forall s a s', P s -> m s = Ok a s' -> P s'.

(** The population field of every inner node is the int64 sum of the
    populations of its children. *)
Definition pop_ok (s : state) : Prop :=
  forall p n, heap s !! p = Some n -> ~ isLeafPtr p ->
    exists nse nsw nnw nne,
      heap s !! SE (childs n) = Some nse /\ heap s !! SW (childs n) = Some nsw /\
      heap s !! NW (childs n) = Some nnw /\ heap s !! NE (childs n) = Some nne /\
      Population n =
        wrap64 (wrap64 (wrap64 (Population nse + Population nsw) + Population nnw)
                + Population nne).

(** [yields P m Q]: a run of [m] that returns from a state with [P] ends
    with [Q]. *)
Definition yields {A} (P : state -> Prop) (m : M A) (Q : A -> state -> Prop) : Prop :=
  forall s a s', P s -> m s = Ok a s' -> Q a s'.

(** The nil pointer is no node and no cache entry. *)
Definition nonnil (s : state) : Prop :=
  heap s !! nil = None /\ forall k p, nodeMap s !! k = Some p -> p <> nil.

(** ** More sample runs *)

(** The empty tree of level 3. *)
Definition run_empty3 : res ptr := EmptyTree 3 init.

(** A level-3 tree with the single live cell (0, 0). *)
Definition run_dot3 : res ptr :=
  (let! e := EmptyTree 3 in SetCell e 0 0 1) init.

(** The center of that tree, advanced by [NextGeneration]. *)
Definition run_next3 : res ptr :=
  NextGeneration (value_of run_dot3) (state_of run_dot3).

(** ** Client loops *)

(** [k] calls of [NextGen] in a row. *)
Fixpoint NextGens (k : nat) (qt : ptr) : M ptr :=
  match k with
  | O => ret qt
  | S k' => let! r := NextGen qt in NextGens k' r
  end.

(** One generation of Life on the box of level [l]: cells outside the box
    are dead and stay dead. *)
Definition lifeIn (l : nat) (f : Z -> Z -> bool) (x y : Z) : bool :=
  if inboxb l x && inboxb l y then life f x y else false.

(** The all-live tree of level [l], built bottom-up with [NewTree]. *)
Fixpoint fullTree (l : nat) : M ptr :=
  match l with
  | O => ret liveLeaf
  | S l' => let! c := fullTree l' in NewTree (mkChilds c c c c)
  end.

(** The all-live picture. *)
Fixpoint qfull (l : nat) : quad :=
  match l with
  | O => QLeaf true
  | S l' => let f := qfull l' in QNode f f f f
  end.

(** ** Sample runs for handle identity, and the leaf coordinate *)

(** Two cells set in the empty tree of level 2, in either order: first
    (0, 0) and then (-1, -1) ... *)
Definition run_first2 : res ptr :=
  SetCell (value_of run_dot2) (-1) (-1) 1 (state_of run_dot2).

(** ... and, starting again from the empty tree, first (-1, -1) ... *)
Definition run_other2 : res ptr :=
  SetCell (value_of run_empty2) (-1) (-1) 1 (state_of run_first2).

(** ... and then (0, 0). *)
Definition run_second2 : res ptr :=
  SetCell (value_of run_other2) 0 0 1 (state_of run_other2).

(** The coordinate that arrives at the leaf when [findLeaf] or [SetCell]
    descends from level [l] with [x]. *)
Fixpoint leafCoord (l : nat) (x : Z) : Z :=
  match l with
  | O => x
  | S l' => leafCoord l' (childCoord l x)
  end.


(** * Proofs *)

(** ** The Life rule of [oneGen] *)

Lemma all_below_spec (n : nat) (P : Z -> bool) :
  forall base, all_below n base P = true ->
  forall b, base <= b < base + 2 ^ Z.of_nat n -> P b = true.
Proof.
  induction n as [|n IH]; intros base H b Hb; simpl in H.
  - change (2 ^ Z.of_nat 0) with 1 in Hb. replace b with base by lia. exact H.
  - apply andb_prop in H as [H1 H2].
    rewrite Nat2Z.inj_succ, Z.pow_succ_r in Hb by lia.
    destruct (Z_lt_le_dec b (base + 2 ^ Z.of_nat n)).
    + apply (IH base H1). lia.
    + apply (IH _ H2). lia.
Qed.

Lemma oneGen_agrees_all : all_below 16 0 oneGen_agrees = true.
Proof. vm_compute. reflexivity. Qed.

(** ** Machine arithmetic *)

Lemma wrap64_id (z : Z) : int64 z -> wrap64 z = z.
Proof.
  unfold int64, wrap64. intros H.
  rewrite Z.mod_small; lia.
Qed.

Lemma wrap64_int64 (z : Z) : int64 (wrap64 z).
Proof.
  unfold int64, wrap64.
  pose proof (Z.mod_pos_bound (z + 2 ^ 63) (2 ^ 64) ltac:(lia)). lia.
Qed.

Lemma wrapu_id (z : Z) : uint z -> wrapu z = z.
Proof. unfold uint, wrapu. intros H. apply Z.mod_small; lia. Qed.

Lemma wrapu_uint (z : Z) : uint (wrapu z).
Proof. unfold uint, wrapu. apply Z.mod_pos_bound. lia. Qed.

Lemma pow2_pos (n : nat) : 0 < 2 ^ Z.of_nat n.
Proof. apply Z.pow_pos_nonneg; lia. Qed.

Lemma pow2_S (n : nat) : 2 ^ Z.of_nat (S n) = 2 * 2 ^ Z.of_nat n.
Proof. rewrite Nat2Z.inj_succ, Z.pow_succ_r; lia. Qed.

Lemma pow2_mono (a b : nat) : (a <= b)%nat -> 2 ^ Z.of_nat a <= 2 ^ Z.of_nat b.
Proof. intros H. apply Z.pow_le_mono_r; lia. Qed.

(** ** The monad *)

Lemma ext_refl (s : state) : ext s s.
Proof. intros p n H. exists n. auto. Qed.

Lemma ext_trans (s1 s2 s3 : state) : ext s1 s2 -> ext s2 s3 -> ext s1 s3.
Proof.
  intros H12 H23 p n H.
  destruct (H12 p n H) as (n2 & H2 & L2 & C2 & P2).
  destruct (H23 p n2 H2) as (n3 & H3 & L3 & C3 & P3).
  exists n3. repeat split; congruence.
Qed.

Lemma ext_alloc (s s' : state) (p : ptr) : ext s s' -> is_Some (heap s !! p) -> is_Some (heap s' !! p).
Proof. intros H [n Hn]. destruct (H p n Hn) as (n' & Hn' & _). eauto. Qed.

Lemma post_ret {A} c s (a : A) (Q : A -> state -> Prop) :
  inv c s -> Q a s -> post c s (ret a) Q.
Proof. intros Hi HQ. exists a, s. split; [reflexivity|]. auto using ext_refl. Qed.

Lemma post_bind {A B} c s (m : M A) (k : A -> M B)
    (Q : A -> state -> Prop) (R : B -> state -> Prop) :
  post c s m Q ->
  (forall a s', inv c s' -> ext s s' -> Q a s' -> post c s' (k a) R) ->
  post c s (bind m k) R.
Proof.
  intros (a & s1 & Hm & Hi & He & HQ) Hk.
  destruct (Hk a s1 Hi He HQ) as (b & s2 & Hk' & Hi2 & He2 & HR).
  exists b, s2. unfold bind. rewrite Hm. eauto using ext_trans.
Qed.

Lemma post_deref {B} c s p n (k : Quadtree -> M B) (R : B -> state -> Prop) :
  heap s !! p = Some n -> post c s (k n) R -> post c s (bind (deref p) k) R.
Proof. intros H Hk. unfold post, bind, deref. rewrite H. exact Hk. Qed.

Lemma post_weaken {A} c s (m : M A) (Q Q' : A -> state -> Prop) :
  post c s m Q ->
  (forall a s', inv c s' -> ext s s' -> Q a s' -> Q' a s') ->
  post c s m Q'.
Proof.
  intros (a & s1 & Hm & Hi & He & HQ) H. exists a, s1. eauto 6.
Qed.

Lemma post_lift {A B} c s (o : option A) a (k : A -> M B) (R : B -> state -> Prop) :
  o = Some a -> post c s (k a) R -> post c s (bind (lift o) k) R.
Proof. intros -> Hk. exact Hk. Qed.

(** ** The abstraction *)

Lemma leaf_neq : liveLeaf <> deadLeaf.
Proof. discriminate. Qed.

Lemma abs_heap (s s' : state) : heap s = heap s' -> forall l p, abs s l p = abs s' l p.
Proof.
  intros H l. induction l as [|l IH]; intros p; simpl; [reflexivity|].
  rewrite H. destruct (heap s' !! p) as [n|]; [|reflexivity].
  rewrite !IH. reflexivity.
Qed.

Lemma abs_leaf (s : state) (b : bool) : abs s 0 (leafPtr b) = Some (QLeaf b).
Proof. destruct b; reflexivity. Qed.

Lemma abs_0_inv (s : state) p q : abs s 0 p = Some q -> exists b, q = QLeaf b /\ p = leafPtr b.
Proof.
  simpl. destruct (N.eqb_spec p liveLeaf) as [->|].
  - intros [= <-]. exists true. auto.
  - destruct (N.eqb_spec p deadLeaf) as [->|]; [|discriminate].
    intros [= <-]. exists false. auto.
Qed.

Lemma abs_S_inv (s : state) l p q :
  abs s (S l) p = Some q ->
  exists n se sw nw ne,
    heap s !! p = Some n /\ Level n = Z.of_nat (S l) /\ q = QNode se sw nw ne /\
    abs s l (SE (childs n)) = Some se /\ abs s l (SW (childs n)) = Some sw /\
    abs s l (NW (childs n)) = Some nw /\ abs s l (NE (childs n)) = Some ne.
Proof.
  cbn [abs]. destruct (heap s !! p) as [n|]; [|discriminate].
  destruct (Z.eqb_spec (Level n) (Z.of_nat (S l))) as [HL|]; [|discriminate].
  destruct (abs s l (SE (childs n))) as [se|] eqn:E1; [|discriminate].
  destruct (abs s l (SW (childs n))) as [sw|] eqn:E2; [|discriminate].
  destruct (abs s l (NW (childs n))) as [nw|] eqn:E3; [|discriminate].
  destruct (abs s l (NE (childs n))) as [ne|] eqn:E4; [|discriminate].
  intros [= <-]. exists n, se, sw, nw, ne. repeat split; auto.
Qed.

Lemma abs_S_intro (s : state) l p n se sw nw ne :
  heap s !! p = Some n -> Level n = Z.of_nat (S l) ->
  abs s l (SE (childs n)) = Some se -> abs s l (SW (childs n)) = Some sw ->
  abs s l (NW (childs n)) = Some nw -> abs s l (NE (childs n)) = Some ne ->
  abs s (S l) p = Some (QNode se sw nw ne).
Proof.
  intros Hp HL H1 H2 H3 H4. cbn [abs]. rewrite Hp, HL, Z.eqb_refl, H1, H2, H3, H4.
  reflexivity.
Qed.

Lemma abs_mono (s s' : state) : ext s s' ->
  forall l p q, abs s l p = Some q -> abs s' l p = Some q.
Proof.
  intros He l. induction l as [|l IH]; intros p q H; [exact H|].
  apply abs_S_inv in H as (n & se & sw & nw & ne & Hp & HL & -> & H1 & H2 & H3 & H4).
  destruct (He p n Hp) as (n' & Hp' & HL' & HC' & _).
  apply abs_S_intro with n'; rewrite ?HC'; auto; congruence.
Qed.

Lemma abs_alloc c (s : state) l p q : inv c s -> abs s l p = Some q -> is_Some (heap s !! p).
Proof.
  intros Hi H. destruct l.
  - apply abs_0_inv in H as (b & _ & ->). destruct b; simpl.
    + rewrite (inv_live _ _ Hi). eauto.
    + rewrite (inv_dead _ _ Hi). eauto.
  - apply abs_S_inv in H as (n & ? & ? & ? & ? & Hp & _). eauto.
Qed.

Lemma leaf_level c (s : state) p n : inv c s -> isLeafPtr p -> heap s !! p = Some n ->
  Level n = 0 /\ Population n = (if (p =? liveLeaf)%N then 1 else 0) /\ next n = nil.
Proof.
  intros Hi [-> | ->] H.
  - rewrite (inv_live _ _ Hi) in H. injection H as <-. auto.
  - rewrite (inv_dead _ _ Hi) in H. injection H as <-. auto.
Qed.

Lemma abs_S_nonleaf c (s : state) l p q : inv c s -> abs s (S l) p = Some q -> ~ isLeafPtr p.
Proof.
  intros Hi H Hl.
  apply abs_S_inv in H as (n & ? & ? & ? & ? & Hp & HL & _).
  destruct (leaf_level c s p n Hi Hl Hp) as (HL0 & _). lia.
Qed.

(** A node allocated in [s] stands for the same picture in every later state. *)
Lemma abs_stable c (s s' : state) : inv c s -> ext s s' ->
  forall l p, is_Some (heap s !! p) -> abs s' l p = abs s l p.
Proof.
  intros Hi He l. induction l as [|l IH]; intros p [n Hp]; [reflexivity|].
  destruct (He p n Hp) as (n' & Hp' & HL' & HC' & _).
  cbn [abs]. rewrite Hp, Hp', HL', HC'.
  destruct (Z.eqb_spec (Level n) (Z.of_nat (S l))) as [HL|]; [|reflexivity].
  assert (Hnl : ~ isLeafPtr p).
  { intros Hl. destruct (leaf_level c s p n Hi Hl Hp) as (HL0 & _). lia. }
  destruct (inv_node _ _ Hi p n Hp Hnl) as ((nne & Hne & _) & Hse & Hsw & Hnw).
  rewrite !IH by eauto. reflexivity.
Qed.

Lemma abs_level_unique (s : state) l l' p q q' :
  abs s (S l) p = Some q -> abs s (S l') p = Some q' -> l = l'.
Proof.
  intros H H'.
  apply abs_S_inv in H as (n & ? & ? & ? & ? & Hp & HL & _).
  apply abs_S_inv in H' as (n' & ? & ? & ? & ? & Hp' & HL' & _).
  assert (n = n') by congruence. subst. lia.
Qed.

Lemma abs_level c (s : state) l l' p q q' : inv c s ->
  abs s l p = Some q -> abs s l' p = Some q' -> l = l'.
Proof.
  intros Hi H H'. destruct l, l'; auto.
  - apply abs_0_inv in H as (b & _ & ->).
    exfalso. apply (abs_S_nonleaf c s l' _ _ Hi H'). destruct b; [left|right]; reflexivity.
  - apply abs_0_inv in H' as (b & _ & ->).
    exfalso. apply (abs_S_nonleaf c s l _ _ Hi H). destruct b; [left|right]; reflexivity.
  - f_equal. eapply abs_level_unique; eauto.
Qed.

(** Carry every known picture along an extension of the state. *)
Ltac forward He :=
  match type of He with
  | ext ?s ?s' =>
      repeat match goal with
             | H : abs s _ _ = Some _ |- _ => apply (abs_mono s s' He) in H
             end
  end.

Lemma bind_deref {B} (s : state) p n (k : Quadtree -> M B) :
  heap s !! p = Some n -> (bind (deref p) k) s = k n s.
Proof. intros H. unfold bind, deref. rewrite H. reflexivity. Qed.

Lemma post_bind_eq {A B} c s (m : M A) a (k : A -> M B) (R : B -> state -> Prop) :
  m s = Ok a s -> post c s (k a) R -> post c s (bind m k) R.
Proof. intros H Hk. unfold post, bind. rewrite H. exact Hk. Qed.

(** ** [NewTree] *)

Lemma inv_counters c s h m : inv c s -> inv c (mkState (heap s) (nodeMap s) h m).
Proof.
  intros [H1 H2 H3 H4 H5 H6 H7]. constructor; simpl; auto.
  intros p n l q Hp Hn Ha.
  rewrite (abs_heap (mkState (heap s) (nodeMap s) h m) s eq_refl) in Ha.
  rewrite (abs_heap (mkState (heap s) (nodeMap s) h m) s eq_refl). eauto.
Qed.

Lemma fresh_nil (h : gmap ptr Quadtree) :
  let p := fresh ({[nil]} ∪ dom h : gset ptr) in p <> nil /\ h !! p = None.
Proof.
  intros p. pose proof (is_fresh ({[nil]} ∪ dom h : gset ptr)) as H. fold p in H.
  split.
  - intros E. apply H. set_solver.
  - apply not_elem_of_dom. set_solver.
Qed.

Lemma NewTree_post c s k nne :
  inv c s ->
  is_Some (heap s !! SE k) -> is_Some (heap s !! SW k) -> is_Some (heap s !! NW k) ->
  heap s !! NE k = Some nne ->
  post c s (NewTree k) (fun r s' =>
    ~ isLeafPtr r /\
    exists n, heap s' !! r = Some n /\ childs n = k /\ Level n = wrapu (Level nne + 1)).
Proof.
  intros Hi [nse Hse] [nsw Hsw] [nnw Hnw] Hne.
  unfold post, NewTree.
  destruct (nodeMap s !! k) as [qt|] eqn:Hk.
  - eexists _, _. split; [reflexivity|].
    split; [apply inv_counters; exact Hi|].
    split; [intros p n Hp; exists n; auto|].
    destruct (inv_cache _ _ Hi k qt Hk) as (Hnl & n & Hp & Hc).
    split; [exact Hnl|]. exists n. simpl. repeat split; auto.
    destruct (inv_node _ _ Hi qt n Hp Hnl) as ((nne' & Hne' & HL) & _).
    rewrite Hc in Hne'. congruence.
  - unfold bind, deref, population, bind, deref, alloc, ret. simpl.
    repeat (first [rewrite Hne|rewrite Hse|rewrite Hsw|rewrite Hnw]; simpl).
    set (pop := wrap64 (wrap64 (wrap64 (Population nse + Population nsw) + Population nnw)
                        + Population nne)).
    set (lv := wrapu (Level nne + 1)).
    set (p := fresh ({[nil]} ∪ dom (heap s) : gset ptr)).
    destruct (fresh_nil (heap s)) as [Hpnil Hpfresh]. fold p in Hpnil, Hpfresh.
    set (nn := mkQuadtree lv k pop nil).
    set (nm := if (pop =? 0) || (lv <=? 16) then <[k := p]> (nodeMap s) else nodeMap s).
    set (s' := mkState (<[p := nn]> (heap s)) nm (cacheHit s) (wrapu (cacheMiss s + 1))).
    assert (Hres : (if (pop =? 0) || (lv <=? 16)
                    then Ok p (mkState (<[p := nn]> (heap s)) (<[k := p]> (nodeMap s))
                                 (cacheHit s) (wrapu (cacheMiss s + 1)))
                    else Ok p (mkState (<[p := nn]> (heap s)) (nodeMap s)
                                 (cacheHit s) (wrapu (cacheMiss s + 1)))) = Ok p s').
    { unfold s', nm. destruct ((pop =? 0) || (lv <=? 16)); reflexivity. }
    exists p, s'. split; [exact Hres|]. clear Hres.
    assert (Hold : forall q m, heap s !! q = Some m -> heap s' !! q = Some m).
    { intros q m Hq. simpl. rewrite lookup_insert_ne; [exact Hq|]. congruence. }
    assert (Hext : ext s s').
    { intros q m Hq. exists m. auto. }
    assert (Hpnl : ~ isLeafPtr p).
    { intros [E | E]; rewrite E in Hpfresh.
      - rewrite (inv_live _ _ Hi) in Hpfresh. discriminate.
      - rewrite (inv_dead _ _ Hi) in Hpfresh. discriminate. }
    assert (Hnew : heap s' !! p = Some nn) by (simpl; apply lookup_insert_eq).
    split; [|split; [exact Hext|split; [exact Hpnl|exists nn; auto]]].
    constructor.
    + apply Hold, (inv_live _ _ Hi).
    + apply Hold, (inv_dead _ _ Hi).
    + simpl. rewrite lookup_insert_ne by congruence. apply (inv_nil _ _ Hi).
    + intros q m Hq Hnl. simpl in Hq.
      destruct (decide (q = p)) as [->|Hqp].
      * rewrite lookup_insert_eq in Hq. injection Hq as <-. simpl.
        split; [exists nne; split; [apply Hold, Hne|reflexivity]|].
        repeat split; eexists; apply Hold; eassumption.
      * rewrite lookup_insert_ne in Hq by congruence.
        destruct (inv_node _ _ Hi q m Hq Hnl) as ((x & Hx & HL) & (a & Ha) & (b & Hb) & (d & Hd)).
        split; [exists x; split; [apply Hold, Hx|exact HL]|].
        repeat split; eexists; apply Hold; eassumption.
    + intros k' q Hq. simpl in Hq. unfold nm in Hq.
      assert (Hcase : q = p /\ k' = k \/ nodeMap s !! k' = Some q).
      { destruct ((pop =? 0) || (lv <=? 16)); [|auto].
        destruct (decide (k' = k)) as [->|Hkk].
        - rewrite lookup_insert_eq in Hq. injection Hq as <-. auto.
        - rewrite lookup_insert_ne in Hq by congruence. auto. }
      destruct Hcase as [[-> ->] | Hq'].
      * split; [exact Hpnl|]. exists nn. auto.
      * destruct (inv_cache _ _ Hi k' q Hq') as (Hnl & m & Hm & Hc).
        split; [exact Hnl|]. exists m. auto.
    + intros q m l qq Hq Hnx Ha. simpl in Hq.
      destruct (decide (q = p)) as [->|Hqp].
      * rewrite lookup_insert_eq in Hq. injection Hq as <-. simpl in Hnx. congruence.
      * rewrite lookup_insert_ne in Hq by congruence.
        rewrite (abs_stable c s s' Hi Hext) in Ha by eauto.
        destruct (inv_memo _ _ Hi q m l qq Hq Hnx Ha) as [Hl Hm].
        split; [exact Hl|]. apply (abs_mono s s' Hext), Hm.
    + intros -> q m Hq Hnl Hcond. simpl in Hq. simpl. unfold nm.
      destruct (decide (q = p)) as [->|Hqp].
      * rewrite lookup_insert_eq in Hq. injection Hq as <-. simpl in Hcond |- *.
        replace ((pop =? 0) || (lv <=? 16)) with true.
        { apply lookup_insert_eq. }
        symmetry. apply orb_true_iff. destruct Hcond; [left; apply Z.eqb_eq|right; apply Z.leb_le]; auto.
      * rewrite lookup_insert_ne in Hq by congruence.
        pose proof (inv_canon _ _ Hi eq_refl q m Hq Hnl Hcond) as Hc.
        destruct ((pop =? 0) || (lv <=? 16)); [|exact Hc].
        rewrite lookup_insert_ne; [exact Hc|]. congruence.
Qed.

Lemma abs_Level c (s : state) l p q n :
  inv c s -> abs s l p = Some q -> heap s !! p = Some n -> Level n = Z.of_nat l.
Proof.
  intros Hi H Hp. destruct l.
  - apply abs_0_inv in H as (b & _ & ->).
    destruct (leaf_level c s (leafPtr b) n Hi) as (HL & _); auto.
    destruct b; [left|right]; reflexivity.
  - apply abs_S_inv in H as (n' & ? & ? & ? & ? & Hp' & HL & _). congruence.
Qed.

Lemma abs_uint c (s : state) l p q : inv c s -> abs s l p = Some q -> Z.of_nat l < 2 ^ 64.
Proof.
  intros Hi H. destruct l; [reflexivity|].
  pose proof (abs_S_nonleaf c s l p q Hi H) as Hnl.
  apply abs_S_inv in H as (n & ? & ? & ? & ? & Hp & HL & _).
  destruct (inv_node _ _ Hi p n Hp Hnl) as ((nne & _ & HL') & _).
  pose proof (wrapu_uint (Level nne + 1)) as Hu. unfold uint in Hu. lia.
Qed.

Lemma NewTree_abs c s k l qse qsw qnw qne :
  inv c s -> Z.of_nat l + 1 < 2 ^ 64 ->
  abs s l (SE k) = Some qse -> abs s l (SW k) = Some qsw ->
  abs s l (NW k) = Some qnw -> abs s l (NE k) = Some qne ->
  post c s (NewTree k) (fun r s' =>
    abs s' (S l) r = Some (QNode qse qsw qnw qne) /\
    exists n, heap s' !! r = Some n /\ childs n = k).
Proof.
  intros Hi Hl H1 H2 H3 H4.
  destruct (abs_alloc c s l _ _ Hi H4) as [nne Hne].
  eapply post_weaken.
  - apply (NewTree_post c s k nne Hi); eauto using abs_alloc.
  - intros r s' Hi' He (Hnl & n & Hr & Hc & HL). split; [|eauto].
    apply abs_S_intro with n; rewrite ?Hc; eauto using abs_mono.
    rewrite HL, (abs_Level c s l _ _ nne Hi H4 Hne).
    rewrite wrapu_id by (unfold uint; lia). lia.
Qed.

(** ** [EmptyTree] *)

Lemma EmptyTree_fuel_post c (fuel : nat) :
  forall s level, inv c s -> 0 <= level < 2 ^ 64 - 2 -> (Z.to_nat level <= fuel)%nat ->
  post c s (EmptyTree_fuel fuel level) (fun r s' =>
    abs s' (Z.to_nat level) r = Some (qempty (Z.to_nat level))).
Proof.
  induction fuel as [|fuel IH]; intros s level Hi Hl Hf.
  - assert (level = 0) as -> by lia. apply post_ret; auto.
  - cbn [EmptyTree_fuel].
    destruct (Z.eqb_spec level 0) as [->|Hn0]; [apply post_ret; auto|].
    rewrite !wrapu_id by (unfold uint; lia).
    destruct (Z.eqb_spec (level + 1) 0); [lia|].
    destruct (Z.eqb_spec (level + 2) 0); [lia|]. cbn [orb].
    eapply post_bind; [apply (IH s (level - 1)); auto; lia|].
    intros e s1 Hi1 He1 Ha. cbn beta in Ha |- *.
    replace (Z.to_nat level) with (S (Z.to_nat (level - 1))) by lia.
    eapply post_weaken.
    + eapply (NewTree_abs c s1 _ (Z.to_nat (level - 1))); [exact Hi1|lia|exact Ha..].
    + intros r s2 _ _ [Hr _]. exact Hr.
Qed.

Lemma EmptyTree_post c s (l : nat) :
  inv c s -> Z.of_nat l < 2 ^ 64 - 2 ->
  post c s (EmptyTree (Z.of_nat l)) (fun r s' => abs s' l r = Some (qempty l)).
Proof.
  intros Hi Hl. unfold EmptyTree.
  eapply post_weaken; [apply EmptyTree_fuel_post; auto; lia|].
  intros r s' _ _ H. rewrite Nat2Z.id in H. exact H.
Qed.

(** The two levels next to the overflow collapse to the dead leaf. *)
Lemma EmptyTree_collapse (level : Z) (s : state) :
  level = 0 \/ level = 2 ^ 64 - 1 \/ level = 2 ^ 64 - 2 ->
  EmptyTree level s = Ok deadLeaf s.
Proof.
  intros H. unfold EmptyTree.
  assert (E : (level =? 0) || (wrapu (level + 1) =? 0) || (wrapu (level + 2) =? 0) = true).
  { destruct H as [-> | [-> | ->]]; reflexivity. }
  destruct (Z.to_nat level); cbn [EmptyTree_fuel]; rewrite E; reflexivity.
Qed.

(** ** [grow] *)

Lemma grow_post c s l t q :
  inv c s -> abs s l t = Some q -> (1 <= l < 63)%nat ->
  post c s (grow t) (fun r s' => abs s' (S l) r = Some (qgrow l q)).
Proof.
  intros Hi Ha Hl. destruct l as [|l]; [lia|].
  pose proof Ha as Ha0.
  apply abs_S_inv in Ha as (n & se & sw & nw & ne & Hp & HL & -> & H1 & H2 & H3 & H4).
  unfold grow. apply post_deref with n; [exact Hp|].
  rewrite HL.
  destruct (Z.leb_spec 63 (Z.of_nat (S l))); [lia|].
  destruct (Z.ltb_spec (Z.of_nat (S l)) 1); [lia|].
  replace (wrapu (Z.of_nat (S l) - 1)) with (Z.of_nat l)
    by (rewrite wrapu_id; [lia|unfold uint; lia]).
  eapply post_bind; [apply (EmptyTree_post c s l Hi); lia|].
  intros e s1 Hi1 He1 Hae. cbn beta in Hae |- *. forward He1.
  eapply post_bind; [eapply (NewTree_abs c s1 _ l); [exact Hi1|lia|simpl; eauto..]|].
  intros rse s2 Hi2 He2 [Hse _]. cbn beta in Hse |- *. forward He2.
  eapply post_bind; [eapply (NewTree_abs c s2 _ l); [exact Hi2|lia|simpl; eauto..]|].
  intros rsw s3 Hi3 He3 [Hsw _]. cbn beta in Hsw |- *. forward He3.
  eapply post_bind; [eapply (NewTree_abs c s3 _ l); [exact Hi3|lia|simpl; eauto..]|].
  intros rnw s4 Hi4 He4 [Hnw _]. cbn beta in Hnw |- *. forward He4.
  eapply post_bind; [eapply (NewTree_abs c s4 _ l); [exact Hi4|lia|simpl; eauto..]|].
  intros rne s5 Hi5 He5 [Hne _]. cbn beta in Hne |- *. forward He5.
  eapply post_weaken.
  - eapply (NewTree_abs c s5 _ (S l)); [exact Hi5|lia|simpl; eauto..].
  - intros r s6 _ _ [Hr _]. unfold qgrow. simpl.
    replace (l - 0)%nat with l by lia. exact Hr.
Qed.

Lemma grow_panics (s : state) (t : ptr) (n : Quadtree) :
  heap s !! t = Some n -> Level n < 1 \/ 63 <= Level n ->
  exists e, grow t s = Panic e.
Proof.
  intros Hp H. unfold grow, bind, deref. rewrite Hp.
  destruct (Z.leb_spec 63 (Level n)); [eexists; reflexivity|].
  destruct (Z.ltb_spec (Level n) 1); [eexists; reflexivity|lia].
Qed.

(** ** [findLeaf], [Cell] and [SetCell] follow the descent on pictures *)

Lemma leaf_lookup c s (b : bool) : inv c s ->
  heap s !! leafPtr b = Some (if b then liveNode else deadNode).
Proof. intros Hi. destruct b; [apply (inv_live _ _ Hi)|apply (inv_dead _ _ Hi)]. Qed.

Lemma findLeaf_fuel_spec c s (l : nat) :
  inv c s ->
  forall (fuel : nat) p q x y, abs s l p = Some q -> (l < fuel)%nat ->
  match qfind l q x y with
  | Some b => findLeaf_fuel fuel p x y s = Ok (leafPtr b) s
  | None => exists e, findLeaf_fuel fuel p x y s = Panic e
  end.
Proof.
  intros Hi. induction l as [|l IH]; intros fuel p q x y Ha Hf;
    (destruct fuel as [|fuel]; [lia|]).
  - apply abs_0_inv in Ha as (b & -> & ->).
    cbn [findLeaf_fuel qfind].
    rewrite !(bind_deref s _ _ _ (leaf_lookup c s b Hi)).
    replace (Level (if b then liveNode else deadNode)) with 0 by (destruct b; reflexivity).
    cbn [Z.eqb]. destruct (leafCheck x y); [eexists|]; reflexivity.
  - apply abs_S_inv in Ha as (n & se & sw & nw & ne & Hp & HL & -> & H1 & H2 & H3 & H4).
    cbn [findLeaf_fuel qfind]. rewrite !(bind_deref s p n _ Hp). rewrite HL.
    destruct (Z.eqb_spec (Z.of_nat (S l)) 0) as [E|_]; [lia|]. cbn zeta.
    destruct (0 <=? x), (0 <=? y); apply IH; auto; lia.
Qed.

Lemma findLeaf_spec c s (l : nat) p q x y :
  inv c s -> abs s l p = Some q ->
  match qfind l q x y with
  | Some b => findLeaf p x y s = Ok (leafPtr b) s
  | None => exists e, findLeaf p x y s = Panic e
  end.
Proof.
  intros Hi Ha.
  destruct (abs_alloc c s l p q Hi Ha) as [n Hp].
  unfold findLeaf, bind, deref. rewrite Hp.
  rewrite (abs_Level c s l p q n Hi Ha Hp), Nat2Z.id.
  apply (findLeaf_fuel_spec c s l Hi); auto.
Qed.

Lemma Cell_spec c s (l : nat) p q x y :
  inv c s -> abs s l p = Some q ->
  match qfind l q x y with
  | Some b => Cell p x y s = Ok (Z.b2z b) s
  | None => exists e, Cell p x y s = Panic e
  end.
Proof.
  intros Hi Ha. pose proof (findLeaf_spec c s l p q x y Hi Ha) as H.
  unfold Cell, bind. destruct (qfind l q x y) as [b|].
  - rewrite H. unfold deref. rewrite (leaf_lookup c s b Hi). destruct b; reflexivity.
  - destruct H as [e ->]. eauto.
Qed.

Lemma SetCell_fuel_spec c (l : nat) :
  forall s (fuel : nat) p q x y v, inv c s -> abs s l p = Some q -> (l < fuel)%nat ->
  match qset l q x y (negb (v =? 0)) with
  | Some q' => post c s (SetCell_fuel fuel p x y v) (fun r s' => abs s' l r = Some q')
  | None => exists e, SetCell_fuel fuel p x y v s = Panic e
  end.
Proof.
  induction l as [|l IH]; intros s fuel p q x y v Hi Ha Hf;
    (destruct fuel as [|fuel]; [lia|]).
  - apply abs_0_inv in Ha as (b & -> & ->).
    cbn [SetCell_fuel qset].
    destruct (leafCheck x y) eqn:Hc.
    + rewrite (bind_deref s _ _ _ (leaf_lookup c s b Hi)).
      replace (Level (if b then liveNode else deadNode)) with 0 by (destruct b; reflexivity).
      cbn [Z.eqb]. eexists; reflexivity.
    + eapply post_deref; [apply (leaf_lookup c s b Hi)|].
      replace (Level (if b then liveNode else deadNode)) with 0 by (destruct b; reflexivity).
      cbn [Z.eqb].
      destruct (v =? 0); apply post_ret; auto.
  - pose proof (abs_uint c s (S l) p q Hi Ha) as Hu.
    apply abs_S_inv in Ha as (n & se & sw & nw & ne & Hp & HL & -> & H1 & H2 & H3 & H4).
    cbn [SetCell_fuel qset].
    set (d := distanceToOrigin (Z.of_nat (S l))).
    assert (Hstep : forall (k : ptr -> Childs) (child : ptr) (qc : quad) x' y'
                      (rebuild : quad -> quad),
      abs s l child = Some qc ->
      (forall s1 r qr, inv c s1 -> ext s s1 -> abs s1 l r = Some qr ->
         post c s1 (NewTree (k r)) (fun r' s' => abs s' (S l) r' = Some (rebuild qr))) ->
      match match qset l qc x' y' (negb (v =? 0)) with
            | Some r => Some (rebuild r) | None => None end with
      | Some q' => post c s (let! r := SetCell_fuel fuel child x' y' v in NewTree (k r))
                     (fun r s' => abs s' (S l) r = Some q')
      | None => exists e, (let! r := SetCell_fuel fuel child x' y' v in NewTree (k r)) s = Panic e
      end).
    { intros k child qc x' y' rebuild Hc Hk.
      pose proof (IH s fuel child qc x' y' v Hi Hc ltac:(lia)) as Hrec.
      destruct (qset l qc x' y' (negb (v =? 0))) as [qr|].
      - eapply post_bind; [exact Hrec|].
        intros r s1 Hi1 He1 Hr. apply Hk; auto.
      - destruct Hrec as [e He]. exists e. unfold bind. rewrite He. reflexivity. }
    assert (Hnew : forall s1 k a b e f, inv c s1 -> ext s s1 ->
      abs s1 l (SE k) = Some a -> abs s1 l (SW k) = Some b ->
      abs s1 l (NW k) = Some e -> abs s1 l (NE k) = Some f ->
      post c s1 (NewTree k) (fun r' s' => abs s' (S l) r' = Some (QNode a b e f))).
    { intros s1 k a b e f Hi1 He1 A B E F.
      eapply post_weaken; [eapply (NewTree_abs c s1 k l); eauto; lia|].
      intros r s2 _ _ [Hr _]. exact Hr. }
    unfold post. rewrite !(bind_deref s p n _ Hp). rewrite HL. fold d.
    destruct (Z.eqb_spec (Z.of_nat (S l)) 0) as [E|_]; [lia|]. cbn zeta.
    destruct (0 <=? x), (0 <=? y).
    + apply (Hstep (fun r => mkChilds r _ _ _) _ se _ _ (fun r => QNode r sw nw ne) H1).
      intros s1 r qr Hi1 He1 Hr. forward He1. apply Hnew; auto.
    + apply (Hstep (fun r => mkChilds _ _ _ r) _ ne _ _ (fun r => QNode se sw nw r) H4).
      intros s1 r qr Hi1 He1 Hr. forward He1. apply Hnew; auto.
    + apply (Hstep (fun r => mkChilds _ r _ _) _ sw _ _ (fun r => QNode se r nw ne) H2).
      intros s1 r qr Hi1 He1 Hr. forward He1. apply Hnew; auto.
    + apply (Hstep (fun r => mkChilds _ _ r _) _ nw _ _ (fun r => QNode se sw r ne) H3).
      intros s1 r qr Hi1 He1 Hr. forward He1. apply Hnew; auto.
Qed.

(** ** Coordinates of the descent *)

Lemma distanceToOrigin_1 : distanceToOrigin 1 = 0.
Proof. reflexivity. Qed.

Lemma distanceToOrigin_small (l : nat) : (2 <= l <= 64)%nat ->
  distanceToOrigin (Z.of_nat l) = 2 ^ (Z.of_nat l - 2).
Proof.
  intros Hl. unfold distanceToOrigin, shl64.
  rewrite wrapu_id by (unfold uint; lia).
  destruct (Z.leb_spec 64 (Z.of_nat l - 2)); [lia|].
  rewrite Z.mul_1_l. apply wrap64_id. unfold int64.
  assert (0 < 2 ^ (Z.of_nat l - 2)) by (apply Z.pow_pos_nonneg; lia).
  assert (2 ^ (Z.of_nat l - 2) <= 2 ^ 62) by (apply Z.pow_le_mono_r; lia).
  lia.
Qed.

Lemma distanceToOrigin_65 : distanceToOrigin 65 = - 2 ^ 63.
Proof. reflexivity. Qed.

Lemma distanceToOrigin_big (l : nat) : (66 <= l)%nat -> Z.of_nat l < 2 ^ 64 ->
  distanceToOrigin (Z.of_nat l) = 0.
Proof.
  intros Hl Hu. unfold distanceToOrigin, shl64.
  rewrite wrapu_id by (unfold uint; lia).
  destruct (Z.leb_spec 64 (Z.of_nat l - 2)); [reflexivity|lia].
Qed.

Lemma wrap64_add_inj (a b k : Z) :
  int64 a -> int64 b -> wrap64 (a + k) = wrap64 (b + k) -> a = b.
Proof.
  unfold int64, wrap64. intros Ha Hb H.
  pose proof (Z.div_mod (a + k + 2 ^ 63) (2 ^ 64) ltac:(lia)) as Da.
  pose proof (Z.div_mod (b + k + 2 ^ 63) (2 ^ 64) ltac:(lia)) as Db.
  assert (E : (a + k + 2 ^ 63) mod 2 ^ 64 = (b + k + 2 ^ 63) mod 2 ^ 64) by lia.
  rewrite E in Da.
  change (2 ^ 64) with 18446744073709551616 in *.
  change (2 ^ 63) with 9223372036854775808 in *.
  lia.
Qed.

Lemma childCoord_inj (l : nat) (x x' : Z) :
  int64 x -> int64 x' -> (0 <=? x) = (0 <=? x') ->
  childCoord l x = childCoord l x' -> x = x'.
Proof.
  intros Hx Hx' Hs. unfold childCoord. rewrite <- Hs.
  destruct (0 <=? x).
  - unfold Z.sub. apply wrap64_add_inj; auto.
  - apply wrap64_add_inj; auto.
Qed.

Lemma inbox_int64 (l : nat) (x : Z) : inbox l x -> int64 x.
Proof.
  destruct l; simpl.
  - intros ->. unfold int64. lia.
  - tauto.
Qed.

Lemma dbox_int64 (l : nat) (x : Z) : dbox l x -> int64 x.
Proof.
  destruct l; simpl.
  - unfold int64. lia.
  - tauto.
Qed.

(** On levels up to 64 the child coordinate is the plain translation. *)
Lemma childCoord_small (l : nat) (x : Z) : (l <= 63)%nat -> inbox (S l) x ->
  childCoord (S l) x =
    match l with
    | O => x
    | S l' => if 0 <=? x then x - 2 ^ Z.of_nat l' else x + 2 ^ Z.of_nat l'
    end.
Proof.
  intros Hl [Hi Hb]. unfold childCoord. destruct l as [|l'].
  - change (Z.of_nat 1) with 1. rewrite distanceToOrigin_1.
    rewrite Z.sub_0_r, Z.add_0_r, wrap64_id by exact Hi. destruct (0 <=? x); reflexivity.
  - rewrite distanceToOrigin_small by lia.
    replace (Z.of_nat (S (S l')) - 2) with (Z.of_nat l') by lia.
    rewrite pow2_S in Hb.
    pose proof (pow2_pos l').
    assert (2 ^ Z.of_nat l' <= 2 ^ 62) by (apply Z.pow_le_mono_r; lia).
    destruct (Z.leb_spec 0 x); apply wrap64_id; unfold int64; lia.
Qed.

Lemma childCoord_dbox (l : nat) (x : Z) : Z.of_nat (S l) < 2 ^ 64 ->
  inbox (S l) x -> dbox l (childCoord (S l) x).
Proof.
  intros Hu Hx.
  destruct (le_lt_dec l 63) as [Hs|Hb].
  - rewrite childCoord_small by auto.
    destruct Hx as [Hi Hb]. destruct l as [|l']; simpl.
    + simpl in Hb. change (2 ^ Z.of_nat 0) with 1 in Hb. lia.
    + rewrite pow2_S in Hb. pose proof (pow2_pos l').
      assert (2 ^ Z.of_nat l' <= 2 ^ 62) by (apply Z.pow_le_mono_r; lia).
      unfold int64. destruct l' as [|l'']; simpl.
      * change (2 ^ Z.of_nat 0) with 1 in *. destruct (Z.leb_spec 0 x); lia.
      * rewrite pow2_S in *. destruct (Z.leb_spec 0 x); lia.
  - destruct l as [|l']; [lia|]. simpl. unfold childCoord.
    assert (Hw : forall z, int64 (wrap64 z) /\ - 2 ^ Z.of_nat l' <= wrap64 z <= 2 ^ Z.of_nat l' - 1).
    { intros z. pose proof (wrap64_int64 z) as Hz. split; [exact Hz|].
      assert (2 ^ 63 <= 2 ^ Z.of_nat l') by (apply Z.pow_le_mono_r; lia).
      unfold int64 in Hz. lia. }
    destruct (0 <=? x); apply Hw.
Qed.

(** ** Reading and writing cells on pictures *)

Lemma abs_wf (s : state) (l : nat) : forall p q, abs s l p = Some q -> qwf l q.
Proof.
  induction l as [|l IH]; intros p q H.
  - apply abs_0_inv in H as (b & -> & _). exact I.
  - apply abs_S_inv in H as (n & se & sw & nw & ne & _ & _ & -> & H1 & H2 & H3 & H4).
    simpl. repeat split; eapply IH; eauto.
Qed.

Lemma leafCheck_dbox (x y : Z) : dbox 0 x -> dbox 0 y -> leafCheck x y = false.
Proof.
  simpl. intros Hx Hy. unfold leafCheck.
  destruct (Z.ltb_spec x (-1)), (Z.ltb_spec 0 x), (Z.ltb_spec y (-1)), (Z.ltb_spec 0 y);
    simpl; auto; lia.
Qed.

Lemma qfind_step (l : nat) (se sw nw ne : quad) (x y : Z) :
  qfind (S l) (QNode se sw nw ne) x y =
    qfind l (if 0 <=? x then if 0 <=? y then se else ne
             else if 0 <=? y then sw else nw)
      (childCoord (S l) x) (childCoord (S l) y).
Proof.
  cbn [qfind]. unfold childCoord. destruct (0 <=? x), (0 <=? y); reflexivity.
Qed.

Lemma qset_step (l : nat) (se sw nw ne : quad) (x y : Z) (b : bool) :
  qset (S l) (QNode se sw nw ne) x y b =
    let x' := childCoord (S l) x in
    let y' := childCoord (S l) y in
    if 0 <=? x then
      if 0 <=? y then option_map (fun r => QNode r sw nw ne) (qset l se x' y' b)
      else option_map (fun r => QNode se sw nw r) (qset l ne x' y' b)
    else
      if 0 <=? y then option_map (fun r => QNode se r nw ne) (qset l sw x' y' b)
      else option_map (fun r => QNode se sw r ne) (qset l nw x' y' b).
Proof.
  cbn [qset]. unfold childCoord. destruct (0 <=? x), (0 <=? y); reflexivity.
Qed.

Lemma qfind_total (l : nat) : Z.of_nat l < 2 ^ 64 ->
  forall q x y, qwf l q -> dbox l x -> dbox l y -> exists b, qfind l q x y = Some b.
Proof.
  induction l as [|l IH]; intros Hu q x y Hq Hx Hy.
  - destruct q; [|contradiction]. simpl. rewrite leafCheck_dbox by auto. eauto.
  - destruct q as [|se sw nw ne]; [contradiction|].
    destruct Hq as (Q1 & Q2 & Q3 & Q4).
    rewrite qfind_step.
    apply IH; [lia| |apply childCoord_dbox; auto..].
    destruct (0 <=? x), (0 <=? y); auto.
Qed.

Lemma qset_get (l : nat) (b : bool) : Z.of_nat l < 2 ^ 64 ->
  forall q x y, qwf l q -> dbox l x -> dbox l y ->
  exists q', qset l q x y b = Some q' /\ qwf l q' /\ qfind l q' x y = Some b.
Proof.
  induction l as [|l IH]; intros Hu q x y Hq Hx Hy.
  - destruct q; [|contradiction]. simpl. rewrite leafCheck_dbox by auto.
    eexists. split; [reflexivity|]. split; [exact I|]. simpl.
    rewrite ?leafCheck_dbox by auto. reflexivity.
  - destruct q as [|se sw nw ne]; [contradiction|].
    destruct Hq as (Q1 & Q2 & Q3 & Q4).
    rewrite qset_step. cbn zeta.
    pose proof (childCoord_dbox l x Hu Hx) as Hx'.
    pose proof (childCoord_dbox l y Hu Hy) as Hy'.
    assert (Hu' : Z.of_nat l < 2 ^ 64) by lia.
    destruct (0 <=? x) eqn:Ex, (0 <=? y) eqn:Ey.
    + destruct (IH Hu' se _ _ Q1 Hx' Hy') as (r & -> & Hr & Hg).
      eexists. split; [reflexivity|]. split; [simpl; auto|].
      rewrite qfind_step, Ex, Ey. exact Hg.
    + destruct (IH Hu' ne _ _ Q4 Hx' Hy') as (r & -> & Hr & Hg).
      eexists. split; [reflexivity|]. split; [simpl; auto|].
      rewrite qfind_step, Ex, Ey. exact Hg.
    + destruct (IH Hu' sw _ _ Q2 Hx' Hy') as (r & -> & Hr & Hg).
      eexists. split; [reflexivity|]. split; [simpl; auto|].
      rewrite qfind_step, Ex, Ey. exact Hg.
    + destruct (IH Hu' nw _ _ Q3 Hx' Hy') as (r & -> & Hr & Hg).
      eexists. split; [reflexivity|]. split; [simpl; auto|].
      rewrite qfind_step, Ex, Ey. exact Hg.
Qed.

(** At level 1 the quadrant determines the coordinate. *)
Lemma sign_level1 (x x' : Z) : inbox 1 x -> inbox 1 x' -> (0 <=? x) = (0 <=? x') -> x = x'.
Proof.
  simpl. change (2 ^ Z.of_nat 0) with 1. intros [_ H] [_ H'].
  destruct (Z.leb_spec 0 x), (Z.leb_spec 0 x'); intros E; try discriminate; lia.
Qed.

Lemma qset_frame (l : nat) (b : bool) : Z.of_nat (S l) < 2 ^ 64 ->
  forall q q' x y x' y', qwf (S l) q ->
  inbox (S l) x -> inbox (S l) y -> inbox (S l) x' -> inbox (S l) y' ->
  (x, y) <> (x', y') ->
  qset (S l) q x y b = Some q' -> qfind (S l) q' x' y' = qfind (S l) q x' y'.
Proof.
  induction l as [|l IH]; intros Hu q q' x y x' y' Hq Hx Hy Hx' Hy' Hne Hs;
    (destruct q as [|se sw nw ne]; [contradiction|]);
    destruct Hq as (Q1 & Q2 & Q3 & Q4);
    rewrite qset_step in Hs; cbn zeta in Hs.
  - (* children are leaves *)
    destruct (0 <=? x) eqn:Ex, (0 <=? y) eqn:Ey;
      match type of Hs with
      | option_map _ ?o = _ => destruct o as [r|] eqn:Er; [|discriminate]
      end; injection Hs as <-; rewrite !qfind_step;
      destruct (0 <=? x') eqn:Ex', (0 <=? y') eqn:Ey'; try reflexivity;
      exfalso; apply Hne; f_equal; apply sign_level1; auto; congruence.
  - assert (Hu' : Z.of_nat (S l) < 2 ^ 64) by lia.
    assert (Hrec : forall qc r, qwf (S l) qc ->
              (0 <=? x) = (0 <=? x') -> (0 <=? y) = (0 <=? y') ->
              qset (S l) qc (childCoord (S (S l)) x) (childCoord (S (S l)) y) b = Some r ->
              qfind (S l) r (childCoord (S (S l)) x') (childCoord (S (S l)) y')
              = qfind (S l) qc (childCoord (S (S l)) x') (childCoord (S (S l)) y')).
    { intros qc r Hqc Sx Sy Hr.
      apply (IH Hu' qc r (childCoord (S (S l)) x) (childCoord (S (S l)) y)); auto;
        try (apply (childCoord_dbox (S l)); auto).
      intros [= E1 E2]. apply Hne.
      f_equal; eapply childCoord_inj; eauto using inbox_int64. }
    destruct (0 <=? x) eqn:Ex, (0 <=? y) eqn:Ey;
      match type of Hs with
      | option_map _ ?o = _ => destruct o as [r|] eqn:Er; [|discriminate]
      end; injection Hs as <-; rewrite !qfind_step;
      destruct (0 <=? x') eqn:Ex', (0 <=? y') eqn:Ey'; try reflexivity;
      apply Hrec; auto.
Qed.

Lemma SetCell_spec c s (l : nat) p q x y v :
  inv c s -> abs s l p = Some q ->
  match qset l q x y (negb (v =? 0)) with
  | Some q' => post c s (SetCell p x y v) (fun r s' => abs s' l r = Some q')
  | None => exists e, SetCell p x y v s = Panic e
  end.
Proof.
  intros Hi Ha.
  destruct (abs_alloc c s l p q Hi Ha) as [n Hp].
  pose proof (SetCell_fuel_spec c l s (S l) p q x y v Hi Ha ltac:(lia)) as H.
  unfold SetCell, post. rewrite !(bind_deref s p n _ Hp).
  rewrite (abs_Level c s l p q n Hi Ha Hp), Nat2Z.id. exact H.
Qed.

(** ** Centering helpers *)

Ltac inv_abs H n :=
  let se := fresh "q" in let sw := fresh "q" in
  let nw := fresh "q" in let ne := fresh "q" in
  let Hp := fresh "Hp" n in let HL := fresh "HL" n in
  let H1 := fresh "Hse" n in let H2 := fresh "Hsw" n in
  let H3 := fresh "Hnw" n in let H4 := fresh "Hne" n in
  apply abs_S_inv in H as (n & se & sw & nw & ne & Hp & HL & -> & H1 & H2 & H3 & H4).

Ltac derefs := repeat (eapply post_deref; [eassumption|]); cbn zeta.

Ltac newtree l :=
  eapply post_weaken;
  [ eapply (NewTree_abs _ _ _ l); [eassumption|lia|simpl; eassumption..]
  | intros ? ? _ _ [? _]; simpl; assumption ].

Lemma centeredSubnode_post c s l p q :
  inv c s -> abs s (S (S l)) p = Some q ->
  post c s (centeredSubnode p) (fun r s' => abs s' (S l) r = Some (qcentered q)).
Proof.
  intros Hi Ha. pose proof (abs_uint c s _ _ _ Hi Ha) as Hu.
  inv_abs Ha n. inv_abs Hsen a. inv_abs Hswn b. inv_abs Hnwn d. inv_abs Hnen e.
  unfold centeredSubnode. derefs. newtree l.
Qed.

Lemma centeredSubnode_childs c s l p q n nse nsw nnw nne :
  inv c s -> abs s (S (S l)) p = Some q ->
  heap s !! p = Some n ->
  heap s !! SE (childs n) = Some nse -> heap s !! SW (childs n) = Some nsw ->
  heap s !! NW (childs n) = Some nnw -> heap s !! NE (childs n) = Some nne ->
  post c s (centeredSubnode p) (fun r s' =>
    exists nr, heap s' !! r = Some nr /\
      childs nr = mkChilds (NW (childs nse)) (NE (childs nsw))
                           (SE (childs nnw)) (SW (childs nne))).
Proof.
  intros Hi Ha Hp H1 H2 H3 H4. pose proof (abs_uint c s _ _ _ Hi Ha) as Hu.
  inv_abs Ha n'. assert (n' = n) as -> by congruence.
  inv_abs Hsen' a. inv_abs Hswn' b. inv_abs Hnwn' d. inv_abs Hnen' e.
  assert (a = nse) as -> by congruence. assert (b = nsw) as -> by congruence.
  assert (d = nnw) as -> by congruence. assert (e = nne) as -> by congruence.
  unfold centeredSubnode. derefs.
  eapply post_weaken;
    [eapply (NewTree_abs _ _ _ l); [eassumption|lia|simpl; eassumption..]|].
  intros r s' _ _ [_ Hr]. exact Hr.
Qed.

Lemma centeredHorizontal_post c s l w e qw qe :
  inv c s -> abs s (S (S l)) w = Some qw -> abs s (S (S l)) e = Some qe ->
  post c s (centeredHorizontal w e) (fun r s' => abs s' (S l) r = Some (qcenteredH qw qe)).
Proof.
  intros Hi Hw He. pose proof (abs_uint c s _ _ _ Hi Hw) as Hu.
  inv_abs Hw nw. inv_abs He ne.
  inv_abs Hsenw a. inv_abs Hnenw b. inv_abs Hswne d. inv_abs Hnwne f.
  unfold centeredHorizontal. derefs. newtree l.
Qed.

Lemma centeredVertical_post c s l n s0 qn qs :
  inv c s -> abs s (S (S l)) n = Some qn -> abs s (S (S l)) s0 = Some qs ->
  post c s (centeredVertical n s0) (fun r s' => abs s' (S l) r = Some (qcenteredV qn qs)).
Proof.
  intros Hi Hn Hs. pose proof (abs_uint c s _ _ _ Hi Hn) as Hu.
  inv_abs Hn nn. inv_abs Hs ns.
  inv_abs Hswnn a. inv_abs Hsenn b. inv_abs Hnens d. inv_abs Hnwns f.
  unfold centeredVertical. derefs. newtree l.
Qed.

Lemma centeredSubSubnode_post c s l p q :
  inv c s -> abs s (S (S (S l))) p = Some q ->
  post c s (centeredSubSubnode p) (fun r s' => abs s' (S l) r = Some (qcenteredSS q)).
Proof.
  intros Hi Ha. pose proof (abs_uint c s _ _ _ Hi Ha) as Hu.
  inv_abs Ha n. inv_abs Hsen a. inv_abs Hswn b. inv_abs Hnwn d. inv_abs Hnen e.
  inv_abs Hnwa a'. inv_abs Hneb b'. inv_abs Hsed d'. inv_abs Hswe e'.
  unfold centeredSubSubnode. derefs. newtree l.
Qed.

(** ** The base case *)

Lemma oneGen_window (b : Z) : 0 <= b < 2 ^ 16 ->
  oneGen b = Some (leafPtr (lifeRule (Z.testbit b 5) (windowCount b))).
Proof.
  intros Hb.
  pose proof (all_below_spec 16 oneGen_agrees 0 oneGen_agrees_all b Hb) as H.
  unfold oneGen_agrees in H.
  destruct (oneGen b) as [p|]; [|discriminate].
  apply N.eqb_eq in H. now subst.
Qed.

Lemma oneGen_total (b : Z) : 0 <= b < 2 ^ 16 -> oneGen b = Some (leafPtr (oneGenb b)).
Proof.
  intros Hb. unfold oneGenb. rewrite (oneGen_window b Hb).
  destruct (lifeRule _ _); reflexivity.
Qed.

Lemma oneGenb_window (b : Z) : 0 <= b < 2 ^ 16 ->
  oneGenb b = lifeRule (Z.testbit b 5) (windowCount b).
Proof.
  intros Hb. unfold oneGenb. rewrite (oneGen_window b Hb).
  destruct (lifeRule _ _); reflexivity.
Qed.

Lemma Cell_inbox c s (l : nat) p q x y :
  inv c s -> abs s l p = Some q -> dbox l x -> dbox l y ->
  Cell p x y s = Ok (Z.b2z (cellb l q x y)) s.
Proof.
  intros Hi Ha Hx Hy.
  pose proof (Cell_spec c s l p q x y Hi Ha) as H.
  destruct (qfind_total l (abs_uint c s l p q Hi Ha) q x y (abs_wf s l p q Ha) Hx Hy)
    as [b Hb].
  unfold cellb. rewrite Hb in H |- *. exact H.
Qed.

Lemma packRow_spec c s p q y (xs : list Z) :
  inv c s -> abs s 2 p = Some q -> inbox 2 y -> Forall (inbox 2) xs ->
  forall a, packRow p y xs a s =
    Ok (fold_left (fun a x => wrap16 (wrap16 (a * 2) + wrap16 (Z.b2z (cellb 2 q x y)))) xs a) s.
Proof.
  intros Hi Ha Hy Hxs. induction Hxs as [|x xs Hx _ IH]; intros a; [reflexivity|].
  cbn [packRow fold_left]. unfold bind.
  rewrite (Cell_inbox c s 2 p q x y Hi Ha Hx Hy). apply IH.
Qed.

Lemma scan_inbox : Forall (inbox 2) scan.
Proof.
  unfold scan. repeat constructor; unfold int64; change (2 ^ Z.of_nat 1) with 2; lia.
Qed.

Lemma packRows_spec c s p q (ys : list Z) :
  inv c s -> abs s 2 p = Some q -> Forall (inbox 2) ys ->
  forall a, packRows p ys a s =
    Ok (fold_left (fun a y =>
          fold_left (fun a x => wrap16 (wrap16 (a * 2) + wrap16 (Z.b2z (cellb 2 q x y))))
            scan a) ys a) s.
Proof.
  intros Hi Ha Hys. induction Hys as [|y ys Hy _ IH]; intros a; [reflexivity|].
  cbn [packRows fold_left]. unfold bind.
  rewrite (packRow_spec c s p q y scan Hi Ha Hy scan_inbox). apply IH.
Qed.

Lemma qbits_range (q : quad) : 0 <= qbits q < 2 ^ 16.
Proof.
  unfold qbits. cbn [scan fold_left].
  unfold wrap16 at 1. apply Z.mod_pos_bound. lia.
Qed.

Lemma shiftr_range (b k : Z) : 0 <= k -> 0 <= b < 2 ^ 16 -> 0 <= Z.shiftr b k < 2 ^ 16.
Proof.
  intros Hk Hb. rewrite Z.shiftr_div_pow2 by lia.
  assert (0 < 2 ^ k) by (apply Z.pow_pos_nonneg; lia).
  split; [apply Z.div_pos; lia|].
  apply Z.le_lt_trans with b; [|lia].
  apply Z.div_le_upper_bound; [lia|]. nia.
Qed.

Lemma slowSimulation_post c s p q :
  inv c s -> abs s 2 p = Some q ->
  post c s (slowSimulation p) (fun r s' => abs s' 1 r = Some (qslow q)).
Proof.
  intros Hi Ha.
  destruct (abs_alloc c s 2 p q Hi Ha) as [n Hp].
  pose proof (abs_Level c s 2 p q n Hi Ha Hp) as HL.
  unfold slowSimulation. eapply post_deref; [exact Hp|].
  rewrite HL. cbn [Z.eqb Z.of_nat Pos.of_succ_nat Pos.succ Pos.eqb negb].
  change (Z.of_nat 2 =? 2) with true. cbn [negb].
  assert (Hpack : packRows p scan 0 s = Ok (qbits q) s)
    by exact (packRows_spec c s p q scan Hi Ha scan_inbox 0).
  eapply post_bind_eq; [exact Hpack|].
  pose proof (qbits_range q) as Hr.
  eapply post_lift; [apply oneGen_total; exact Hr|].
  eapply post_lift; [apply oneGen_total; apply shiftr_range; [lia|exact Hr]|].
  eapply post_lift; [apply oneGen_total; apply shiftr_range; [lia|exact Hr]|].
  eapply post_lift; [apply oneGen_total; apply shiftr_range; [lia|exact Hr]|].
  eapply post_weaken.
  - eapply (NewTree_abs c s _ 0%nat); [exact Hi|reflexivity|cbn [SE SW NW NE]; apply abs_leaf..].
  - intros r s' _ _ [H _]. exact H.
Qed.

(** ** The memo field *)

Lemma setNext_post c s (l : nat) p q r :
  inv c s -> abs s l p = Some q -> (3 <= l)%nat ->
  abs s (l - 1) r = Some (qnext l q) ->
  post c s (setNext p r) (fun _ _ => True).
Proof.
  intros Hi Ha Hl Hr.
  destruct (abs_alloc c s l p q Hi Ha) as [n Hp].
  assert (Hnl : ~ isLeafPtr p).
  { destruct l as [|l']; [lia|]. apply (abs_S_nonleaf c s l' p q Hi Ha). }
  set (n' := mkQuadtree (Level n) (childs n) (Population n) r).
  set (s' := mkState (<[p := n']> (heap s)) (nodeMap s) (cacheHit s) (cacheMiss s)).
  assert (Hrun : setNext p r s = Ok tt s') by (unfold setNext; rewrite Hp; reflexivity).
  assert (Hext : ext s s').
  { intros x m Hx. simpl. destruct (decide (x = p)) as [->|Hxp].
    - rewrite lookup_insert_eq. exists n'. assert (m = n) by congruence. subst. auto.
    - rewrite lookup_insert_ne by congruence. exists m. auto. }
  assert (Hback : forall x m, heap s' !! x = Some m ->
            exists m0, heap s !! x = Some m0 /\ Level m = Level m0 /\
              childs m = childs m0 /\ Population m = Population m0 /\
              (x <> p -> m = m0) /\ (x = p -> next m = r /\ m0 = n)).
  { intros x m Hx. simpl in Hx. destruct (decide (x = p)) as [->|Hxp].
    - rewrite lookup_insert_eq in Hx. injection Hx as <-. exists n. repeat split; auto; congruence.
    - rewrite lookup_insert_ne in Hx by congruence. exists m. repeat split; auto; congruence. }
  exists tt, s'. split; [exact Hrun|]. split; [|split; [exact Hext|exact I]].
  constructor.
  - simpl. rewrite lookup_insert_ne; [apply (inv_live _ _ Hi)|].
    intros E. apply Hnl. left. auto.
  - simpl. rewrite lookup_insert_ne; [apply (inv_dead _ _ Hi)|].
    intros E. apply Hnl. right. auto.
  - simpl. rewrite lookup_insert_ne; [apply (inv_nil _ _ Hi)|].
    intros E. rewrite E, (inv_nil _ _ Hi) in Hp. discriminate.
  - intros x m Hx Hxl.
    destruct (Hback x m Hx) as (m0 & Hm0 & HL & HC & _).
    destruct (inv_node _ _ Hi x m0 Hm0 Hxl) as ((nne & Hne & HLn) & H1 & H2 & H3).
    rewrite HC, HL. split.
    + destruct (Hext _ _ Hne) as (nne' & Hne' & HL' & _).
      exists nne'. split; [exact Hne'|congruence].
    + repeat split; eapply ext_alloc; eauto.
  - intros k x Hk. simpl in Hk.
    destruct (inv_cache _ _ Hi k x Hk) as (Hxl & m & Hm & Hc).
    split; [exact Hxl|].
    destruct (Hext _ _ Hm) as (m' & Hm' & _ & Hc' & _). exists m'. split; [exact Hm'|congruence].
  - intros x m l' q' Hx Hnx Hax.
    destruct (Hback x m Hx) as (m0 & Hm0 & _ & _ & _ & Hne & Heq).
    rewrite (abs_stable c s s' Hi Hext) in Hax by eauto.
    destruct (decide (x = p)) as [->|Hxp].
    + destruct (Heq eq_refl) as [Hnext _].
      assert (l' = l) as -> by (eapply (abs_level c s); eauto).
      assert (q' = q) as -> by congruence.
      split; [exact Hl|]. rewrite Hnext. apply (abs_mono s s' Hext), Hr.
    + rewrite (Hne Hxp) in Hnx |- *.
      destruct (inv_memo _ _ Hi x m0 l' q' Hm0 Hnx Hax) as [H3 Hm].
      split; [exact H3|]. apply (abs_mono s s' Hext), Hm.
  - intros -> x m Hx Hxl Hcond. simpl.
    destruct (Hback x m Hx) as (m0 & Hm0 & HL & HC & HP & _).
    rewrite HC. apply (inv_canon _ _ Hi eq_refl x m0 Hm0 Hxl). rewrite <- HL, <- HP. exact Hcond.
Qed.

(** ** [NextGeneration] *)

Ltac newtree_in Hi l :=
  eapply (NewTree_abs _ _ _ l); [exact Hi|lia|cbn [SE SW NW NE]; eassumption..].

Lemma NextGeneration_fuel_post c (l : nat) :
  forall s (fuel : nat) p q, inv c s -> abs s (S (S l)) p = Some q -> (l < fuel)%nat ->
  post c s (NextGeneration_fuel fuel p) (fun r s' =>
    abs s' (S l) r = Some (qnext (S (S l)) q)).
Proof.
  induction l as [|l IH]; intros s fuel p q Hi Ha Hf;
    (destruct fuel as [|fuel]; [lia|]);
    destruct (abs_alloc c s _ p q Hi Ha) as [n Hp];
    pose proof (abs_Level c s _ p q n Hi Ha Hp) as HL;
    cbn [NextGeneration_fuel]; (eapply post_deref; [exact Hp|]);
    (destruct (N.eqb_spec (next n) nil) as [Hnil|Hnn]; cbn [negb];
     [|destruct (inv_memo _ _ Hi p n _ q Hp Hnn Ha) as [H3 Hm]]).
  - rewrite HL. change (Z.of_nat 2 =? 2) with true. cbn iota.
    apply slowSimulation_post; auto.
  - lia.
  - rewrite HL.
    destruct (Z.eqb_spec (Z.of_nat (S (S (S l)))) 2) as [E|_]; [lia|]. cbn zeta.
    pose proof (abs_uint c s _ _ _ Hi Ha) as Hu.
    pose proof Ha as Ha0.
    inv_abs Ha n'. assert (n' = n) as -> by congruence.
    eapply post_bind; [eapply centeredSubnode_post; eassumption|].
    intros n00 s1 Hi1 He1 H00. cbn beta in H00 |- *. forward He1.
    eapply post_bind; [eapply centeredHorizontal_post; eassumption|].
    intros n01 s2 Hi2 He2 H01. cbn beta in H01 |- *. forward He2.
    eapply post_bind; [eapply centeredSubnode_post; eassumption|].
    intros n02 s3 Hi3 He3 H02. cbn beta in H02 |- *. forward He3.
    eapply post_bind; [eapply centeredVertical_post; eassumption|].
    intros n10 s4 Hi4 He4 H10. cbn beta in H10 |- *. forward He4.
    eapply post_bind; [eapply centeredSubSubnode_post; eassumption|].
    intros n11 s5 Hi5 He5 H11. cbn beta in H11 |- *. forward He5.
    eapply post_bind; [eapply centeredVertical_post; eassumption|].
    intros n12 s6 Hi6 He6 H12. cbn beta in H12 |- *. forward He6.
    eapply post_bind; [eapply centeredSubnode_post; eassumption|].
    intros n20 s7 Hi7 He7 H20. cbn beta in H20 |- *. forward He7.
    eapply post_bind; [eapply centeredHorizontal_post; eassumption|].
    intros n21 s8 Hi8 He8 H21. cbn beta in H21 |- *. forward He8.
    eapply post_bind; [eapply centeredSubnode_post; eassumption|].
    intros n22 s9 Hi9 He9 H22. cbn beta in H22 |- *. forward He9.
    eapply post_bind; [newtree_in Hi9 (S l)|].
    intros bnw s10 Hi10 He10 [Hbnw _]. cbn beta in Hbnw |- *. forward He10.
    eapply post_bind; [eapply (IH s10 fuel); [eassumption|eassumption|lia]|].
    intros rnw s11 Hi11 He11 Hrnw. cbn beta in Hrnw |- *. forward He11.
    eapply post_bind; [newtree_in Hi11 (S l)|].
    intros bne s12 Hi12 He12 [Hbne _]. cbn beta in Hbne |- *. forward He12.
    eapply post_bind; [eapply (IH s12 fuel); [eassumption|eassumption|lia]|].
    intros rne s13 Hi13 He13 Hrne. cbn beta in Hrne |- *. forward He13.
    eapply post_bind; [newtree_in Hi13 (S l)|].
    intros bsw s14 Hi14 He14 [Hbsw _]. cbn beta in Hbsw |- *. forward He14.
    eapply post_bind; [eapply (IH s14 fuel); [eassumption|eassumption|lia]|].
    intros rsw s15 Hi15 He15 Hrsw. cbn beta in Hrsw |- *. forward He15.
    eapply post_bind; [newtree_in Hi15 (S l)|].
    intros bse s16 Hi16 He16 [Hbse _]. cbn beta in Hbse |- *. forward He16.
    eapply post_bind; [eapply (IH s16 fuel); [eassumption|eassumption|lia]|].
    intros rse s17 Hi17 He17 Hrse. cbn beta in Hrse |- *. forward He17.
    eapply post_bind; [newtree_in Hi17 (S l)|].
    intros r s18 Hi18 He18 [Hres _]. cbn beta in Hres |- *. forward He18.
    eapply post_bind.
    + eapply (setNext_post c s18 (S (S (S l))) p); [eassumption|exact Ha0|lia|].
      replace (S (S (S l)) - 1)%nat with (S (S l)) by lia. exact Hres.
    + intros _ s19 Hi19 He19 _. cbn beta. forward He19.
      apply post_ret; [exact Hi19|]. exact Hres.
  - replace (S (S (S l)) - 1)%nat with (S (S l)) in Hm by lia.
    apply post_ret; auto.
Qed.

Lemma NextGeneration_post c s (l : nat) p q :
  inv c s -> abs s (S (S l)) p = Some q ->
  post c s (NextGeneration p) (fun r s' => abs s' (S l) r = Some (qnext (S (S l)) q)).
Proof.
  intros Hi Ha. destruct (abs_alloc c s _ p q Hi Ha) as [n Hp].
  unfold NextGeneration. eapply post_deref; [exact Hp|].
  rewrite (abs_Level c s _ p q n Hi Ha Hp), Nat2Z.id.
  apply NextGeneration_fuel_post; auto; lia.
Qed.

(** ** [NextGen] *)

Lemma inv_false c s : inv c s -> inv false s.
Proof.
  intros [H1 H2 H3 H4 H5 H6 H7]. constructor; auto. discriminate.
Qed.

Lemma inv_discard s h m : inv false s -> inv false (mkState (heap s) ∅ h m).
Proof.
  intros [H1 H2 H3 H4 H5 H6 H7]. constructor; simpl; auto.
  - intros k p Hk. rewrite lookup_empty in Hk. discriminate.
  - intros p n l q Hp Hn Ha.
    rewrite (abs_heap (mkState (heap s) ∅ h m) s eq_refl) in Ha.
    rewrite (abs_heap (mkState (heap s) ∅ h m) s eq_refl). eauto.
  - discriminate.
Qed.

Lemma discardCache_post c s :
  inv c s -> (c = true -> Z.of_nat (size (nodeMap s)) <= cacheLimit) ->
  post c s discardCache (fun _ s' => heap s' = heap s).
Proof.
  intros Hi Hc. unfold post, discardCache.
  destruct (Z.ltb_spec cacheLimit (Z.of_nat (size (nodeMap s)))) as [Hd|Hk].
  - destruct c; [specialize (Hc eq_refl); lia|].
    eexists tt, _. split; [reflexivity|]. split; [apply inv_discard, Hi|].
    split; [|reflexivity]. intros p n Hp. exists n. auto.
  - exists tt, s. auto using ext_refl.
Qed.

Lemma NextGen_post c s (l : nat) t q :
  inv c s -> (c = true -> Z.of_nat (size (nodeMap s)) <= cacheLimit) ->
  abs s l t = Some q -> (1 <= l < 63)%nat ->
  post c s (NextGen t) (fun r s' => abs s' l r = Some (qnext (S l) (qgrow l q))).
Proof.
  intros Hi Hc Ha Hl. unfold NextGen.
  eapply post_bind; [apply discardCache_post; auto|].
  intros _ s1 Hi1 He1 _. cbn beta. forward He1.
  eapply post_bind; [eapply grow_post; eauto|].
  intros g s2 Hi2 He2 Hg. cbn beta in Hg |- *.
  destruct l as [|l]; [lia|].
  apply NextGeneration_post; auto.
Qed.

(** ** [GrowToFit] *)

Lemma fitLevel_ge (fuel : nat) x y : forall l l', fitLevel fuel l x y = Some l' -> (l <= l')%nat.
Proof.
  induction fuel as [|fuel IH]; intros l l' H; [discriminate|].
  cbn [fitLevel] in H. destruct (fits (Z.of_nat l) x y).
  - injection H as <-. lia.
  - destruct ((63 <=? Z.of_nat l) || (Z.of_nat l <? 1)); [discriminate|].
    apply IH in H. lia.
Qed.

Lemma GrowToFit_fuel_spec c x y (fuel : nat) :
  forall s l t q, inv c s -> abs s l t = Some q ->
  match fitLevel fuel l x y with
  | Some l' =>
      post c s (GrowToFit_fuel fuel t x y) (fun r s' =>
        abs s' l' r = Some (qgrows (l' - l) l q) /\ (l' = l -> r = t /\ s' = s))
  | None => forall r s', GrowToFit_fuel fuel t x y s <> Ok r s'
  end.
Proof.
  induction fuel as [|fuel IH]; intros s l t q Hi Ha; [discriminate|].
  destruct (abs_alloc c s l t q Hi Ha) as [n Hp].
  pose proof (abs_Level c s l t q n Hi Ha Hp) as HL.
  cbn [fitLevel GrowToFit_fuel].
  destruct (fits (Z.of_nat l) x y) eqn:Hfit.
  - eapply post_deref; [exact Hp|]. rewrite HL, Hfit.
    apply post_ret; [exact Hi|]. replace (l - l)%nat with 0%nat by lia. auto.
  - destruct ((63 <=? Z.of_nat l) || (Z.of_nat l <? 1)) eqn:Hlv.
    + intros r s'. rewrite (bind_deref s t n _ Hp), HL, Hfit.
      destruct (grow_panics s t n Hp) as [e He].
      { rewrite HL. apply orb_true_iff in Hlv as [H|H]; [apply Z.leb_le in H|apply Z.ltb_lt in H]; lia. }
      unfold bind. rewrite He. discriminate.
    + apply orb_false_iff in Hlv as [H1 H2].
      apply Z.leb_gt in H1. apply Z.ltb_ge in H2.
      pose proof (IH) as IH'.
      destruct (fitLevel fuel (S l) x y) as [l'|] eqn:Hfl.
      * pose proof (fitLevel_ge fuel x y _ _ Hfl) as Hge.
        eapply post_deref; [exact Hp|]. rewrite HL, Hfit.
        eapply post_bind; [eapply (grow_post c s l); eauto; lia|].
        intros g s1 Hi1 He1 Hg. cbn beta in Hg |- *.
        specialize (IH' s1 (S l) g _ Hi1 Hg). rewrite Hfl in IH'.
        eapply post_weaken; [exact IH'|].
        intros r s2 _ _ [Hr _]. cbn beta. split; [|lia].
        replace (l' - l)%nat with (S (l' - S l)) by lia. exact Hr.
      * intros r s'. rewrite (bind_deref s t n _ Hp), HL, Hfit.
        destruct (grow_post c s l t q Hi Ha ltac:(lia)) as (g & s1 & Hg & Hi1 & He1 & Hag).
        unfold bind. rewrite Hg.
        specialize (IH' s1 (S l) g _ Hi1 Hag). rewrite Hfl in IH'. apply IH'.
Qed.

(** ** Invariants of reachable states *)

Lemma inv_init : inv true init.
Proof.
  assert (Hheap : forall p n, heap init !! p = Some n -> isLeafPtr p /\ next n = nil).
  { intros p n. unfold init. cbn [heap].
    destruct (decide (p = liveLeaf)) as [->|H1].
    - rewrite lookup_insert_eq. intros H. assert (n = liveNode) as -> by congruence.
      split; [left|]; reflexivity.
    - rewrite lookup_insert_ne by auto.
      destruct (decide (p = deadLeaf)) as [->|H2].
      + rewrite lookup_insert_eq. intros H. assert (n = deadNode) as -> by congruence.
        split; [right|]; reflexivity.
      + rewrite lookup_insert_ne by auto. rewrite lookup_empty. discriminate. }
  constructor; try reflexivity.
  - intros p n Hp Hnl. destruct (Hheap p n Hp). contradiction.
  - intros k p Hk. simpl in Hk. rewrite lookup_empty in Hk. discriminate.
  - intros p n l q Hp Hn. destruct (Hheap p n Hp). contradiction.
  - intros _ p n Hp Hnl. destruct (Hheap p n Hp). contradiction.
Qed.

Lemma NewTree_inv c s k r s' : inv c s -> NewTree k s = Ok r s' -> inv c s'.
Proof.
  intros Hi Hrun.
  assert (Hall : is_Some (heap s !! SE k) /\ is_Some (heap s !! SW k) /\
                 is_Some (heap s !! NW k) /\ is_Some (heap s !! NE k)).
  { destruct (nodeMap s !! k) as [p|] eqn:Hk.
    - destruct (inv_cache _ _ Hi k p Hk) as (Hnl & n & Hp & <-).
      destruct (inv_node _ _ Hi p n Hp Hnl) as ((nne & Hne & _) & ? & ? & ?). eauto 10.
    - unfold NewTree in Hrun. rewrite Hk in Hrun.
      unfold bind, deref, population, bind, deref in Hrun. simpl in Hrun.
      destruct (heap s !! NE k); simpl in Hrun; [|discriminate].
      destruct (heap s !! SE k); simpl in Hrun; [|discriminate].
      destruct (heap s !! SW k); simpl in Hrun; [|discriminate].
      destruct (heap s !! NW k); simpl in Hrun; [|discriminate]. eauto 10. }
  destruct Hall as (H1 & H2 & H3 & [nne H4]).
  destruct (NewTree_post c s k nne Hi H1 H2 H3 H4) as (r' & s'' & Hrun' & Hi' & _).
  congruence.
Qed.

Lemma step_inv c s o r s' :
  inv c s -> op_ok s o -> (c = true -> keeps_cache s o) ->
  run_op o s = Ok r s' -> inv c s'.
Proof.
  intros Hi Hok Hk Hrun. destruct o as [level|k|qt x y v|qt|qt x y|qt]; simpl in *.
  - destruct (Z_lt_le_dec level (2 ^ 64 - 2)) as [Hs|Hb].
    + destruct (EmptyTree_post c s (Z.to_nat level) Hi) as (r' & s'' & Hrun' & Hi' & _).
      { unfold uint in Hok. lia. }
      rewrite Z2Nat.id in Hrun' by (unfold uint in Hok; lia). congruence.
    + rewrite EmptyTree_collapse in Hrun by (unfold uint in Hok; lia). congruence.
  - eapply NewTree_inv; eauto.
  - destruct Hok as ([l [q Ha]] & _).
    pose proof (SetCell_spec c s l qt q x y v Hi Ha) as H.
    destruct (qset l q x y (negb (v =? 0))).
    + destruct H as (r' & s'' & Hrun' & Hi' & _). congruence.
    + destruct H as [e He]. congruence.
  - destruct Hok as [l [q Ha]].
    destruct (abs_alloc c s l qt q Hi Ha) as [n Hp].
    pose proof (abs_Level c s l qt q n Hi Ha Hp) as HL.
    destruct (le_lt_dec 1 l) as [H1|H0]; [destruct (le_lt_dec 63 l) as [H63|Hlt]|].
    + destruct (grow_panics s qt n Hp) as [e He]; [lia|congruence].
    + destruct (grow_post c s l qt q Hi Ha ltac:(lia)) as (r' & s'' & Hrun' & Hi' & _).
      congruence.
    + destruct (grow_panics s qt n Hp) as [e He]; [lia|congruence].
  - destruct Hok as ([l [q Ha]] & _).
    pose proof (GrowToFit_fuel_spec c x y 64 s l qt q Hi Ha) as H.
    unfold GrowToFit in Hrun.
    destruct (fitLevel 64 l x y).
    + destruct H as (r' & s'' & Hrun' & Hi' & _). congruence.
    + exfalso. eapply H; eauto.
  - destruct Hok as [l [q Ha]].
    destruct (abs_alloc c s l qt q Hi Ha) as [n Hp].
    pose proof (abs_Level c s l qt q n Hi Ha Hp) as HL.
    assert (Hlv : (1 <= l < 63)%nat).
    { destruct (le_lt_dec 1 l) as [H1|H0]; [destruct (le_lt_dec 63 l) as [H63|Hlt]|]; [|lia|].
      - exfalso. unfold NextGen, bind in Hrun.
        destruct (discardCache s) as [u sd| |] eqn:Hd; [|discriminate..].
        assert (Hh : heap sd = heap s).
        { unfold discardCache in Hd. destruct (_ <? _); injection Hd as _ <-; reflexivity. }
        destruct (grow_panics sd qt n) as [e He]; [rewrite Hh; exact Hp|lia|].
        rewrite He in Hrun. discriminate.
      - exfalso. unfold NextGen, bind in Hrun.
        destruct (discardCache s) as [u sd| |] eqn:Hd; [|discriminate..].
        assert (Hh : heap sd = heap s).
        { unfold discardCache in Hd. destruct (_ <? _); injection Hd as _ <-; reflexivity. }
        destruct (grow_panics sd qt n) as [e He]; [rewrite Hh; exact Hp|lia|].
        rewrite He in Hrun. discriminate. }
    destruct (NextGen_post c s l qt q Hi Hk Ha Hlv) as (r' & s'' & Hrun' & Hi' & _).
    congruence.
Qed.

Lemma reachable_inv s : reachable s -> inv false s.
Proof.
  induction 1 as [|s o r s' _ IH Hok Hrun].
  - apply (inv_false true), inv_init.
  - eapply step_inv; eauto. discriminate.
Qed.

Lemma reachable_keeping_inv s : reachable_keeping s -> inv true s.
Proof.
  induction 1 as [|s o r s' _ IH Hok Hk Hrun].
  - apply inv_init.
  - eapply step_inv; eauto.
Qed.

Lemma reachable_keeping_reachable s : reachable_keeping s -> reachable s.
Proof.
  induction 1; [constructor|econstructor; eauto].
Qed.

(** ** The packed bitmask *)

Lemma pack_step (a : Z) (b : bool) (k : Z) : 0 <= k < 16 -> 0 <= a < 2 ^ k ->
  let r := wrap16 (wrap16 (a * 2) + wrap16 (Z.b2z b)) in
  r = 2 * a + Z.b2z b /\ 0 <= r < 2 ^ (k + 1).
Proof.
  intros Hk Ha. cbv zeta.
  assert (H2 : 2 ^ (k + 1) = 2 * 2 ^ k) by (rewrite Z.pow_add_r; lia).
  assert (H16 : 2 ^ (k + 1) <= 2 ^ 16) by (apply Z.pow_le_mono_r; lia).
  assert (Hb : 0 <= Z.b2z b <= 1) by (destruct b; simpl; lia).
  unfold wrap16. rewrite (Z.mod_small (a * 2)) by lia.
  rewrite (Z.mod_small (Z.b2z b)) by lia.
  rewrite Z.mod_small by lia. lia.
Qed.

Lemma testbit_pack (a : Z) (b : bool) (m : Z) : 0 <= m ->
  Z.testbit (2 * a + Z.b2z b) m = if m =? 0 then b else Z.testbit a (m - 1).
Proof.
  intros Hm. destruct (Z.eqb_spec m 0) as [->|Hn].
  - apply Z.testbit_0_r.
  - replace m with (Z.succ (m - 1)) at 1 by lia.
    apply Z.testbit_succ_r. lia.
Qed.

Lemma bits16_fold (cells : list bool) : forall (a : Z) (k : nat),
  0 <= a < 2 ^ Z.of_nat k -> (k + length cells <= 16)%nat ->
  let r := fold_left (fun a b => wrap16 (wrap16 (a * 2) + wrap16 (Z.b2z b))) cells a in
  0 <= r < 2 ^ Z.of_nat (k + length cells) /\
  forall m : nat,
    Z.testbit r (Z.of_nat m) =
      if (m <? length cells)%nat then nth (length cells - 1 - m) cells false
      else Z.testbit a (Z.of_nat (m - length cells)).
Proof.
  induction cells as [|b cells IH]; intros a k Ha Hk; cbn [fold_left length].
  - cbv zeta. rewrite Nat.add_0_r. split; [exact Ha|].
    intros m. cbn [Nat.ltb Nat.leb]. rewrite Nat.sub_0_r. reflexivity.
  - cbn [length] in Hk.
    destruct (pack_step a b (Z.of_nat k) ltac:(lia) Ha) as [E Hr].
    rewrite E in *.
    replace (Z.of_nat k + 1) with (Z.of_nat (S k)) in Hr by lia.
    destruct (IH (2 * a + Z.b2z b) (S k) Hr ltac:(lia)) as [Hb Ht].
    cbv zeta in Hb, Ht |- *.
    replace (k + S (length cells))%nat with (S k + length cells)%nat by lia.
    split; [exact Hb|]. intros m. rewrite Ht.
    destruct (Nat.ltb_spec m (length cells)) as [Hlt|Hge].
    + destruct (Nat.ltb_spec m (S (length cells))); [|lia].
      replace (S (length cells) - 1 - m)%nat with (S (length cells - 1 - m)) by lia.
      reflexivity.
    + rewrite testbit_pack by lia.
      destruct (Nat.ltb_spec m (S (length cells))) as [Hlt'|Hge'].
      * assert (m = length cells) as -> by lia.
        rewrite Nat.sub_diag. change (Z.of_nat 0 =? 0) with true. cbv iota.
        replace (S (length cells) - 1 - length cells)%nat with 0%nat by lia. reflexivity.
      * destruct (Z.eqb_spec (Z.of_nat (m - length cells)) 0) as [E0|_]; [lia|].
        f_equal. lia.
Qed.

Lemma bits16_range (cells : list bool) : length cells = 16%nat ->
  0 <= bits16 cells < 2 ^ 16.
Proof.
  intros Hl. unfold bits16.
  destruct (bits16_fold cells 0 0 ltac:(simpl; lia) ltac:(lia)) as [H _].
  cbv zeta in H. rewrite Hl in H. exact H.
Qed.

Lemma bits16_testbit (cells : list bool) (m : nat) : length cells = 16%nat ->
  (m < 16)%nat -> Z.testbit (bits16 cells) (Z.of_nat m) = nth (15 - m) cells false.
Proof.
  intros Hl Hm. unfold bits16.
  destruct (bits16_fold cells 0 0 ltac:(simpl; lia) ltac:(lia)) as [_ H].
  cbv zeta in H. rewrite H, Hl.
  destruct (Nat.ltb_spec m 16); [|lia]. reflexivity.
Qed.

(** ** The base case computes the Life rule *)

Ltac eval_term t :=
  let r := eval vm_compute in t in
  replace t with r by (vm_compute; reflexivity).

Ltac eval_cells :=
  repeat match goal with
         | |- context [cellb 2 ?Q ?u ?v] => eval_term (cellb 2 Q u v)
         | |- context [qat 2 ?Q ?u ?v] => eval_term (qat 2 Q u v)
         | |- context [nth ?n ?l false] => eval_term (nth n l false)
         end.

Lemma qwf_0_inv (q : quad) : qwf 0 q -> exists b, q = QLeaf b.
Proof. destruct q; [eauto|contradiction]. Qed.

Lemma qwf_S_inv (l : nat) (q : quad) : qwf (S l) q ->
  exists se sw nw ne, q = QNode se sw nw ne /\
    qwf l se /\ qwf l sw /\ qwf l nw /\ qwf l ne.
Proof.
  destruct q as [|se sw nw ne]; [contradiction|].
  intros H. exists se, sw, nw, ne. split; [reflexivity|exact H].
Qed.

Lemma qwf_1_inv (q : quad) : qwf 1 q ->
  exists a b c d, q = QNode (QLeaf a) (QLeaf b) (QLeaf c) (QLeaf d).
Proof.
  intros H. apply qwf_S_inv in H as (se & sw & nw & ne & -> & H1 & H2 & H3 & H4).
  apply qwf_0_inv in H1 as [a ->]. apply qwf_0_inv in H2 as [b ->].
  apply qwf_0_inv in H3 as [c ->]. apply qwf_0_inv in H4 as [d ->]. eauto.
Qed.

Lemma qwf_2_inv (q : quad) : qwf 2 q ->
  exists a0 a1 a2 a3 b0 b1 b2 b3 c0 c1 c2 c3 d0 d1 d2 d3,
    q = QNode (QNode (QLeaf a0) (QLeaf a1) (QLeaf a2) (QLeaf a3))
              (QNode (QLeaf b0) (QLeaf b1) (QLeaf b2) (QLeaf b3))
              (QNode (QLeaf c0) (QLeaf c1) (QLeaf c2) (QLeaf c3))
              (QNode (QLeaf d0) (QLeaf d1) (QLeaf d2) (QLeaf d3)).
Proof.
  intros H. apply qwf_S_inv in H as (se & sw & nw & ne & -> & H1 & H2 & H3 & H4).
  apply qwf_1_inv in H1 as (a0 & a1 & a2 & a3 & ->).
  apply qwf_1_inv in H2 as (b0 & b1 & b2 & b3 & ->).
  apply qwf_1_inv in H3 as (c0 & c1 & c2 & c3 & ->).
  apply qwf_1_inv in H4 as (d0 & d1 & d2 & d3 & ->).
  exists a0, a1, a2, a3, b0, b1, b2, b3, c0, c1, c2, c3, d0, d1, d2, d3. reflexivity.
Qed.

Lemma qat_1 (a b c d : bool) (i j : Z) :
  qat 1 (QNode (QLeaf a) (QLeaf b) (QLeaf c) (QLeaf d)) i j =
    if i <? 1 then (if j <? 1 then c else b) else (if j <? 1 then d else a).
Proof. reflexivity. Qed.

Lemma qslow_life (q : quad) : qwf 2 q ->
  forall i j, 0 <= i < 2 -> 0 <= j < 2 ->
  qat 1 (qslow q) i j = life (qat 2 q) (1 + i) (1 + j).
Proof.
  intros Hq i j Hi Hj.
  destruct (qwf_2_inv q Hq)
    as (a0 & a1 & a2 & a3 & b0 & b1 & b2 & b3 & c0 & c1 & c2 & c3 & d0 & d1 & d2 & d3 & ->).
  set (cells := [c2; c3; d2; d3; c1; c0; d1; d0; b2; b3; a2; a3; b1; b0; a1; a0]).
  assert (HB : qbits (QNode (QNode (QLeaf a0) (QLeaf a1) (QLeaf a2) (QLeaf a3))
                            (QNode (QLeaf b0) (QLeaf b1) (QLeaf b2) (QLeaf b3))
                            (QNode (QLeaf c0) (QLeaf c1) (QLeaf c2) (QLeaf c3))
                            (QNode (QLeaf d0) (QLeaf d1) (QLeaf d2) (QLeaf d3)))
               = bits16 cells).
  { unfold qbits, bits16, cells. cbn [fold_left scan]. eval_cells. reflexivity. }
  unfold qslow. rewrite HB. clear HB.
  pose proof (bits16_range cells eq_refl) as Hr.
  assert (Ht : forall m, 0 <= m < 16 ->
            Z.testbit (bits16 cells) m = nth (15 - Z.to_nat m) cells false).
  { intros m Hm. rewrite <- (Z2Nat.id m) at 1 by lia.
    apply bits16_testbit; [reflexivity|lia]. }
  set (B := bits16 cells) in *.
  rewrite (oneGenb_window B Hr).
  rewrite !oneGenb_window by (apply shiftr_range; [lia|exact Hr]).
  unfold windowCount. rewrite !Z.shiftr_spec by lia.
  rewrite !Ht by lia. unfold cells. eval_cells.
  assert (Hij : (i = 0 \/ i = 1) /\ (j = 0 \/ j = 1)) by lia.
  rewrite qat_1.
  destruct Hij as [[-> | ->] [-> | ->]]; unfold life, neighbours; eval_cells;
    cbn [Z.ltb Z.compare Pos.compare Pos.compare_cont]; f_equal; lia.
Qed.

(** ** Pictures as squares of the plane *)

Lemma qat_S (l : nat) (se sw nw ne : quad) (i j : Z) :
  qat (S l) (QNode se sw nw ne) i j =
    if i <? 2 ^ Z.of_nat l
    then (if j <? 2 ^ Z.of_nat l then qat l nw i j else qat l sw i (j - 2 ^ Z.of_nat l))
    else (if j <? 2 ^ Z.of_nat l then qat l ne (i - 2 ^ Z.of_nat l) j
          else qat l se (i - 2 ^ Z.of_nat l) (j - 2 ^ Z.of_nat l)).
Proof. reflexivity. Qed.

Lemma win_at (l : nat) (q : quad) f (a b a' b' : Z) :
  win l q f a b -> a = a' -> b = b' -> win l q f a' b'.
Proof. intros H <- <-. exact H. Qed.

Lemma win_node (l : nat) (se sw nw ne : quad) f (a b : Z) :
  win l nw f a b -> win l ne f (a + 2 ^ Z.of_nat l) b ->
  win l sw f a (b + 2 ^ Z.of_nat l) ->
  win l se f (a + 2 ^ Z.of_nat l) (b + 2 ^ Z.of_nat l) ->
  win (S l) (QNode se sw nw ne) f a b.
Proof.
  intros [Wnw Hnw] [Wne Hne] [Wsw Hsw] [Wse Hse]. split; [simpl; auto|].
  intros i j Hi Hj. rewrite pow2_S in Hi, Hj. rewrite qat_S.
  pose proof (pow2_pos l) as Hp.
  destruct (Z.ltb_spec i (2 ^ Z.of_nat l)), (Z.ltb_spec j (2 ^ Z.of_nat l)).
  - apply Hnw; lia.
  - rewrite Hsw by lia. f_equal; lia.
  - rewrite Hne by lia. f_equal; lia.
  - rewrite Hse by lia. f_equal; lia.
Qed.

Lemma win_child (l : nat) (q : quad) f (a b : Z) :
  win (S l) q f a b ->
  exists se sw nw ne, q = QNode se sw nw ne /\
    win l nw f a b /\ win l ne f (a + 2 ^ Z.of_nat l) b /\
    win l sw f a (b + 2 ^ Z.of_nat l) /\
    win l se f (a + 2 ^ Z.of_nat l) (b + 2 ^ Z.of_nat l).
Proof.
  intros [Hw H].
  apply qwf_S_inv in Hw as (se & sw & nw & ne & -> & W1 & W2 & W3 & W4).
  exists se, sw, nw, ne. split; [reflexivity|].
  pose proof (pow2_pos l) as Hp.
  assert (Hq : forall i j, 0 <= i < 2 * 2 ^ Z.of_nat l -> 0 <= j < 2 * 2 ^ Z.of_nat l ->
            qat (S l) (QNode se sw nw ne) i j = f (a + i) (b + j)).
  { intros i j Hi Hj. apply H; rewrite pow2_S; lia. }
  repeat split; auto; intros i j Hi Hj.
  - rewrite <- Hq by lia. rewrite qat_S.
    destruct (Z.ltb_spec i (2 ^ Z.of_nat l)), (Z.ltb_spec j (2 ^ Z.of_nat l)); try lia.
    reflexivity.
  - replace (a + 2 ^ Z.of_nat l + i) with (a + (2 ^ Z.of_nat l + i)) by lia.
    rewrite <- Hq by lia. rewrite qat_S.
    destruct (Z.ltb_spec (2 ^ Z.of_nat l + i) (2 ^ Z.of_nat l)),
      (Z.ltb_spec j (2 ^ Z.of_nat l)); try lia.
    f_equal; lia.
  - replace (b + 2 ^ Z.of_nat l + j) with (b + (2 ^ Z.of_nat l + j)) by lia.
    rewrite <- Hq by lia. rewrite qat_S.
    destruct (Z.ltb_spec i (2 ^ Z.of_nat l)),
      (Z.ltb_spec (2 ^ Z.of_nat l + j) (2 ^ Z.of_nat l)); try lia.
    f_equal; lia.
  - replace (a + 2 ^ Z.of_nat l + i) with (a + (2 ^ Z.of_nat l + i)) by lia.
    replace (b + 2 ^ Z.of_nat l + j) with (b + (2 ^ Z.of_nat l + j)) by lia.
    rewrite <- Hq by lia. rewrite qat_S.
    destruct (Z.ltb_spec (2 ^ Z.of_nat l + i) (2 ^ Z.of_nat l)),
      (Z.ltb_spec (2 ^ Z.of_nat l + j) (2 ^ Z.of_nat l)); try lia.
    f_equal; lia.
Qed.

Lemma win_wf (l : nat) (q : quad) f a b : win l q f a b -> qwf l q.
Proof. intros [H _]. exact H. Qed.

Lemma win_self (l : nat) (q : quad) : qwf l q -> win l q (qat l q) 0 0.
Proof. intros H. split; [exact H|]. intros i j _ _. reflexivity. Qed.

Ltac split_win H :=
  let se := fresh "q" in let sw := fresh "q" in
  let nw := fresh "q" in let ne := fresh "q" in
  let Hnw := fresh H "nw" in let Hne := fresh H "ne" in
  let Hsw := fresh H "sw" in let Hse := fresh H "se" in
  apply win_child in H as (se & sw & nw & ne & -> & Hnw & Hne & Hsw & Hse).

Ltac win_close := eapply win_at; [eassumption|rewrite ?pow2_S; lia|rewrite ?pow2_S; lia].

Lemma win_centered (l : nat) (q : quad) f (a b : Z) :
  win (S (S l)) q f a b ->
  win (S l) (qcentered q) f (a + 2 ^ Z.of_nat l) (b + 2 ^ Z.of_nat l).
Proof.
  intros H. split_win H. split_win Hnw. split_win Hne. split_win Hsw. split_win Hse.
  unfold qcentered. cbn [qSE qSW qNW qNE].
  apply win_node; win_close.
Qed.

Lemma win_centeredH (l : nat) (w e : quad) f (a b : Z) :
  win (S (S l)) w f a b -> win (S (S l)) e f (a + 4 * 2 ^ Z.of_nat l) b ->
  win (S l) (qcenteredH w e) f (a + 3 * 2 ^ Z.of_nat l) (b + 2 ^ Z.of_nat l).
Proof.
  intros W E. split_win W. split_win E.
  split_win Wne. split_win Wse. split_win Enw. split_win Esw.
  unfold qcenteredH. cbn [qSE qSW qNW qNE].
  apply win_node; win_close.
Qed.

Lemma win_centeredV (l : nat) (n s : quad) f (a b : Z) :
  win (S (S l)) n f a b -> win (S (S l)) s f a (b + 4 * 2 ^ Z.of_nat l) ->
  win (S l) (qcenteredV n s) f (a + 2 ^ Z.of_nat l) (b + 3 * 2 ^ Z.of_nat l).
Proof.
  intros N S0. split_win N. split_win S0.
  split_win Nsw. split_win Nse. split_win S0nw. split_win S0ne.
  unfold qcenteredV. cbn [qSE qSW qNW qNE].
  apply win_node; win_close.
Qed.

Lemma win_centeredSS (l : nat) (q : quad) f (a b : Z) :
  win (S (S (S l))) q f a b ->
  win (S l) (qcenteredSS q) f (a + 3 * 2 ^ Z.of_nat l) (b + 3 * 2 ^ Z.of_nat l).
Proof.
  intros H. split_win H. split_win Hnw. split_win Hne. split_win Hsw. split_win Hse.
  split_win Hnwse. split_win Hnesw. split_win Hswne. split_win Hsenw.
  unfold qcenteredSS. cbn [qSE qSW qNW qNE].
  apply win_node; win_close.
Qed.

(** ** The Life rule is local *)

Lemma life_map (f g : Z -> Z -> bool) (x y x' y' : Z) :
  (forall du dv, -1 <= du <= 1 -> -1 <= dv <= 1 ->
     f (x + du) (y + dv) = g (x' + du) (y' + dv)) ->
  life f x y = life g x' y'.
Proof.
  intros H. unfold life, neighbours.
  pose proof (H (-1) (-1) ltac:(lia) ltac:(lia)) as H1.
  pose proof (H 0 (-1) ltac:(lia) ltac:(lia)) as H2.
  pose proof (H 1 (-1) ltac:(lia) ltac:(lia)) as H3.
  pose proof (H (-1) 0 ltac:(lia) ltac:(lia)) as H4.
  pose proof (H 0 0 ltac:(lia) ltac:(lia)) as H5.
  pose proof (H 1 0 ltac:(lia) ltac:(lia)) as H6.
  pose proof (H (-1) 1 ltac:(lia) ltac:(lia)) as H7.
  pose proof (H 0 1 ltac:(lia) ltac:(lia)) as H8.
  pose proof (H 1 1 ltac:(lia) ltac:(lia)) as H9.
  rewrite !Z.add_0_r in *.
  change (x + -1) with (x - 1) in *. change (y + -1) with (y - 1) in *.
  change (x' + -1) with (x' - 1) in *. change (y' + -1) with (y' - 1) in *.
  rewrite H1, H2, H3, H4, H5, H6, H7, H8, H9. reflexivity.
Qed.

(** ** [NextGeneration] computes the Life rule *)

Lemma qslow_wf (q : quad) : qwf 1 (qslow q).
Proof. simpl. auto. Qed.

Lemma qnext_win (l : nat) : forall (q : quad) f (a b : Z),
  win (S (S l)) q f a b ->
  win (S l) (qnext (S (S l)) q) (life f) (a + 2 ^ Z.of_nat l) (b + 2 ^ Z.of_nat l).
Proof.
  induction l as [|l IH]; intros q f a b H.
  - change (qnext 2 q) with (qslow q). change (2 ^ Z.of_nat 0) with 1.
    destruct H as [Hw H]. split; [apply qslow_wf|].
    intros i j Hi Hj. change (2 ^ Z.of_nat 1) with 2 in Hi, Hj.
    rewrite (qslow_life q Hw i j Hi Hj).
    apply life_map. intros du dv Hu Hv.
    rewrite H by (change (2 ^ Z.of_nat 2) with 4; lia). f_equal; lia.
  - pose proof H as Hq.
    apply win_centeredSS in Hq.
    split_win H.
    pose proof (win_centered _ _ _ _ _ Hnw) as H00.
    pose proof (win_centered _ _ _ _ _ Hne) as H02.
    pose proof (win_centered _ _ _ _ _ Hsw) as H20.
    pose proof (win_centered _ _ _ _ _ Hse) as H22.
    rewrite pow2_S, pow2_S in Hne, Hsw, Hse.
    assert (H01 : win (S l) (qcenteredH q2 q3) f (a + 3 * 2 ^ Z.of_nat l) (b + 2 ^ Z.of_nat l)).
    { apply win_centeredH; [exact Hnw|]. win_close. }
    assert (H21 : win (S l) (qcenteredH q1 q0) f (a + 3 * 2 ^ Z.of_nat l)
                    (b + 2 * (2 * 2 ^ Z.of_nat l) + 2 ^ Z.of_nat l)).
    { apply win_centeredH; [exact Hsw|]. win_close. }
    assert (H10 : win (S l) (qcenteredV q2 q1) f (a + 2 ^ Z.of_nat l) (b + 3 * 2 ^ Z.of_nat l)).
    { apply win_centeredV; [exact Hnw|]. win_close. }
    assert (H12 : win (S l) (qcenteredV q3 q0) f (a + 2 * (2 * 2 ^ Z.of_nat l) + 2 ^ Z.of_nat l)
                    (b + 3 * 2 ^ Z.of_nat l)).
    { apply win_centeredV; [exact Hne|]. win_close. }
    assert (Bnw : win (S (S l)) (QNode (qcenteredSS (QNode q0 q1 q2 q3)) (qcenteredV q2 q1)
                                   (qcentered q2) (qcenteredH q2 q3))
                    f (a + 2 ^ Z.of_nat l) (b + 2 ^ Z.of_nat l)).
    { apply win_node; win_close. }
    assert (Bne : win (S (S l)) (QNode (qcenteredV q3 q0) (qcenteredSS (QNode q0 q1 q2 q3))
                                   (qcenteredH q2 q3) (qcentered q3))
                    f (a + 3 * 2 ^ Z.of_nat l) (b + 2 ^ Z.of_nat l)).
    { apply win_node; win_close. }
    assert (Bsw : win (S (S l)) (QNode (qcenteredH q1 q0) (qcentered q1)
                                   (qcenteredV q2 q1) (qcenteredSS (QNode q0 q1 q2 q3)))
                    f (a + 2 ^ Z.of_nat l) (b + 3 * 2 ^ Z.of_nat l)).
    { apply win_node; win_close. }
    assert (Bse : win (S (S l)) (QNode (qcentered q0) (qcenteredH q1 q0)
                                   (qcenteredSS (QNode q0 q1 q2 q3)) (qcenteredV q3 q0))
                    f (a + 3 * 2 ^ Z.of_nat l) (b + 3 * 2 ^ Z.of_nat l)).
    { apply win_node; win_close. }
    apply IH in Bnw, Bne, Bsw, Bse.
    change (qnext (S (S (S l))) (QNode q0 q1 q2 q3)) with
      (QNode (qnext (S (S l)) (QNode (qcentered q0) (qcenteredH q1 q0)
                                 (qcenteredSS (QNode q0 q1 q2 q3)) (qcenteredV q3 q0)))
             (qnext (S (S l)) (QNode (qcenteredH q1 q0) (qcentered q1)
                                 (qcenteredV q2 q1) (qcenteredSS (QNode q0 q1 q2 q3))))
             (qnext (S (S l)) (QNode (qcenteredSS (QNode q0 q1 q2 q3)) (qcenteredV q2 q1)
                                 (qcentered q2) (qcenteredH q2 q3)))
             (qnext (S (S l)) (QNode (qcenteredV q3 q0) (qcenteredSS (QNode q0 q1 q2 q3))
                                 (qcenteredH q2 q3) (qcentered q3)))).
    apply win_node; win_close.
Qed.

(** ** [Cell] coordinates and corner coordinates *)

Lemma qfind_qat (l : nat) : (l <= 63)%nat ->
  forall q x y, qwf (S l) q -> inbox (S l) x -> inbox (S l) y ->
  qfind (S l) q x y = Some (qat (S l) q (x + 2 ^ Z.of_nat l) (y + 2 ^ Z.of_nat l)).
Proof.
  induction l as [|l IH]; intros Hl q x y Hq Hx Hy.
  - apply qwf_1_inv in Hq as (a & b & c & d & ->).
    rewrite qfind_step, !childCoord_small by (auto; lia).
    destruct Hx as [_ Hx], Hy as [_ Hy]. change (2 ^ Z.of_nat 0) with 1 in *.
    rewrite qat_1.
    assert (Hc : leafCheck x y = false).
    { apply leafCheck_dbox; simpl; lia. }
    destruct (Z.leb_spec 0 x), (Z.leb_spec 0 y), (Z.ltb_spec (x + 1) 1), (Z.ltb_spec (y + 1) 1);
      try lia; cbn [qfind]; rewrite Hc; reflexivity.
  - apply qwf_S_inv in Hq as (se & sw & nw & ne & -> & Q1 & Q2 & Q3 & Q4).
    rewrite qfind_step, !childCoord_small by (auto; lia).
    pose proof (childCoord_dbox (S l) x ltac:(lia) Hx) as Hx'.
    pose proof (childCoord_dbox (S l) y ltac:(lia) Hy) as Hy'.
    rewrite !childCoord_small in Hx', Hy' by (auto; lia).
    rewrite qat_S. rewrite (pow2_S l).
    pose proof (pow2_pos l) as Hp.
    destruct (Z.leb_spec 0 x), (Z.leb_spec 0 y),
      (Z.ltb_spec (x + 2 * 2 ^ Z.of_nat l) (2 * 2 ^ Z.of_nat l)),
      (Z.ltb_spec (y + 2 * 2 ^ Z.of_nat l) (2 * 2 ^ Z.of_nat l)); try lia;
      rewrite IH by (auto; lia); do 2 f_equal; lia.
Qed.

Lemma plane_S (l : nat) (q : quad) (x y : Z) :
  plane (S l) q x y =
    if (- 2 ^ Z.of_nat l <=? x) && (x <? 2 ^ Z.of_nat l)
       && (- 2 ^ Z.of_nat l <=? y) && (y <? 2 ^ Z.of_nat l)
    then qat (S l) q (x + 2 ^ Z.of_nat l) (y + 2 ^ Z.of_nat l) else false.
Proof.
  unfold plane. replace (Z.of_nat (S l) - 1) with (Z.of_nat l) by lia. reflexivity.
Qed.

Lemma plane_in (l : nat) (q : quad) (x y : Z) :
  - 2 ^ Z.of_nat l <= x < 2 ^ Z.of_nat l -> - 2 ^ Z.of_nat l <= y < 2 ^ Z.of_nat l ->
  plane (S l) q x y = qat (S l) q (x + 2 ^ Z.of_nat l) (y + 2 ^ Z.of_nat l).
Proof.
  intros Hx Hy. rewrite plane_S.
  destruct (Z.leb_spec (- 2 ^ Z.of_nat l) x), (Z.ltb_spec x (2 ^ Z.of_nat l)),
    (Z.leb_spec (- 2 ^ Z.of_nat l) y), (Z.ltb_spec y (2 ^ Z.of_nat l)); try lia.
  reflexivity.
Qed.

Lemma plane_out (l : nat) (q : quad) (x y : Z) :
  ~ (- 2 ^ Z.of_nat l <= x < 2 ^ Z.of_nat l /\ - 2 ^ Z.of_nat l <= y < 2 ^ Z.of_nat l) ->
  plane (S l) q x y = false.
Proof.
  intros H. rewrite plane_S.
  destruct (Z.leb_spec (- 2 ^ Z.of_nat l) x), (Z.ltb_spec x (2 ^ Z.of_nat l)),
    (Z.leb_spec (- 2 ^ Z.of_nat l) y), (Z.ltb_spec y (2 ^ Z.of_nat l)); try reflexivity.
  exfalso. apply H. lia.
Qed.

Lemma cellb_plane (l : nat) (q : quad) (x y : Z) : (l <= 63)%nat ->
  qwf (S l) q -> inbox (S l) x -> inbox (S l) y ->
  cellb (S l) q x y = plane (S l) q x y.
Proof.
  intros Hl Hq Hx Hy. unfold cellb. rewrite qfind_qat by auto.
  destruct Hx as [_ Hx], Hy as [_ Hy]. rewrite plane_in by lia. reflexivity.
Qed.

(** ** One generation on the plane *)

Lemma plane_life (l : nat) (q : quad) (x y : Z) : qwf (S (S l)) q ->
  - 2 ^ Z.of_nat l <= x < 2 ^ Z.of_nat l -> - 2 ^ Z.of_nat l <= y < 2 ^ Z.of_nat l ->
  plane (S l) (qnext (S (S l)) q) x y = life (plane (S (S l)) q) x y.
Proof.
  intros Hq Hx Hy. rewrite plane_in by auto.
  destruct (qnext_win l q _ 0 0 (win_self _ q Hq)) as [_ H].
  pose proof (pow2_pos l) as Hp.
  rewrite H by (rewrite pow2_S; lia). apply life_map. intros du dv Hu Hv.
  rewrite plane_in by (rewrite pow2_S; lia).
  rewrite pow2_S. f_equal; lia.
Qed.

(** ** [grow] puts the picture in the middle of dead cells *)

Lemma qat_empty (l : nat) : forall i j, qat l (qempty l) i j = false.
Proof.
  induction l as [|l IH]; intros i j; [reflexivity|].
  cbn [qempty]. rewrite qat_S.
  destruct (i <? 2 ^ Z.of_nat l), (j <? 2 ^ Z.of_nat l); apply IH.
Qed.

Lemma qempty_wf (l : nat) : qwf l (qempty l).
Proof. induction l; simpl; auto. Qed.

Lemma qgrow_wf (l : nat) (q : quad) : qwf (S l) q -> qwf (S (S l)) (qgrow (S l) q).
Proof.
  intros H. apply qwf_S_inv in H as (se & sw & nw & ne & -> & H1 & H2 & H3 & H4).
  unfold qgrow. cbn [qSE qSW qNW qNE Nat.sub]. rewrite Nat.sub_0_r.
  pose proof (qempty_wf l). simpl. auto 20.
Qed.

Lemma plane_grow (l : nat) (q : quad) (x y : Z) : qwf (S l) q ->
  plane (S (S l)) (qgrow (S l) q) x y = plane (S l) q x y.
Proof.
  intros H. apply qwf_S_inv in H as (se & sw & nw & ne & -> & H1 & H2 & H3 & H4).
  unfold qgrow. cbn [qSE qSW qNW qNE Nat.sub]. rewrite Nat.sub_0_r.
  rewrite !plane_S, (pow2_S l). pose proof (pow2_pos l) as Hp.
  destruct (Z.leb_spec (- (2 * 2 ^ Z.of_nat l)) x), (Z.ltb_spec x (2 * 2 ^ Z.of_nat l)),
    (Z.leb_spec (- (2 * 2 ^ Z.of_nat l)) y), (Z.ltb_spec y (2 * 2 ^ Z.of_nat l));
    cbn [andb];
    destruct (Z.leb_spec (- 2 ^ Z.of_nat l) x), (Z.ltb_spec x (2 ^ Z.of_nat l)),
      (Z.leb_spec (- 2 ^ Z.of_nat l) y), (Z.ltb_spec y (2 ^ Z.of_nat l));
    cbn [andb]; try lia; try reflexivity;
    rewrite (qat_S (S l)), (pow2_S l);
    repeat match goal with
           | |- context [?u <? ?v] => destruct (Z.ltb_spec u v); try lia
           end;
    rewrite !qat_S;
    repeat match goal with
           | |- context [?u <? ?v] => destruct (Z.ltb_spec u v); try lia
           end;
    rewrite ?qat_empty; try reflexivity; f_equal; lia.
Qed.

Lemma qgrows_wf (k : nat) : forall l q, qwf (S l) q -> qwf (k + S l) (qgrows k (S l) q).
Proof.
  induction k as [|k IH]; intros l q H; [exact H|].
  cbn [qgrows]. replace (S k + S l)%nat with (k + S (S l))%nat by lia.
  apply IH, qgrow_wf, H.
Qed.

Lemma plane_grows (k : nat) : forall l q x y, qwf (S l) q ->
  plane (k + S l) (qgrows k (S l) q) x y = plane (S l) q x y.
Proof.
  induction k as [|k IH]; intros l q x y H; [reflexivity|].
  cbn [qgrows]. replace (S k + S l)%nat with (k + S (S l))%nat by lia.
  rewrite IH by (apply qgrow_wf, H). apply plane_grow, H.
Qed.

(** ** Canonical handles *)

Lemma win_unique (l : nat) : forall q1 q2 f a b,
  win l q1 f a b -> win l q2 f a b -> q1 = q2.
Proof.
  induction l as [|l IH]; intros q1 q2 f a b H1 H2.
  - destruct H1 as [W1 H1], H2 as [W2 H2].
    apply qwf_0_inv in W1 as [b1 ->]. apply qwf_0_inv in W2 as [b2 ->].
    specialize (H1 0 0 ltac:(simpl; lia) ltac:(simpl; lia)).
    specialize (H2 0 0 ltac:(simpl; lia) ltac:(simpl; lia)).
    simpl in H1, H2. congruence.
  - split_win H1. split_win H2. f_equal; eapply IH; eauto.
Qed.

Lemma plane_unique (l : nat) (q1 q2 : quad) : qwf (S l) q1 -> qwf (S l) q2 ->
  (forall x y, - 2 ^ Z.of_nat l <= x < 2 ^ Z.of_nat l ->
               - 2 ^ Z.of_nat l <= y < 2 ^ Z.of_nat l ->
               plane (S l) q1 x y = plane (S l) q2 x y) ->
  q1 = q2.
Proof.
  intros W1 W2 H. apply (win_unique (S l) q1 q2 (qat (S l) q2) 0 0);
    [|apply win_self; exact W2].
  split; [exact W1|]. intros i j Hi Hj. rewrite pow2_S in Hi, Hj.
  specialize (H (i - 2 ^ Z.of_nat l) (j - 2 ^ Z.of_nat l) ltac:(lia) ltac:(lia)).
  rewrite !plane_in in H by lia.
  replace (i - 2 ^ Z.of_nat l + 2 ^ Z.of_nat l) with i in H by lia.
  replace (j - 2 ^ Z.of_nat l + 2 ^ Z.of_nat l) with j in H by lia.
  exact H.
Qed.

(** With the cache intact, a picture of level at most 16 has one handle. *)
Lemma canon_unique (s : state) (l : nat) : inv true s -> (l <= 16)%nat ->
  forall a b q, abs s l a = Some q -> abs s l b = Some q -> a = b.
Proof.
  intros Hi. induction l as [|l IH]; intros Hl a b q Ha Hb.
  - apply abs_0_inv in Ha as (x & -> & ->). apply abs_0_inv in Hb as (y & [= <-] & ->).
    reflexivity.
  - pose proof (abs_S_nonleaf true s l a q Hi Ha) as Nla.
    pose proof (abs_S_nonleaf true s l b q Hi Hb) as Nlb.
    apply abs_S_inv in Ha as (na & se & sw & nw & ne & Hpa & HLa & -> & A1 & A2 & A3 & A4).
    apply abs_S_inv in Hb as (nb & se' & sw' & nw' & ne' & Hpb & HLb & [= <- <- <- <-] & B1 & B2 & B3 & B4).
    assert (Hc : childs na = childs nb).
    { destruct (childs na) as [a1 a2 a3 a4], (childs nb) as [b1 b2 b3 b4]. simpl in *.
      f_equal; eapply IH; eauto; lia. }
    pose proof (inv_canon _ _ Hi eq_refl a na Hpa Nla ltac:(right; lia)) as Ca.
    pose proof (inv_canon _ _ Hi eq_refl b nb Hpb Nlb ltac:(right; lia)) as Cb.
    rewrite Hc in Ca. congruence.
Qed.

(** ** The loop of [GrowToFit] *)

Lemma fits_inbox (l : nat) (x y : Z) : (l <= 62)%nat ->
  fits (Z.of_nat (S l)) x y = true <->
  (- 2 ^ Z.of_nat l <= x <= 2 ^ Z.of_nat l - 1) /\ (- 2 ^ Z.of_nat l <= y <= 2 ^ Z.of_nat l - 1).
Proof.
  intros Hl. unfold fits, shl64.
  replace (Z.of_nat (S l) - 1) with (Z.of_nat l) by lia.
  rewrite wrapu_id by (unfold uint; lia).
  destruct (Z.leb_spec 64 (Z.of_nat l)); [lia|]. rewrite Z.mul_1_l.
  pose proof (pow2_pos l) as Hp.
  assert (Hle : 2 ^ Z.of_nat l <= 2 ^ 62) by (apply Z.pow_le_mono_r; lia).
  rewrite (wrap64_id (2 ^ Z.of_nat l)) by (unfold int64; lia).
  rewrite !wrap64_id by (unfold int64; lia).
  rewrite !andb_true_iff, !Z.leb_le. lia.
Qed.

Lemma fitLevel_spec (x y : Z) : - 2 ^ 62 <= x < 2 ^ 62 -> - 2 ^ 62 <= y < 2 ^ 62 ->
  forall (fuel l : nat), (l <= 62)%nat -> (63 <= fuel + l)%nat ->
  exists l', fitLevel fuel (S l) x y = Some (S l') /\ (l <= l' <= 62)%nat /\
    fits (Z.of_nat (S l')) x y = true /\
    forall j, (l <= j < l')%nat -> fits (Z.of_nat (S j)) x y = false.
Proof.
  intros Hx Hy fuel. induction fuel as [|fuel IH]; intros l Hl Hf; [lia|].
  cbn [fitLevel]. destruct (fits (Z.of_nat (S l)) x y) eqn:Hfit.
  - exists l. repeat split; auto; lia.
  - assert (Hl' : (l < 62)%nat).
    { destruct (le_lt_dec 62 l) as [H62|]; [|assumption].
      assert (l = 62%nat) as -> by lia.
      assert (fits (Z.of_nat 63) x y = true); [|congruence].
      apply (fits_inbox 62); [lia|]. change (Z.of_nat 62) with 62. lia. }
    destruct (Z.leb_spec 63 (Z.of_nat (S l))); [lia|].
    destruct (Z.ltb_spec (Z.of_nat (S l)) 1); [lia|]. cbn [orb].
    destruct (IH (S l) ltac:(lia) ltac:(lia)) as (l' & E & Hr & Hfit' & Hmin).
    exists l'. split; [exact E|]. split; [lia|]. split; [exact Hfit'|].
    intros j Hj. destruct (Nat.eq_dec j l) as [->|]; [exact Hfit|]. apply Hmin. lia.
Qed.

(** ** Cells of trees *)

Lemma inbox_dbox (l : nat) (x : Z) : inbox l x -> dbox l x.
Proof. destruct l; simpl; [intros ->; lia|auto]. Qed.

Lemma inboxb_spec (l : nat) (x : Z) : inboxb l x = true <-> inbox l x.
Proof.
  destruct l as [|l]; simpl.
  - apply Z.eqb_eq.
  - unfold int64. rewrite !andb_true_iff, !Z.leb_le, !Z.ltb_lt. lia.
Qed.

Lemma inbox_range (l : nat) (x : Z) : (l <= 63)%nat ->
  inbox (S l) x <-> - 2 ^ Z.of_nat l <= x < 2 ^ Z.of_nat l.
Proof.
  intros Hl. simpl. unfold int64.
  assert (2 ^ Z.of_nat l <= 2 ^ 63) by (apply Z.pow_le_mono_r; lia). lia.
Qed.

Lemma Cell_plane c s (l : nat) t q x y : inv c s -> abs s (S l) t = Some q ->
  (l <= 63)%nat -> inbox (S l) x -> inbox (S l) y ->
  Cell t x y s = Ok (Z.b2z (plane (S l) q x y)) s.
Proof.
  intros Hi Ha Hl Hx Hy.
  rewrite (Cell_inbox c s (S l) t q x y Hi Ha Hx Hy).
  rewrite cellb_plane; eauto using abs_wf.
Qed.

Lemma cellOrDead_plane c s (l : nat) t q x y : inv c s -> abs s (S l) t = Some q ->
  (l <= 63)%nat -> cellOrDead s (S l) t x y = plane (S l) q x y.
Proof.
  intros Hi Ha Hl. unfold cellOrDead.
  destruct (inboxb (S l) x) eqn:Ex; [destruct (inboxb (S l) y) eqn:Ey|]; cbn [andb].
  - apply inboxb_spec in Ex, Ey.
    rewrite (Cell_plane c s l t q x y Hi Ha Hl Ex Ey).
    destruct (plane (S l) q x y); reflexivity.
  - symmetry. apply plane_out. intros [_ Hy].
    apply (inbox_range l y Hl) in Hy. apply inboxb_spec in Hy. congruence.
  - symmetry. apply plane_out. intros [Hx _].
    apply (inbox_range l x Hl) in Hx. apply inboxb_spec in Hx. congruence.
Qed.

(** ** [SetCell] and [Cell] *)

Lemma SetCell_Cell_spec c s (l : nat) t q x y v :
  inv c s -> abs s l t = Some q -> inbox l x -> inbox l y ->
  exists r s' q', SetCell t x y v s = Ok r s' /\ inv c s' /\ ext s s' /\
    abs s' l r = Some q' /\ qset l q x y (negb (v =? 0)) = Some q' /\
    findLeaf r x y s' = Ok (leafPtr (negb (v =? 0))) s' /\
    Cell r x y s' = Ok (Z.b2z (negb (v =? 0))) s'.
Proof.
  intros Hi Ha Hx Hy.
  pose proof (abs_uint c s l t q Hi Ha) as Hu.
  destruct (qset_get l (negb (v =? 0)) Hu q x y (abs_wf s l t q Ha)
              (inbox_dbox l x Hx) (inbox_dbox l y Hy)) as (q' & Hs & Hw & Hg).
  pose proof (SetCell_spec c s l t q x y v Hi Ha) as H. rewrite Hs in H.
  destruct H as (r & s' & Hrun & Hi' & He & Hr).
  exists r, s', q'.
  split; [exact Hrun|]. split; [exact Hi'|]. split; [exact He|].
  split; [exact Hr|]. split; [exact Hs|]. split.
  - pose proof (findLeaf_spec c s' l r q' x y Hi' Hr) as H. rewrite Hg in H. exact H.
  - pose proof (Cell_spec c s' l r q' x y Hi' Hr) as H. rewrite Hg in H. exact H.
Qed.

Lemma SetCell_frame_spec c s s' (l : nat) t r q q' x y x' y' b :
  inv c s -> inv c s' -> abs s l t = Some q -> abs s' l r = Some q' ->
  qset l q x y b = Some q' ->
  inbox l x -> inbox l y -> inbox l x' -> inbox l y' -> (x', y') <> (x, y) ->
  exists v, Cell t x' y' s = Ok v s /\ Cell r x' y' s' = Ok v s'.
Proof.
  intros Hi Hi' Ha Hr Hs Hx Hy Hx' Hy' Hne.
  destruct l as [|l].
  - simpl in *. exfalso. apply Hne. congruence.
  - pose proof (abs_uint c s _ t q Hi Ha) as Hu.
    pose proof (abs_wf s _ t q Ha) as Hw.
    assert (Hne' : (x, y) <> (x', y')) by congruence.
    pose proof (qset_frame l b Hu q q' x y x' y' Hw Hx Hy Hx' Hy' Hne' Hs) as Hf.
    destruct (qfind_total (S l) Hu q x' y' Hw Hx' Hy') as [v Hv].
    exists (Z.b2z v). split.
    + pose proof (Cell_spec c s (S l) t q x' y' Hi Ha) as H. rewrite Hv in H. exact H.
    + pose proof (Cell_spec c s' (S l) r q' x' y' Hi' Hr) as H.
      rewrite Hf, Hv in H. exact H.
Qed.

(** ** Sample states *)

(** Closed facts about sample runs, by evaluation. *)
Ltac by_compute :=
  vm_compute; repeat split; try reflexivity; try discriminate;
  try (intros ?; discriminate); try (eexists; reflexivity).

Lemma reach_empty1 : reachable_keeping (state_of run_empty1).
Proof.
  apply (keep_step init (OpEmptyTree 1) (value_of run_empty1) (state_of run_empty1) keep_init);
    by_compute.
Qed.

Lemma reach_empty2 : reachable_keeping (state_of run_empty2).
Proof.
  apply (keep_step init (OpEmptyTree 2) (value_of run_empty2) (state_of run_empty2) keep_init);
    by_compute.
Qed.

Lemma reach_dot2 : reachable_keeping (state_of run_dot2).
Proof.
  apply (keep_step (state_of run_empty2) (OpSetCell (value_of run_empty2) 0 0 1)
           (value_of run_dot2) (state_of run_dot2) reach_empty2);
    [split; [exists 2%nat|]| |]; by_compute.
Qed.

(** ** C3, C9: [SetCell] and [Cell] *)

(** C3. For every tree [t] (of any level [l], in any state the public
    operations reach), every coordinate [(x, y)] inside [t]'s box and every
    [v] in {0, 1}: [SetCell] returns a tree [r] with [Cell r x y = v], and at
    every other coordinate [(x', y')] of the box [Cell r x' y'] is
    [Cell t x' y']. *)
Theorem SetCell_changes_one_cell (s : state) (l : nat) (t : ptr) (x y v : Z) :
  reachable s -> is_tree s l t -> inbox l x -> inbox l y -> v = 0 \/ v = 1 ->
  exists r s',
    SetCell t x y v s = Ok r s' /\ is_tree s' l r /\
    Cell r x y s' = Ok v s' /\
    forall x' y', inbox l x' -> inbox l y' -> (x', y') <> (x, y) ->
      exists c, Cell t x' y' s = Ok c s /\ Cell r x' y' s' = Ok c s'.
Proof.
  intros Hreach [q Ha] Hx Hy Hv.
  pose proof (reachable_inv s Hreach) as Hi.
  destruct (SetCell_Cell_spec false s l t q x y v Hi Ha Hx Hy)
    as (r & s' & q' & Hrun & Hi' & He & Hr & Hs & _ & Hc).
  exists r, s'. split; [exact Hrun|]. split; [exists q'; exact Hr|]. split.
  - rewrite Hc. destruct Hv as [-> | ->]; reflexivity.
  - intros x' y' Hx' Hy' Hne.
    apply (SetCell_frame_spec false s s' l t r q q' x y x' y' _ Hi Hi' Ha Hr Hs); auto.
Qed.

Lemma SetCell_changes_one_cell_witness :
  exists r s',
    SetCell (value_of run_empty2) 1 1 1 (state_of run_empty2) = Ok r s' /\
    Cell r 1 1 s' = Ok 1 s' /\
    exists c, Cell (value_of run_empty2) 0 0 (state_of run_empty2)
              = Ok c (state_of run_empty2) /\ Cell r 0 0 s' = Ok c s'.
Proof.
  destruct (SetCell_changes_one_cell (state_of run_empty2) 2 (value_of run_empty2) 1 1 1)
    as (r & s' & Hrun & _ & Hc & Hf).
  - apply reachable_keeping_reachable, reach_empty2.
  - by_compute.
  - by_compute.
  - by_compute.
  - right. reflexivity.
  - exists r, s'. split; [exact Hrun|]. split; [exact Hc|].
    apply Hf; by_compute.
Defined.

(** C9. For every tree [t], every in-range coordinate [(x, y)] and every
    nonzero value [v] (any [v <> 0], not only 1), [SetCell t x y v] stores the
    live leaf at that position: [findLeaf] of the result returns [liveLeaf] and
    [Cell] returns exactly 1. *)
Theorem SetCell_nonzero_is_live (s : state) (l : nat) (t : ptr) (x y v : Z) :
  reachable s -> is_tree s l t -> inbox l x -> inbox l y -> v <> 0 ->
  exists r s',
    SetCell t x y v s = Ok r s' /\
    findLeaf r x y s' = Ok liveLeaf s' /\ Cell r x y s' = Ok 1 s'.
Proof.
  intros Hreach [q Ha] Hx Hy Hv.
  pose proof (reachable_inv s Hreach) as Hi.
  destruct (SetCell_Cell_spec false s l t q x y v Hi Ha Hx Hy)
    as (r & s' & q' & Hrun & _ & _ & _ & _ & Hf & Hc).
  destruct (Z.eqb_spec v 0) as [E|_]; [contradiction|].
  exists r, s'. auto.
Qed.

Lemma SetCell_nonzero_is_live_witness :
  exists r s',
    SetCell (value_of run_empty2) (-2) 1 (-7) (state_of run_empty2) = Ok r s' /\
    findLeaf r (-2) 1 s' = Ok liveLeaf s' /\ Cell r (-2) 1 s' = Ok 1 s'.
Proof.
  apply (SetCell_nonzero_is_live (state_of run_empty2) 2 (value_of run_empty2) (-2) 1 (-7)).
  - apply reachable_keeping_reachable, reach_empty2.
  - by_compute.
  - by_compute.
  - by_compute.
  - discriminate.
Defined.

(** ** C2: the Life rule of [oneGen] *)

(** C2. For every 16-bit bitmask [b], [oneGen b] returns the live leaf if,
    among the eight neighbour bits selected by the mask 0b0111_0101_0111
    (bits 0..2, 4 and 6, 8..10), exactly 3 are set, or exactly 2 are set and
    bit 5 (the cell itself) is set; otherwise it returns the dead leaf. *)
Theorem oneGen_life_rule (b : Z) :
  0 <= b < 2 ^ 16 ->
  oneGen b = Some (if (windowCount b =? 3) || ((windowCount b =? 2) && Z.testbit b 5)
                   then liveLeaf else deadLeaf).
Proof. intros Hb. apply (oneGen_window b Hb). Qed.

Lemma oneGen_life_rule_witness :
  oneGen 0x0320 = Some (if (windowCount 0x0320 =? 3)
                           || ((windowCount 0x0320 =? 2) && Z.testbit 0x0320 5)
                        then liveLeaf else deadLeaf).
Proof. apply (oneGen_life_rule 0x0320). vm_compute. split; [discriminate|reflexivity]. Defined.

(** ** C10: [GrowToFit] on a leaf *)

(** C10. [GrowToFit] called on a level-0 node panics for every coordinate
    pair: at level 0 the fit test fails for all [(x, y)], so [grow] is called,
    and [grow] refuses a tree of level below 1 (as it refuses one of level 63
    or more). *)
Theorem GrowToFit_leaf_panics (s : state) (qt : ptr) (n : Quadtree) (x y : Z) :
  heap s !! qt = Some n -> Level n = 0 ->
  fits 0 x y = false /\
  GrowToFit qt x y s = Panic (GrowBaby 0) /\
  forall t m, heap s !! t = Some m -> Level m < 1 \/ 63 <= Level m ->
    grow t s = Panic (if 63 <=? Level m then GrowBeyond (Level m) else GrowBaby (Level m)).
Proof.
  intros Hp HL.
  assert (Hfit : fits 0 x y = false).
  { unfold fits. change (shl64 1 (wrapu (0 - 1))) with 0.
    change (wrap64 (0 - 1)) with (-1). change (wrap64 (- 0)) with 0.
    destruct (Z.leb_spec x (-1)), (Z.leb_spec 0 x); try reflexivity; try lia.
    all: destruct (y <=? -1); reflexivity. }
  split; [exact Hfit|]. split.
  - unfold GrowToFit. cbn [GrowToFit_fuel].
    rewrite (bind_deref s qt n _ Hp), HL, Hfit.
    unfold bind, grow, bind, deref. rewrite Hp, HL. reflexivity.
  - intros t m Ht Hm. unfold grow, bind, deref. rewrite Ht.
    destruct (Z.leb_spec 63 (Level m)); [reflexivity|].
    destruct (Z.ltb_spec (Level m) 1); [reflexivity|lia].
Qed.

Lemma GrowToFit_leaf_panics_witness :
  GrowToFit deadLeaf 0 0 init = Panic (GrowBaby 0).
Proof.
  apply (GrowToFit_leaf_panics init deadLeaf deadNode 0 0); reflexivity.
Defined.

(** ** C1: [NextGen] *)

Lemma NextGen_plane c s (l : nat) t q :
  inv c s -> (c = true -> Z.of_nat (size (nodeMap s)) <= cacheLimit) ->
  abs s (S l) t = Some q -> (l <= 61)%nat ->
  exists r s' qr, NextGen t s = Ok r s' /\ inv c s' /\ abs s' (S l) r = Some qr /\
    forall x y, inbox (S l) x -> inbox (S l) y ->
      plane (S l) qr x y = life (plane (S l) q) x y.
Proof.
  intros Hi Hc Ha Hl.
  destruct (NextGen_post c s (S l) t q Hi Hc Ha ltac:(lia)) as (r & s' & Hrun & Hi' & _ & Hr).
  exists r, s', (qnext (S (S l)) (qgrow (S l) q)).
  split; [exact Hrun|]. split; [exact Hi'|]. split; [exact Hr|].
  intros x y Hx Hy.
  pose proof (abs_wf s _ t q Ha) as Hw.
  apply inbox_range in Hx, Hy; try lia.
  rewrite plane_life by (auto using qgrow_wf).
  apply life_map. intros du dv _ _. apply plane_grow, Hw.
Qed.

(** C1 (as amended). For every tree [t] of level [l] with [1 <= l <= 62],
    [NextGen t] returns a tree of the same level [l], and for every
    coordinate [(x, y)] of the box the cell of the result at [(x, y)] is the
    Game-of-Life rule applied to the 3x3 neighbourhood of [(x, y)] in [t],
    cells outside [t]'s box counting as dead. *)
Theorem NextGen_is_life (s : state) (l : nat) (t : ptr) :
  reachable s -> is_tree s l t -> (1 <= l <= 62)%nat ->
  exists r s',
    NextGen t s = Ok r s' /\ is_tree s' l r /\
    forall x y, inbox l x -> inbox l y ->
      Cell r x y s' = Ok (Z.b2z (life (cellOrDead s l t) x y)) s'.
Proof.
  intros Hreach [q Ha] Hl. destruct l as [|l]; [lia|].
  pose proof (reachable_inv s Hreach) as Hi.
  destruct (NextGen_plane false s l t q Hi ltac:(discriminate) Ha ltac:(lia))
    as (r & s' & qr & Hrun & Hi' & Hr & Hlife).
  exists r, s'. split; [exact Hrun|]. split; [exists qr; exact Hr|].
  intros x y Hx Hy.
  rewrite (Cell_plane false s' l r qr x y Hi' Hr ltac:(lia) Hx Hy).
  rewrite (Hlife x y Hx Hy). do 2 f_equal.
  apply life_map. intros du dv _ _. symmetry.
  apply (cellOrDead_plane false s l t q _ _ Hi Ha). lia.
Qed.

Lemma NextGen_is_life_witness :
  exists r s',
    NextGen (value_of run_dot2) (state_of run_dot2) = Ok r s' /\
    Cell r 0 0 s' = Ok (Z.b2z (life (cellOrDead (state_of run_dot2) 2 (value_of run_dot2)) 0 0)) s'.
Proof.
  destruct (NextGen_is_life (state_of run_dot2) 2 (value_of run_dot2))
    as (r & s' & Hrun & _ & Hc).
  - apply reachable_keeping_reachable, reach_dot2.
  - by_compute.
  - lia.
  - exists r, s'. split; [exact Hrun|]. apply Hc; by_compute.
Defined.

(** C1 as stated fails at level 63: [grow] refuses the tree. *)
Lemma NextGen_level63_panics :
  exists s t, reachable s /\ is_tree s 63 t /\ NextGen t s = Panic (GrowBeyond 63).
Proof.
  destruct (EmptyTree_post true init 63 inv_init ltac:(by_compute))
    as (t & s & Hrun & Hi & _ & Ha).
  exists s, t. split; [|split; [exists (qempty 63); exact Ha|]].
  - apply (reach_step init (OpEmptyTree 63) t s reach_init); [by_compute|exact Hrun].
  - destruct (abs_alloc true s 63 t _ Hi Ha) as [n Hp].
    pose proof (abs_Level true s 63 t _ n Hi Ha Hp) as HL.
    unfold NextGen, bind, discardCache.
    destruct (cacheLimit <? Z.of_nat (size (nodeMap s)));
      unfold grow, bind, deref; cbn [heap]; rewrite Hp, HL; reflexivity.
Qed.

(** ** C5: [NewTree] *)

(** C5 (as amended). [NewTree] never fails when its four children are nodes
    (non-nil), whether or not their levels agree; it compares no levels, and
    the node it returns has the given children and the level of the NE child
    plus one. *)
Theorem NewTree_never_fails (s : state) (ch : Childs) (nse nsw nnw nne : Quadtree) :
  reachable s ->
  heap s !! SE ch = Some nse -> heap s !! SW ch = Some nsw ->
  heap s !! NW ch = Some nnw -> heap s !! NE ch = Some nne ->
  exists r s' n,
    NewTree ch s = Ok r s' /\ heap s' !! r = Some n /\
    childs n = ch /\ Level n = wrapu (Level nne + 1).
Proof.
  intros Hreach H1 H2 H3 H4.
  pose proof (reachable_inv s Hreach) as Hi.
  destruct (NewTree_post false s ch nne Hi ltac:(eauto) ltac:(eauto) ltac:(eauto) H4)
    as (r & s' & Hrun & _ & _ & _ & n & Hn).
  exists r, s', n. tauto.
Qed.

Lemma NewTree_never_fails_witness :
  exists r s' n,
    NewTree (mkChilds deadLeaf deadLeaf deadLeaf (value_of run_empty1)) (state_of run_empty1)
      = Ok r s' /\
    heap s' !! r = Some n /\ Level n = 2.
Proof.
  destruct (NewTree_never_fails (state_of run_empty1)
              (mkChilds deadLeaf deadLeaf deadLeaf (value_of run_empty1))
              deadNode deadNode deadNode
              (mkQuadtree 1 (mkChilds deadLeaf deadLeaf deadLeaf deadLeaf) 0 nil))
    as (r & s' & n & Hrun & Hn & _ & HL).
  - apply reachable_keeping_reachable, reach_empty1.
  - by_compute.
  - by_compute.
  - by_compute.
  - by_compute.
  - exists r, s', n. auto.
Defined.

(** C5 as stated fails: children of levels 0, 0, 0 and 1 are accepted. *)
Lemma NewTree_accepts_mixed_levels :
  exists s ch nse nne r s',
    reachable s /\ heap s !! SE ch = Some nse /\ heap s !! NE ch = Some nne /\
    Level nse <> Level nne /\ NewTree ch s = Ok r s'.
Proof.
  exists (state_of run_empty1),
    (mkChilds deadLeaf deadLeaf deadLeaf (value_of run_empty1)).
  do 4 eexists. split; [apply reachable_keeping_reachable, reach_empty1|].
  split; [vm_compute; reflexivity|]. split; [vm_compute; reflexivity|].
  split; [vm_compute; discriminate|]. vm_compute. reflexivity.
Qed.

(** ** C4: handles and regions *)

Lemma Cell_value c s (l : nat) t q x y : inv c s -> abs s l t = Some q ->
  inbox l x -> inbox l y -> Cell t x y s = Ok (Z.b2z (cellb l q x y)) s.
Proof. intros Hi Ha Hx Hy. apply (Cell_inbox c s l t q x y Hi Ha); apply inbox_dbox; auto. Qed.

Lemma same_cells_same_picture c s (l : nat) a b qa qb :
  inv c s -> (l <= 64)%nat -> abs s l a = Some qa -> abs s l b = Some qb ->
  (forall x y, inbox l x -> inbox l y -> Cell a x y s = Cell b x y s) -> qa = qb.
Proof.
  intros Hi Hl Ha Hb H.
  assert (Hc : forall x y, inbox l x -> inbox l y -> cellb l qa x y = cellb l qb x y).
  { intros x y Hx Hy. specialize (H x y Hx Hy).
    rewrite (Cell_value c s l a qa x y Hi Ha Hx Hy) in H.
    rewrite (Cell_value c s l b qb x y Hi Hb Hx Hy) in H.
    injection H as H. destruct (cellb l qa x y), (cellb l qb x y); auto; discriminate. }
  pose proof (abs_wf s l a qa Ha) as Wa. pose proof (abs_wf s l b qb Hb) as Wb.
  destruct l as [|l].
  - apply qwf_0_inv in Wa as [u ->]. apply qwf_0_inv in Wb as [v ->].
    specialize (Hc 0 0 eq_refl eq_refl). unfold cellb in Hc. simpl in Hc. congruence.
  - apply (plane_unique l qa qb Wa Wb). intros x y Hx Hy.
    apply inbox_range in Hx, Hy; try lia.
    rewrite <- !cellb_plane by (auto; lia). auto.
Qed.

(** C4 (as amended). For all trees [a] and [b] of levels at most 16 in a
    state reached by public operations during which [NextGen] never emptied
    the cache: [a] and [b] are the same handle if and only if they have the
    same level and [Cell] agrees on them at every coordinate of the box. *)
Theorem handle_identity_up_to_16 (s : state) (la lb : nat) (a b : ptr) :
  reachable_keeping s -> is_tree s la a -> is_tree s lb b ->
  (la <= 16)%nat -> (lb <= 16)%nat ->
  (a = b <->
   la = lb /\ forall x y, inbox la x -> inbox la y -> Cell a x y s = Cell b x y s).
Proof.
  intros Hreach [qa Ha] [qb Hb] Hla Hlb.
  pose proof (reachable_keeping_inv s Hreach) as Hi.
  split.
  - intros <-. split; [eapply abs_level; eauto|]. reflexivity.
  - intros [<- H].
    assert (qa = qb) as <-
      by (eapply (same_cells_same_picture true s la a b); eauto; lia).
    eapply canon_unique; eauto.
Qed.

Lemma reach_first2 : reachable_keeping (state_of run_first2).
Proof.
  apply (keep_step (state_of run_dot2) (OpSetCell (value_of run_dot2) (-1) (-1) 1)
           (value_of run_first2) (state_of run_first2) reach_dot2);
    [split; [exists 2%nat|]| |]; by_compute.
Qed.

Lemma reach_other2 : reachable_keeping (state_of run_other2).
Proof.
  apply (keep_step (state_of run_first2) (OpSetCell (value_of run_empty2) (-1) (-1) 1)
           (value_of run_other2) (state_of run_other2) reach_first2);
    [split; [exists 2%nat|]| |]; by_compute.
Qed.

Lemma reach_second2 : reachable_keeping (state_of run_second2).
Proof.
  apply (keep_step (state_of run_other2) (OpSetCell (value_of run_other2) 0 0 1)
           (value_of run_second2) (state_of run_second2) reach_other2);
    [split; [exists 2%nat|]| |]; by_compute.
Qed.

Lemma handle_identity_up_to_16_witness :
  (value_of run_first2 = value_of run_second2 <->
   2%nat = 2%nat /\
   forall x y, inbox 2 x -> inbox 2 y ->
     Cell (value_of run_first2) x y (state_of run_second2)
     = Cell (value_of run_second2) x y (state_of run_second2)) /\
  (value_of run_dot2 = value_of run_other2 <->
   2%nat = 2%nat /\
   forall x y, inbox 2 x -> inbox 2 y ->
     Cell (value_of run_dot2) x y (state_of run_second2)
     = Cell (value_of run_other2) x y (state_of run_second2)).
Proof.
  split.
  - apply (handle_identity_up_to_16 (state_of run_second2) 2 2).
    + exact reach_second2.
    + by_compute.
    + by_compute.
    + lia.
    + lia.
  - apply (handle_identity_up_to_16 (state_of run_second2) 2 2).
    + exact reach_second2.
    + by_compute.
    + by_compute.
    + lia.
    + lia.
Defined.

Lemma twin17_distinct :
  match run_twin17 with Ok (a, b) _ => a <> b | _ => False end.
Proof. vm_compute. discriminate. Qed.

(** C4 as stated fails at level 17: setting the same cell twice in the empty
    tree gives two handles for one region, with the cache never emptied. *)
Lemma equal_regions_distinct_handles :
  exists s a b,
    reachable_keeping s /\ is_tree s 17 a /\ is_tree s 17 b /\
    (forall x y, inbox 17 x -> inbox 17 y -> Cell a x y s = Cell b x y s) /\
    a <> b.
Proof.
  assert (H0 : inbox 17 0) by by_compute.
  assert (H1 : int64 1) by by_compute.
  destruct (EmptyTree_post true init 17 inv_init ltac:(by_compute))
    as (e & s1 & R1 & I1 & _ & A1).
  change (Z.of_nat 17) with 17 in R1.
  destruct (SetCell_Cell_spec true s1 17 e _ 0 0 1 I1 A1 H0 H0)
    as (a & s2 & q & R2 & I2 & E2 & A2 & S2 & _).
  pose proof (abs_mono s1 s2 E2 _ _ _ A1) as A1'.
  destruct (SetCell_Cell_spec true s2 17 e _ 0 0 1 I2 A1' H0 H0)
    as (b & s3 & q' & R3 & I3 & E3 & A3 & S3 & _).
  assert (q' = q) as -> by congruence.
  pose proof (abs_mono s2 s3 E3 _ _ _ A2) as A2'.
  exists s3, a, b. split; [|split; [exists q; exact A2'|split; [exists q; exact A3|split]]].
  - assert (K1 : reachable_keeping s1).
    { apply (keep_step init (OpEmptyTree 17) e s1 keep_init); [by_compute|exact I|exact R1]. }
    assert (K2 : reachable_keeping s2).
    { apply (keep_step s1 (OpSetCell e 0 0 1) a s2 K1); [|exact I|exact R2].
      split; [exists 17%nat, (qempty 17); exact A1|]. by_compute. }
    apply (keep_step s2 (OpSetCell e 0 0 1) b s3 K2); [|exact I|exact R3].
    split; [exists 17%nat, (qempty 17); exact A1'|]. by_compute.
  - intros x y Hx Hy.
    rewrite (Cell_value true s3 17 a q x y I3 A2' Hx Hy).
    rewrite (Cell_value true s3 17 b q x y I3 A3 Hx Hy). reflexivity.
  - pose proof twin17_distinct as H. unfold run_twin17, bind in H.
    rewrite R1, R2, R3 in H. exact H.
Qed.

(** ** C6: [centeredSubnode] *)

(** C6 (as amended). For every node [t] of level at least 2,
    [centeredSubnode t] is a node one level down whose children are
    [t.SE.NW], [t.SW.NE], [t.NW.SE], [t.NE.SW] in the quadrants SE, SW, NW, NE
    respectively, and it is the center quarter of [t]: its cell at corner
    coordinates [(i, j)] is [t]'s cell at [(i + 2^(l-2), j + 2^(l-2))], and
    on levels up to 64 [Cell] reads the same value from it and from [t] at
    every coordinate of the smaller box. *)
Theorem centeredSubnode_center (s : state) (l : nat) (t : ptr)
    (n nse nsw nnw nne : Quadtree) :
  reachable s -> is_tree s (S (S l)) t ->
  heap s !! t = Some n ->
  heap s !! SE (childs n) = Some nse -> heap s !! SW (childs n) = Some nsw ->
  heap s !! NW (childs n) = Some nnw -> heap s !! NE (childs n) = Some nne ->
  exists r s' nr q qr,
    centeredSubnode t s = Ok r s' /\ heap s' !! r = Some nr /\
    childs nr = mkChilds (NW (childs nse)) (NE (childs nsw))
                         (SE (childs nnw)) (SW (childs nne)) /\
    abs s (S (S l)) t = Some q /\ abs s' (S l) r = Some qr /\
    (forall i j, 0 <= i < 2 ^ Z.of_nat (S l) -> 0 <= j < 2 ^ Z.of_nat (S l) ->
       qat (S l) qr i j = qat (S (S l)) q (i + 2 ^ Z.of_nat l) (j + 2 ^ Z.of_nat l)) /\
    ((l <= 62)%nat -> forall x y, inbox (S l) x -> inbox (S l) y ->
       exists c, Cell r x y s' = Ok c s' /\ Cell t x y s = Ok c s).
Proof.
  intros Hreach [q Ha] Hp H1 H2 H3 H4.
  pose proof (reachable_inv s Hreach) as Hi.
  destruct (centeredSubnode_post false s l t q Hi Ha) as (r & s' & Hrun & Hi' & He & Hr).
  destruct (centeredSubnode_childs false s l t q n nse nsw nnw nne Hi Ha Hp H1 H2 H3 H4)
    as (r' & s'' & Hrun' & _ & _ & nr & Hnr & Hc).
  assert (r' = r /\ s'' = s') as [-> ->] by (split; congruence).
  pose proof (abs_wf s _ t q Ha) as Hw.
  destruct (win_centered l q _ 0 0 (win_self _ q Hw)) as [Hwr Hwin0].
  assert (Hwin : forall i j, 0 <= i < 2 ^ Z.of_nat (S l) -> 0 <= j < 2 ^ Z.of_nat (S l) ->
            qat (S l) (qcentered q) i j
            = qat (S (S l)) q (i + 2 ^ Z.of_nat l) (j + 2 ^ Z.of_nat l)).
  { intros i j Hi0 Hj0. rewrite (Hwin0 i j Hi0 Hj0). f_equal; lia. }
  exists r, s', nr, q, (qcentered q).
  split; [exact Hrun|]. split; [exact Hnr|]. split; [exact Hc|].
  split; [exact Ha|]. split; [exact Hr|]. split; [exact Hwin|].
  intros Hl x y Hx Hy.
  exists (Z.b2z (plane (S l) (qcentered q) x y)).
  split; [apply (Cell_plane false s' l r _ x y Hi' Hr); auto; lia|].
  pose proof Hx as Hx'. pose proof Hy as Hy'.
  apply inbox_range in Hx', Hy'; try lia.
  assert (Hbig : forall z, - 2 ^ Z.of_nat l <= z < 2 ^ Z.of_nat l -> inbox (S (S l)) z).
  { intros z Hz. apply inbox_range; [lia|]. rewrite pow2_S. lia. }
  rewrite (Cell_plane false s (S l) t q x y Hi Ha ltac:(lia) (Hbig x Hx') (Hbig y Hy')).
  rewrite !plane_in by (rewrite ?pow2_S; lia).
  rewrite Hwin by (rewrite pow2_S; lia). rewrite pow2_S. do 3 f_equal; lia.
Qed.

Lemma centeredSubnode_center_witness :
  exists r s' nr,
    centeredSubnode (value_of run_dot2) (state_of run_dot2) = Ok r s' /\
    heap s' !! r = Some nr /\
    childs nr = mkChilds liveLeaf deadLeaf deadLeaf deadLeaf.
Proof.
  pose (s := state_of run_dot2). pose (n := node_at s (value_of run_dot2)).
  destruct (centeredSubnode_center s 0 (value_of run_dot2) n
              (node_at s (SE (childs n))) (node_at s (SW (childs n)))
              (node_at s (NW (childs n))) (node_at s (NE (childs n))))
    as (r & s' & nr & q & qr & Hrun & Hnr & Hc & _).
  - apply reachable_keeping_reachable, reach_dot2.
  - by_compute.
  - by_compute.
  - by_compute.
  - by_compute.
  - by_compute.
  - by_compute.
  - exists r, s', nr. split; [exact Hrun|]. split; [exact Hnr|].
    rewrite Hc. vm_compute. reflexivity.
Defined.

(** C6 as stated fails: the NE child of the result is [t.NE.SW], not
    [t.SE.NW]. *)
Lemma centeredSubnode_NE_is_not_SE_NW :
  exists s t n nse r s' nr,
    reachable s /\ is_tree s 2 t /\
    heap s !! t = Some n /\ heap s !! SE (childs n) = Some nse /\
    centeredSubnode t s = Ok r s' /\ heap s' !! r = Some nr /\
    NE (childs nr) <> NW (childs nse).
Proof.
  exists (state_of run_dot2), (value_of run_dot2). do 5 eexists.
  split; [apply reachable_keeping_reachable, reach_dot2|].
  split; [by_compute|].
  split; [vm_compute; reflexivity|]. split; [vm_compute; reflexivity|].
  split; [vm_compute; reflexivity|]. split; [vm_compute; reflexivity|].
  vm_compute. discriminate.
Qed.

(** ** C7: centering a grown tree *)

Lemma qcentered_qgrow (l : nat) (q : quad) : qwf (S l) q -> qcentered (qgrow (S l) q) = q.
Proof.
  intros H. apply qwf_S_inv in H as (se & sw & nw & ne & -> & _). reflexivity.
Qed.

Lemma qcenteredSS_qgrow (l : nat) (q : quad) : qwf (S l) q ->
  qcenteredSS (qgrow (S (S l)) (qgrow (S l) q)) = q.
Proof.
  intros H. apply qwf_S_inv in H as (se & sw & nw & ne & -> & _). reflexivity.
Qed.

(** C7 (as amended). For every tree [t] of level [l] with [1 <= l <= 16], in
    a state reached without the cache being emptied,
    [centeredSubnode (grow t)] is the handle [t] itself; in particular for
    every level-2 tree [centeredSubSubnode (grow (grow t))] is [t]. *)
Theorem grow_then_center (s : state) (l : nat) (t : ptr) :
  reachable_keeping s -> is_tree s l t -> (1 <= l <= 16)%nat ->
  (exists s', (let! g := grow t in centeredSubnode g) s = Ok t s') /\
  (l = 2%nat ->
   exists s', (let! g := grow t in let! g2 := grow g in centeredSubSubnode g2) s = Ok t s').
Proof.
  intros Hreach [q Ha] Hl. destruct l as [|l]; [lia|].
  pose proof (reachable_keeping_inv s Hreach) as Hi.
  pose proof (abs_wf s _ t q Ha) as Hw.
  destruct (grow_post true s (S l) t q Hi Ha ltac:(lia)) as (g & s1 & Rg & I1 & E1 & Ag).
  split.
  - destruct (centeredSubnode_post true s1 l g _ I1 Ag) as (r & s2 & Rc & I2 & E2 & Ar).
    rewrite (qcentered_qgrow l q Hw) in Ar.
    pose proof (abs_mono s s2 (ext_trans _ _ _ E1 E2) _ _ _ Ha) as Ha2.
    assert (r = t) as -> by (eapply (canon_unique s2 (S l)); eauto; lia).
    exists s2. unfold bind. rewrite Rg. exact Rc.
  - intros [= ->].
    destruct (grow_post true s1 3 g _ I1 Ag ltac:(lia)) as (g2 & s2 & Rg2 & I2 & E2 & Ag2).
    destruct (centeredSubSubnode_post true s2 1 g2 _ I2 Ag2) as (r & s3 & Rc & I3 & E3 & Ar).
    rewrite (qcenteredSS_qgrow 1 q Hw) in Ar.
    pose proof (abs_mono s s3 (ext_trans _ _ _ E1 (ext_trans _ _ _ E2 E3)) _ _ _ Ha) as Ha3.
    assert (r = t) as -> by (eapply (canon_unique s3 2); eauto; lia).
    exists s3. unfold bind. rewrite Rg, Rg2. exact Rc.
Qed.

Lemma grow_then_center_witness :
  exists s', (let! g := grow (value_of run_dot2) in centeredSubnode g) (state_of run_dot2)
             = Ok (value_of run_dot2) s'.
Proof.
  destruct (grow_then_center (state_of run_dot2) 2 (value_of run_dot2)) as [H _].
  - apply reach_dot2.
  - by_compute.
  - lia.
  - exact H.
Defined.

Lemma regrow17_distinct :
  match run_regrow17 with Ok (a, r) _ => r <> a | _ => False end.
Proof. vm_compute. discriminate. Qed.

(** C7 as stated fails at level 17: a tree with a live cell is not interned,
    and centering the grown tree allocates a second node. *)
Lemma grow_then_center_level17 :
  exists s t,
    reachable_keeping s /\ is_tree s 17 t /\
    exists r s', (let! g := grow t in centeredSubnode g) s = Ok r s' /\ r <> t.
Proof.
  assert (H0 : inbox 17 0) by by_compute.
  destruct (EmptyTree_post true init 17 inv_init ltac:(by_compute))
    as (e & s1 & R1 & I1 & _ & A1).
  change (Z.of_nat 17) with 17 in R1.
  destruct (SetCell_Cell_spec true s1 17 e _ 0 0 1 I1 A1 H0 H0)
    as (a & s2 & q & R2 & I2 & E2 & A2 & S2 & _).
  destruct (grow_post true s2 17 a q I2 A2 ltac:(lia)) as (g & s3 & R3 & I3 & E3 & A3).
  destruct (centeredSubnode_post true s3 16 g _ I3 A3) as (r & s4 & R4 & I4 & E4 & A4).
  exists s2, a. split; [|split; [exists q; exact A2|]].
  - assert (K1 : reachable_keeping s1).
    { apply (keep_step init (OpEmptyTree 17) e s1 keep_init); [by_compute|exact I|exact R1]. }
    apply (keep_step s1 (OpSetCell e 0 0 1) a s2 K1); [|exact I|exact R2].
    split; [exists 17%nat, (qempty 17); exact A1|]. by_compute.
  - exists r, s4. split; [unfold bind; rewrite R3; exact R4|].
    pose proof regrow17_distinct as H. unfold run_regrow17, bind in H.
    rewrite R1, R2, R3, R4 in H. exact H.
Qed.

(** ** C8: [GrowToFit] *)

Lemma GrowToFit_fuel_grows c x y (fuel : nat) :
  forall s l t q l', inv c s -> abs s l t = Some q ->
  fitLevel fuel l x y = Some l' ->
  GrowToFit_fuel fuel t x y s = grows (l' - l) t s.
Proof.
  induction fuel as [|fuel IH]; intros s l t q l' Hi Ha Hf; [discriminate|].
  destruct (abs_alloc c s l t q Hi Ha) as [n Hp].
  pose proof (abs_Level c s l t q n Hi Ha Hp) as HL.
  cbn [fitLevel] in Hf. cbn [GrowToFit_fuel]. rewrite (bind_deref s t n _ Hp), HL.
  destruct (fits (Z.of_nat l) x y).
  - injection Hf as <-. rewrite Nat.sub_diag. reflexivity.
  - destruct ((63 <=? Z.of_nat l) || (Z.of_nat l <? 1)) eqn:Hlv; [discriminate|].
    apply orb_false_iff in Hlv as [H1 H2]. apply Z.leb_gt in H1. apply Z.ltb_ge in H2.
    pose proof (fitLevel_ge fuel x y _ _ Hf) as Hge.
    destruct (grow_post c s l t q Hi Ha ltac:(lia)) as (g & s1 & Rg & I1 & _ & Ag).
    replace (l' - l)%nat with (S (l' - S l)) by lia.
    cbn [grows]. unfold bind. rewrite Rg. apply (IH s1 (S l) g _ l' I1 Ag Hf).
Qed.

(** C8 (as amended). For every tree [t] of level [l] with [1 <= l <= 63] and
    every [(x, y)] with both coordinates in [-2^62, 2^62 - 1],
    [GrowToFit t x y] returns a tree [r] of the smallest level [l' >= l]
    whose box contains [(x, y)], obtained by [l' - l <= 62] calls of [grow];
    [r] shows [t] in the middle of dead cells; if [(x, y)] already fits then
    [r] is [t] and nothing changes; and [GrowToFit r x y] returns [r] again. *)
Theorem GrowToFit_smallest_fit (s : state) (l : nat) (t : ptr) (x y : Z) :
  reachable s -> is_tree s l t -> (1 <= l <= 63)%nat ->
  - 2 ^ 62 <= x < 2 ^ 62 -> - 2 ^ 62 <= y < 2 ^ 62 ->
  exists r s' l',
    GrowToFit t x y s = Ok r s' /\ is_tree s' l' r /\ (l <= l' <= 63)%nat /\
    inbox l' x /\ inbox l' y /\
    (forall j, (l <= j < l')%nat -> ~ (inbox j x /\ inbox j y)) /\
    grows (l' - l) t s = Ok r s' /\
    (forall u v, inbox l' u -> inbox l' v ->
       Cell r u v s' = Ok (Z.b2z (cellOrDead s l t u v)) s') /\
    (inbox l x -> inbox l y -> r = t /\ s' = s) /\
    GrowToFit r x y s' = Ok r s'.
Proof.
  intros Hreach [q Ha] Hl Hx Hy. destruct l as [|l]; [lia|].
  pose proof (reachable_inv s Hreach) as Hi.
  pose proof (abs_wf s _ t q Ha) as Hw.
  destruct (fitLevel_spec x y Hx Hy 64 l ltac:(lia) ltac:(lia))
    as (l' & E & Hr & Hfit & Hmin).
  pose proof (GrowToFit_fuel_spec false x y 64 s (S l) t q Hi Ha) as Hspec.
  rewrite E in Hspec. destruct Hspec as (r & s' & Hrun & Hi' & He & Har & Hsame).
  assert (Hin : forall j, (j <= 62)%nat -> fits (Z.of_nat (S j)) x y = true ->
                          inbox (S j) x /\ inbox (S j) y).
  { intros j Hj Hf. apply (fits_inbox j x y Hj) in Hf.
    split; apply inbox_range; lia. }
  destruct (Hin l' ltac:(lia) Hfit) as [Hbx Hby].
  exists r, s', (S l').
  split; [exact Hrun|]. split; [eexists; exact Har|]. split; [lia|].
  split; [exact Hbx|]. split; [exact Hby|]. split; [|split; [|split; [|split]]].
  - intros j Hj [Hjx Hjy]. destruct j as [|j]; [lia|].
    assert (Hf : fits (Z.of_nat (S j)) x y = true).
    { apply (fits_inbox j x y ltac:(lia)).
      apply inbox_range in Hjx, Hjy; lia. }
    rewrite Hmin in Hf by lia. discriminate.
  - rewrite <- Hrun. symmetry. apply (GrowToFit_fuel_grows false x y 64 s (S l) t q (S l') Hi Ha E).
  - intros u v Hu Hv.
    rewrite (Cell_plane false s' l' r _ u v Hi' Har ltac:(lia) Hu Hv).
    rewrite (cellOrDead_plane false s l t q u v Hi Ha ltac:(lia)).
    replace (S l') with ((S l' - S l) + S l)%nat at 1 by lia.
    rewrite plane_grows by exact Hw. reflexivity.
  - intros Hlx Hly. apply Hsame.
    destruct (Nat.eq_dec l' l) as [->|Hne]; [reflexivity|].
    assert (Hf : fits (Z.of_nat (S l)) x y = true).
    { apply (fits_inbox l x y ltac:(lia)).
      apply inbox_range in Hlx, Hly; lia. }
    rewrite Hmin in Hf by lia. discriminate.
  - destruct (abs_alloc false s' _ r _ Hi' Har) as [n Hp].
    unfold GrowToFit. cbn [GrowToFit_fuel].
    rewrite (bind_deref s' r n _ Hp), (abs_Level false s' _ r _ n Hi' Har Hp), Hfit.
    reflexivity.
Qed.

Lemma GrowToFit_smallest_fit_witness :
  exists r s',
    GrowToFit (value_of run_empty1) 3 3 (state_of run_empty1) = Ok r s' /\
    GrowToFit r 3 3 s' = Ok r s'.
Proof.
  destruct (GrowToFit_smallest_fit (state_of run_empty1) 1 (value_of run_empty1) 3 3)
    as (r & s' & l' & Hrun & _ & _ & _ & _ & _ & _ & _ & _ & Hidem).
  - apply reachable_keeping_reachable, reach_empty1.
  - by_compute.
  - lia.
  - lia.
  - lia.
  - exists r, s'. auto.
Defined.

(** C8 as stated fails for a coordinate beyond the box of level 63: the loop
    grows the tree up to level 63 and then [grow] panics. *)
Lemma GrowToFit_far_panics :
  exists s t,
    reachable s /\ is_tree s 1 t /\
    GrowToFit t (2 ^ 62) 0 s = Panic (GrowBeyond 63).
Proof.
  exists (state_of run_empty1), (value_of run_empty1).
  split; [apply reachable_keeping_reachable, reach_empty1|].
  split; [by_compute|]. vm_compute. reflexivity.
Qed.

(** ** Invariants kept by every operation *)

Lemma keeps_ret {A} (P : state -> Prop) (a : A) : keeps P (ret a).
Proof. intros s a' s' HP [= _ <-]. exact HP. Qed.

Lemma keeps_throw {A} (P : state -> Prop) (e : panic) : keeps P (@throw A e).
Proof. intros s a s' _ H. discriminate H. Qed.

Lemma keeps_diverge {A} (P : state -> Prop) : keeps P (@diverge A).
Proof. intros s a s' _ H. discriminate H. Qed.

Lemma keeps_lift {A} (P : state -> Prop) (o : option A) : keeps P (lift o).
Proof. destruct o; [apply keeps_ret|apply keeps_diverge]. Qed.

Lemma keeps_deref (P : state -> Prop) (p : ptr) : keeps P (deref p).
Proof.
  intros s a s' HP H. unfold deref in H.
  destruct (heap s !! p); [|discriminate]. injection H as _ <-. exact HP.
Qed.

Lemma keeps_bind {A B} (P : state -> Prop) (m : M A) (k : A -> M B) :
  keeps P m -> (forall a, keeps P (k a)) -> keeps P (bind m k).
Proof.
  intros Hm Hk s b s' HP H. unfold bind in H.
  destruct (m s) as [a s1| |] eqn:E; [|discriminate..].
  eapply Hk; [|exact H]. eapply Hm; eauto.
Qed.

Ltac keeps_auto :=
  repeat match goal with
         | |- keeps _ (ret _) => apply keeps_ret
         | |- keeps _ (throw _) => apply keeps_throw
         | |- keeps _ diverge => apply keeps_diverge
         | |- keeps _ (lift _) => apply keeps_lift
         | |- keeps _ (deref _) => apply keeps_deref
         | |- keeps _ (bind _ _) => apply keeps_bind; [|intros ?]
         | |- keeps _ (if ?b then _ else _) => destruct b
         | |- keeps _ _ => progress cbv zeta
         end; auto.

Section Keeps.

Context (P : state -> Prop).
Hypothesis P_NewTree : forall ch, keeps P (NewTree ch).
Hypothesis P_setNext : forall qt r, keeps P (setNext qt r).
Hypothesis P_discard : keeps P discardCache.

Lemma keeps_EmptyTree_fuel (fuel : nat) : forall level, keeps P (EmptyTree_fuel fuel level).
Proof.
  induction fuel as [|fuel IH]; intros level; cbn [EmptyTree_fuel]; keeps_auto.
Qed.

Lemma keeps_EmptyTree (level : Z) : keeps P (EmptyTree level).
Proof. apply keeps_EmptyTree_fuel. Qed.

Lemma keeps_grow (qt : ptr) : keeps P (grow qt).
Proof. unfold grow. pose proof keeps_EmptyTree. keeps_auto. Qed.

Lemma keeps_GrowToFit_fuel (fuel : nat) : forall qt x y, keeps P (GrowToFit_fuel fuel qt x y).
Proof.
  induction fuel as [|fuel IH]; intros qt x y; cbn [GrowToFit_fuel];
    pose proof keeps_grow; keeps_auto.
Qed.

Lemma keeps_SetCell_fuel (fuel : nat) :
  forall qt x y v, keeps P (SetCell_fuel fuel qt x y v).
Proof.
  induction fuel as [|fuel IH]; intros qt x y v; cbn [SetCell_fuel]; keeps_auto.
Qed.

Lemma keeps_SetCell (qt : ptr) (x y v : Z) : keeps P (SetCell qt x y v).
Proof. unfold SetCell. pose proof keeps_SetCell_fuel. keeps_auto. Qed.

Lemma keeps_findLeaf_fuel (fuel : nat) : forall qt x y, keeps P (findLeaf_fuel fuel qt x y).
Proof.
  induction fuel as [|fuel IH]; intros qt x y; cbn [findLeaf_fuel]; keeps_auto.
Qed.

Lemma keeps_Cell (qt : ptr) (x y : Z) : keeps P (Cell qt x y).
Proof. unfold Cell, findLeaf. pose proof keeps_findLeaf_fuel. keeps_auto. Qed.

Lemma keeps_centeredSubnode (qt : ptr) : keeps P (centeredSubnode qt).
Proof. unfold centeredSubnode. keeps_auto. Qed.

Lemma keeps_centeredHorizontal (w e : ptr) : keeps P (centeredHorizontal w e).
Proof. unfold centeredHorizontal. keeps_auto. Qed.

Lemma keeps_centeredVertical (n s : ptr) : keeps P (centeredVertical n s).
Proof. unfold centeredVertical. keeps_auto. Qed.

Lemma keeps_centeredSubSubnode (qt : ptr) : keeps P (centeredSubSubnode qt).
Proof. unfold centeredSubSubnode. keeps_auto. Qed.

Lemma keeps_packRow (qt : ptr) (y : Z) (xs : list Z) : forall a, keeps P (packRow qt y xs a).
Proof.
  induction xs as [|x xs IH]; intros a; cbn [packRow]; pose proof keeps_Cell; keeps_auto.
Qed.

Lemma keeps_packRows (qt : ptr) (ys : list Z) : forall a, keeps P (packRows qt ys a).
Proof.
  induction ys as [|y ys IH]; intros a; cbn [packRows]; pose proof keeps_packRow; keeps_auto.
Qed.

Lemma keeps_slowSimulation (qt : ptr) : keeps P (slowSimulation qt).
Proof. unfold slowSimulation. pose proof keeps_packRows. keeps_auto. Qed.

Lemma keeps_NextGeneration_fuel (fuel : nat) : forall qt, keeps P (NextGeneration_fuel fuel qt).
Proof.
  induction fuel as [|fuel IH]; intros qt; cbn [NextGeneration_fuel];
    pose proof keeps_slowSimulation; pose proof keeps_centeredSubnode;
    pose proof keeps_centeredHorizontal; pose proof keeps_centeredVertical;
    pose proof keeps_centeredSubSubnode; keeps_auto.
Qed.

Lemma keeps_NextGeneration (qt : ptr) : keeps P (NextGeneration qt).
Proof. unfold NextGeneration. pose proof keeps_NextGeneration_fuel. keeps_auto. Qed.

Lemma keeps_NextGen (qt : ptr) : keeps P (NextGen qt).
Proof. unfold NextGen. pose proof keeps_grow. pose proof keeps_NextGeneration. keeps_auto. Qed.

Lemma keeps_run_op (o : op) : keeps P (run_op o).
Proof.
  destruct o; simpl;
    auto using keeps_EmptyTree, keeps_SetCell, keeps_grow, keeps_NextGen.
  apply keeps_GrowToFit_fuel.
Qed.

(** What holds initially and is kept by [NewTree], by the write of the memo
    field and by the cache reset holds in every reachable state. *)
Lemma reachable_keeps : P init -> forall s, reachable s -> P s.
Proof.
  intros H0 s Hs. induction Hs as [|s o r s' _ IH _ Hrun]; [exact H0|].
  eapply keeps_run_op; eauto.
Qed.

End Keeps.

(** ** What a call of [NewTree] does to the state *)

Lemma NewTree_run (ch : Childs) (s : state) (r : ptr) (s' : state) :
  NewTree ch s = Ok r s' ->
  (nodeMap s !! ch = Some r /\ heap s' = heap s /\ nodeMap s' = nodeMap s /\
   cacheHit s' = wrapu (cacheHit s + 1) /\ cacheMiss s' = cacheMiss s) \/
  (nodeMap s !! ch = None /\
   exists nse nsw nnw nne,
     heap s !! SE ch = Some nse /\ heap s !! SW ch = Some nsw /\
     heap s !! NW ch = Some nnw /\ heap s !! NE ch = Some nne /\
     heap s !! r = None /\ r <> nil /\
     let n := mkQuadtree (wrapu (Level nne + 1)) ch
                (wrap64 (wrap64 (wrap64 (Population nse + Population nsw) + Population nnw)
                         + Population nne)) nil in
     heap s' = <[r := n]> (heap s) /\
     nodeMap s' = (if (Population n =? 0) || (Level n <=? 16)
                   then <[ch := r]> (nodeMap s) else nodeMap s) /\
     cacheHit s' = cacheHit s /\ cacheMiss s' = wrapu (cacheMiss s + 1)).
Proof.
  unfold NewTree. destruct (nodeMap s !! ch) as [qt|] eqn:Hk.
  - intros [= <- <-]. left. auto.
  - intros H. right. split; [reflexivity|].
    unfold bind, deref, population, bind, deref, alloc, ret in H. simpl in H.
    destruct (heap s !! NE ch) as [nne|] eqn:E4; simpl in H; [|discriminate].
    destruct (heap s !! SE ch) as [nse|] eqn:E1; simpl in H; [|discriminate].
    destruct (heap s !! SW ch) as [nsw|] eqn:E2; simpl in H; [|discriminate].
    destruct (heap s !! NW ch) as [nnw|] eqn:E3; simpl in H; [|discriminate].
    destruct (fresh_nil (heap s)) as [Hnil Hfresh].
    rewrite ?E4 in H. simpl in H.
    exists nse, nsw, nnw, nne. cbv zeta. cbn [Population Level].
    match type of H with
    | (if ?b then _ else _) = _ => destruct b eqn:Hc
    end; injection H as <- <-; simpl; repeat split; auto.
Qed.

(** ** The population field *)

Lemma pop_ok_heap (s s' : state) :
  (forall p n', heap s' !! p = Some n' ->
     exists n, heap s !! p = Some n /\ childs n' = childs n /\ Population n' = Population n) ->
  (forall p n, heap s !! p = Some n ->
     exists n', heap s' !! p = Some n' /\ Population n' = Population n) ->
  pop_ok s -> pop_ok s'.
Proof.
  intros Hback Hfwd Hs p n' Hp Hnl.
  destruct (Hback p n' Hp) as (n & Hn & Hc & Hpop).
  destruct (Hs p n Hn Hnl) as (a & b & c & d & Ha & Hb & Hc' & Hd & E).
  destruct (Hfwd _ _ Ha) as (a' & Ha' & Pa). destruct (Hfwd _ _ Hb) as (b' & Hb' & Pb).
  destruct (Hfwd _ _ Hc') as (c' & Hc'' & Pc). destruct (Hfwd _ _ Hd) as (d' & Hd' & Pd).
  exists a', b', c', d'. rewrite Hc. repeat split; auto. congruence.
Qed.

Lemma pop_ok_NewTree (ch : Childs) : keeps pop_ok (NewTree ch).
Proof.
  intros s r s' Hs Hrun.
  apply NewTree_run in Hrun as [(_ & Hh & _) | (_ & nse & nsw & nnw & nne & H1 & H2 & H3 & H4 & Hf & _ & Hh & _)].
  - intros p n. rewrite Hh. apply Hs.
  - cbv zeta in Hh. intros p n Hp Hnl. rewrite Hh in Hp |- *.
    assert (Hold : forall q m, heap s !! q = Some m -> <[r := mkQuadtree (wrapu (Level nne + 1)) ch
              (wrap64 (wrap64 (wrap64 (Population nse + Population nsw) + Population nnw)
                       + Population nne)) nil]> (heap s) !! q = Some m).
    { intros q m Hq. rewrite lookup_insert_ne; [exact Hq|]. congruence. }
    destruct (decide (p = r)) as [->|Hne].
    + rewrite lookup_insert_eq in Hp. injection Hp as <-. simpl.
      exists nse, nsw, nnw, nne. repeat split; auto.
    + rewrite lookup_insert_ne in Hp by congruence.
      destruct (Hs p n Hp Hnl) as (a & b & c & d & Ha & Hb & Hc & Hd & E).
      exists a, b, c, d. repeat split; auto.
Qed.

Lemma pop_ok_setNext (qt r : ptr) : keeps pop_ok (setNext qt r).
Proof.
  intros s u s' Hs Hrun. unfold setNext in Hrun.
  destruct (heap s !! qt) as [n|] eqn:Hq; [|discriminate]. injection Hrun as _ <-.
  apply (pop_ok_heap s); [| |exact Hs]; simpl.
  - intros p n' Hp. destruct (decide (p = qt)) as [->|Hne].
    + rewrite lookup_insert_eq in Hp. injection Hp as <-. exists n. auto.
    + rewrite lookup_insert_ne in Hp by congruence. exists n'. auto.
  - intros p m Hp. destruct (decide (p = qt)) as [->|Hne].
    + rewrite lookup_insert_eq. eexists. split; [reflexivity|]. simpl. congruence.
    + rewrite lookup_insert_ne by congruence. exists m. auto.
Qed.

Lemma pop_ok_discard : keeps pop_ok discardCache.
Proof.
  intros s u s' Hs Hrun. unfold discardCache in Hrun.
  destruct (_ <? _); injection Hrun as _ <-; exact Hs.
Qed.

Lemma pop_ok_init : pop_ok init.
Proof.
  intros p n Hp Hnl. exfalso. apply Hnl.
  unfold init in Hp. cbn [heap] in Hp.
  destruct (decide (p = liveLeaf)) as [->|H1]; [left; reflexivity|].
  rewrite lookup_insert_ne in Hp by auto.
  destruct (decide (p = deadLeaf)) as [->|H2]; [right; reflexivity|].
  rewrite lookup_insert_ne in Hp by auto. rewrite lookup_empty in Hp. discriminate.
Qed.

Lemma reachable_pop_ok (s : state) : reachable s -> pop_ok s.
Proof.
  apply (reachable_keeps pop_ok pop_ok_NewTree pop_ok_setNext pop_ok_discard pop_ok_init).
Qed.

Lemma qcount_bounds (l : nat) : forall q, qwf l q -> 0 <= qcount q <= 4 ^ Z.of_nat l.
Proof.
  induction l as [|l IH]; intros q Hq.
  - apply qwf_0_inv in Hq as [b ->]. destruct b; simpl; lia.
  - apply qwf_S_inv in Hq as (se & sw & nw & ne & -> & H1 & H2 & H3 & H4).
    apply IH in H1, H2, H3, H4. cbn [qcount].
    rewrite Nat2Z.inj_succ, Z.pow_succ_r by lia. lia.
Qed.

Lemma pow4_31 (l : nat) : (l <= 31)%nat -> 4 ^ Z.of_nat l <= 2 ^ 62.
Proof.
  intros Hl. change 4 with (2 ^ 2). rewrite <- Z.pow_mul_r by lia.
  apply Z.pow_le_mono_r; lia.
Qed.

(** Up to level 31 the sums cannot overflow: the field counts the live cells. *)
Lemma Population_qcount c (s : state) (l : nat) : inv c s -> pop_ok s -> (l <= 31)%nat ->
  forall p q n, abs s l p = Some q -> heap s !! p = Some n -> Population n = qcount q.
Proof.
  intros Hi Hpop. induction l as [|l IH]; intros Hl p q n Ha Hp.
  - apply abs_0_inv in Ha as (b & -> & ->).
    rewrite (leaf_lookup c s b Hi) in Hp. injection Hp as <-. destruct b; reflexivity.
  - pose proof (abs_S_nonleaf c s l p q Hi Ha) as Hnl.
    pose proof (abs_wf s _ p q Ha) as Hw.
    apply abs_S_inv in Ha as (n' & se & sw & nw & ne & Hp' & HL & -> & A1 & A2 & A3 & A4).
    assert (n' = n) as -> by congruence.
    destruct (Hpop p n Hp Hnl) as (a & b & d & e & Ha & Hb & Hd & He & E).
    rewrite E.
    rewrite (IH ltac:(lia) _ _ _ A1 Ha), (IH ltac:(lia) _ _ _ A2 Hb),
      (IH ltac:(lia) _ _ _ A3 Hd), (IH ltac:(lia) _ _ _ A4 He).
    destruct Hw as (W1 & W2 & W3 & W4).
    apply qcount_bounds in W1, W2, W3, W4.
    pose proof (pow4_31 l ltac:(lia)) as Hb4.
    assert (H4 : 4 * 4 ^ Z.of_nat l <= 2 ^ 62).
    { rewrite <- Z.pow_succ_r, <- Nat2Z.inj_succ by lia. apply pow4_31. lia. }
    cbn [qcount].
    rewrite (wrap64_id (qcount se + qcount sw)) by (unfold int64; lia).
    rewrite (wrap64_id (qcount se + qcount sw + qcount nw)) by (unfold int64; lia).
    apply wrap64_id. unfold int64. lia.
Qed.

(** ** [FindLifeCells] *)

Lemma qlive_nil (l : nat) : forall q x y, qwf l q -> qcount q = 0 -> qlive l q x y = [].
Proof.
  induction l as [|l IH]; intros q x y Hq H0.
  - apply qwf_0_inv in Hq as [b ->]. destruct b; [discriminate|reflexivity].
  - apply qwf_S_inv in Hq as (se & sw & nw & ne & -> & H1 & H2 & H3 & H4).
    pose proof (qcount_bounds l se H1). pose proof (qcount_bounds l sw H2).
    pose proof (qcount_bounds l nw H3). pose proof (qcount_bounds l ne H4).
    cbn [qcount] in H0. cbn [qlive].
    rewrite !IH by (auto; lia). reflexivity.
Qed.

Lemma qlive_length (l : nat) : forall q x y, qwf l q ->
  Z.of_nat (length (qlive l q x y)) = qcount q.
Proof.
  induction l as [|l IH]; intros q x y Hq.
  - apply qwf_0_inv in Hq as [b ->]. destruct b; reflexivity.
  - apply qwf_S_inv in Hq as (se & sw & nw & ne & -> & H1 & H2 & H3 & H4).
    cbn [qlive qcount]. rewrite !length_app, !Nat2Z.inj_add, !IH by auto. lia.
Qed.

Lemma FindLifeCells_fuel_spec {U : Type} c (s : state) (callback : Z -> Z -> U -> U) (l : nat) :
  inv c s -> pop_ok s -> (l <= 31)%nat ->
  forall (fuel : nat) p q x y u, abs s l p = Some q -> (l < fuel)%nat ->
  FindLifeCells_fuel fuel p x y callback u s
  = Ok (fold_left (fun u xy => callback (fst xy) (snd xy) u) (qlive l q x y) u) s.
Proof.
  intros Hi Hpop. induction l as [|l IH]; intros Hl fuel p q x y u Ha Hf;
    (destruct fuel as [|fuel]; [lia|]);
    destruct (abs_alloc c s _ p q Hi Ha) as [n Hp];
    pose proof (Population_qcount c s _ Hi Hpop Hl p q n Ha Hp) as HP;
    pose proof (abs_Level c s _ p q n Hi Ha Hp) as HL;
    pose proof (abs_wf s _ p q Ha) as Hw;
    cbn [FindLifeCells_fuel]; rewrite (bind_deref s p n _ Hp), HP, HL.
  - apply qwf_0_inv in Hw as [b ->]. destruct b; reflexivity.
  - destruct (Z.eqb_spec (qcount q) 0) as [E0|Hn0].
    + rewrite (qlive_nil _ q x y Hw E0). reflexivity.
    + destruct (Z.eqb_spec (Z.of_nat (S l)) 0) as [E|_]; [lia|]. cbv zeta.
      apply abs_S_inv in Ha as (n' & se & sw & nw & ne & Hp' & _ & -> & A1 & A2 & A3 & A4).
      assert (n' = n) as -> by congruence.
      cbn [qlive]. rewrite !fold_left_app. unfold bind.
      rewrite (IH ltac:(lia) fuel _ _ _ _ _ A1 ltac:(lia)).
      rewrite (IH ltac:(lia) fuel _ _ _ _ _ A2 ltac:(lia)).
      rewrite (IH ltac:(lia) fuel _ _ _ _ _ A3 ltac:(lia)).
      apply (IH ltac:(lia) fuel _ _ _ _ _ A4 ltac:(lia)).
Qed.

Lemma FindLifeCells_spec {U : Type} c (s : state) (callback : Z -> Z -> U -> U) (l : nat)
    p q x y u :
  inv c s -> pop_ok s -> (l <= 31)%nat -> abs s l p = Some q ->
  FindLifeCells p x y callback u s
  = Ok (fold_left (fun u xy => callback (fst xy) (snd xy) u) (qlive l q x y) u) s.
Proof.
  intros Hi Hpop Hl Ha. destruct (abs_alloc c s l p q Hi Ha) as [n Hp].
  unfold FindLifeCells. rewrite (bind_deref s p n _ Hp).
  rewrite (abs_Level c s l p q n Hi Ha Hp), Nat2Z.id.
  apply (FindLifeCells_fuel_spec c s callback l Hi Hpop Hl); auto.
Qed.

Lemma distance_small (l : nat) : (l <= 62)%nat ->
  shl64 1 (wrapu (Z.of_nat (S l) - 1)) = 2 ^ Z.of_nat l.
Proof.
  intros Hl. unfold shl64. replace (Z.of_nat (S l) - 1) with (Z.of_nat l) by lia.
  rewrite wrapu_id by (unfold uint; lia).
  destruct (Z.leb_spec 64 (Z.of_nat l)); [lia|]. rewrite Z.mul_1_l.
  apply wrap64_id. unfold int64. pose proof (pow2_pos l).
  assert (2 ^ Z.of_nat l <= 2 ^ 62) by (apply Z.pow_le_mono_r; lia). lia.
Qed.

(** The cells listed for a picture whose north-west corner is at [(x0, y0)],
    when the square fits the int64 range. *)
Lemma qlive_elem (l : nat) : (l <= 62)%nat ->
  forall q x0 y0 x y, qwf l q ->
  - 2 ^ 63 <= x0 -> x0 + 2 ^ Z.of_nat l <= 2 ^ 63 ->
  - 2 ^ 63 <= y0 -> y0 + 2 ^ Z.of_nat l <= 2 ^ 63 ->
  ((x, y) ∈ qlive l q x0 y0 <->
   x0 <= x < x0 + 2 ^ Z.of_nat l /\ y0 <= y < y0 + 2 ^ Z.of_nat l /\
   qat l q (x - x0) (y - y0) = true).
Proof.
  induction l as [|l IH]; intros Hl q x0 y0 x y Hq Hx0 Hx1 Hy0 Hy1.
  - apply qwf_0_inv in Hq as [b ->]. change (2 ^ Z.of_nat 0) with 1. cbn [qlive qat].
    destruct b.
    + rewrite list_elem_of_singleton. split.
      * intros [= -> ->]. repeat split; lia.
      * intros (Hx & Hy & _). f_equal; lia.
    + split; [intros H; inversion H|intros (_ & _ & H); discriminate].
  - apply qwf_S_inv in Hq as (se & sw & nw & ne & -> & H1 & H2 & H3 & H4).
    cbn [qlive]. rewrite (distance_small l ltac:(lia)).
    rewrite pow2_S in *. pose proof (pow2_pos l) as Hp.
    rewrite !(wrap64_id (_ + 2 ^ Z.of_nat l)) by (unfold int64; lia).
    rewrite !elem_of_app, !IH by (auto; lia).
    rewrite qat_S.
    destruct (Z.ltb_spec (x - x0) (2 ^ Z.of_nat l)), (Z.ltb_spec (y - y0) (2 ^ Z.of_nat l)).
    all: replace (x - (x0 + 2 ^ Z.of_nat l)) with (x - x0 - 2 ^ Z.of_nat l) by lia.
    all: replace (y - (y0 + 2 ^ Z.of_nat l)) with (y - y0 - 2 ^ Z.of_nat l) by lia.
    all: intuition lia.
Qed.

Lemma qlive_NoDup (l : nat) : (l <= 62)%nat ->
  forall q x0 y0, qwf l q ->
  - 2 ^ 63 <= x0 -> x0 + 2 ^ Z.of_nat l <= 2 ^ 63 ->
  - 2 ^ 63 <= y0 -> y0 + 2 ^ Z.of_nat l <= 2 ^ 63 ->
  NoDup (qlive l q x0 y0).
Proof.
  induction l as [|l IH]; intros Hl q x0 y0 Hq Hx0 Hx1 Hy0 Hy1.
  - apply qwf_0_inv in Hq as [b ->]. destruct b; simpl.
    + apply NoDup_singleton.
    + apply NoDup_nil_2.
  - apply qwf_S_inv in Hq as (se & sw & nw & ne & -> & H1 & H2 & H3 & H4).
    cbn [qlive]. rewrite (distance_small l ltac:(lia)).
    rewrite pow2_S in *. pose proof (pow2_pos l) as Hp.
    rewrite !(wrap64_id (_ + 2 ^ Z.of_nat l)) by (unfold int64; lia).
    assert (Hin : forall q' a b x y, qwf l q' ->
              - 2 ^ 63 <= a -> a + 2 ^ Z.of_nat l <= 2 ^ 63 ->
              - 2 ^ 63 <= b -> b + 2 ^ Z.of_nat l <= 2 ^ 63 ->
              (x, y) ∈ qlive l q' a b ->
              a <= x < a + 2 ^ Z.of_nat l /\ b <= y < b + 2 ^ Z.of_nat l).
    { intros q' a b x y Hq' Ha0 Ha1 Hb0 Hb1 Hxy.
      apply (qlive_elem l ltac:(lia)) in Hxy; auto. tauto. }
    repeat (apply NoDup_app; split; [apply IH; auto; lia|split]);
      try (apply IH; auto; lia).
    all: intros [x y] Hxy; apply Hin in Hxy; auto; try lia.
    all: rewrite ?elem_of_app; intros Hk.
    all: repeat match goal with
                | H : _ \/ _ |- _ => destruct H as [H|H]
                end.
    all: apply Hin in Hk; auto; lia.
Qed.

(** ** Populations and live cells *)

Lemma qcount_empty (l : nat) : qcount (qempty l) = 0.
Proof. induction l as [|l IH]; cbn [qempty qcount]; [reflexivity|lia]. Qed.

Lemma qcount_0_empty (l : nat) : forall q, qwf l q -> qcount q = 0 -> q = qempty l.
Proof.
  induction l as [|l IH]; intros q Hq H0.
  - apply qwf_0_inv in Hq as [b ->]. destruct b; [discriminate|reflexivity].
  - apply qwf_S_inv in Hq as (se & sw & nw & ne & -> & H1 & H2 & H3 & H4).
    pose proof (qcount_bounds l se H1). pose proof (qcount_bounds l sw H2).
    pose proof (qcount_bounds l nw H3). pose proof (qcount_bounds l ne H4).
    cbn [qcount] in H0. cbn [qempty].
    rewrite (IH se), (IH sw), (IH nw), (IH ne) by (auto; lia). reflexivity.
Qed.

(** X1. In every state the public operations reach, the [Population] field of
    an inner node is the int64 sum of the [Population] fields of its four
    children, at every level: no operation (not the write of [next], not the
    cache reset) ever breaks what [NewTree] computed. *)
Theorem Population_sum_of_children (s : state) (p : ptr) (n : Quadtree) :
  reachable s -> heap s !! p = Some n -> p <> liveLeaf -> p <> deadLeaf ->
  exists nse nsw nnw nne,
    heap s !! SE (childs n) = Some nse /\ heap s !! SW (childs n) = Some nsw /\
    heap s !! NW (childs n) = Some nnw /\ heap s !! NE (childs n) = Some nne /\
    Population n =
      wrap64 (wrap64 (wrap64 (Population nse + Population nsw) + Population nnw)
              + Population nne).
Proof.
  intros Hr Hp H1 H2. apply (reachable_pop_ok s Hr p n Hp).
  intros [E|E]; [exact (H1 E)|exact (H2 E)].
Qed.

Lemma Population_sum_of_children_witness :
  exists nse nsw nnw nne,
    heap (state_of run_dot2) !! SE (childs (node_at (state_of run_dot2) (value_of run_dot2)))
      = Some nse /\
    heap (state_of run_dot2) !! SW (childs (node_at (state_of run_dot2) (value_of run_dot2)))
      = Some nsw /\
    heap (state_of run_dot2) !! NW (childs (node_at (state_of run_dot2) (value_of run_dot2)))
      = Some nnw /\
    heap (state_of run_dot2) !! NE (childs (node_at (state_of run_dot2) (value_of run_dot2)))
      = Some nne /\
    Population (node_at (state_of run_dot2) (value_of run_dot2)) =
      wrap64 (wrap64 (wrap64 (Population nse + Population nsw) + Population nnw)
              + Population nne).
Proof.
  apply (Population_sum_of_children (state_of run_dot2) (value_of run_dot2)).
  - apply reachable_keeping_reachable, reach_dot2.
  - by_compute.
  - by_compute.
  - by_compute.
Defined.

(** X2. Up to level 31 the [Population] field of a tree is the number of its
    live cells: it lies between 0 and [4^l], and it is 0 exactly for the
    all-dead tree.  (Above level 31 the int64 sum can wrap.) *)
Theorem Population_counts_live_cells (s : state) (l : nat) (t : ptr) (n : Quadtree) :
  reachable s -> is_tree s l t -> (l <= 31)%nat -> heap s !! t = Some n ->
  exists q, abs s l t = Some q /\ Population n = qcount q /\
    0 <= Population n <= 4 ^ Z.of_nat l /\
    (Population n = 0 <-> q = qempty l).
Proof.
  intros Hr [q Ha] Hl Hp. exists q.
  pose proof (Population_qcount false s l (reachable_inv s Hr) (reachable_pop_ok s Hr) Hl
                t q n Ha Hp) as HP.
  pose proof (abs_wf s l t q Ha) as Hw.
  split; [exact Ha|]. split; [exact HP|]. rewrite HP. split.
  - apply qcount_bounds, Hw.
  - split.
    + apply qcount_0_empty, Hw.
    + intros ->. apply qcount_empty.
Qed.

Lemma Population_counts_live_cells_witness :
  exists q, abs (state_of run_dot2) 2 (value_of run_dot2) = Some q /\
    Population (node_at (state_of run_dot2) (value_of run_dot2)) = qcount q /\
    0 <= Population (node_at (state_of run_dot2) (value_of run_dot2)) <= 4 ^ Z.of_nat 2 /\
    (Population (node_at (state_of run_dot2) (value_of run_dot2)) = 0 <-> q = qempty 2).
Proof.
  apply (Population_counts_live_cells (state_of run_dot2) 2 (value_of run_dot2)).
  - apply reachable_keeping_reachable, reach_dot2.
  - by_compute.
  - lia.
  - by_compute.
Defined.

(** ** [FindLifeCells] *)

(** X3. [FindLifeCells] on a tree of level [l] from 1 to 31, given the
    coordinates [(x0, y0)] of the north-west corner, calls the callback once
    for every live cell and for nothing else, and changes no tree: the calls
    are those of a list [cells] without duplicates, in order; [(x, y)] is in
    the list exactly when it lies in the square at [(x0, y0)] and [Cell]
    reports 1 at the matching coordinate of the tree; the number of calls is
    the [Population] of the tree.  With [x0 = y0 = -2^(l-1)] the callback
    receives the coordinates of [Cell]. *)
Theorem FindLifeCells_visits_live_cells (s : state) (l : nat) (t : ptr) (n : Quadtree)
    (x0 y0 : Z) :
  reachable s -> is_tree s (S l) t -> (l <= 30)%nat -> heap s !! t = Some n ->
  - 2 ^ 63 <= x0 -> x0 + 2 ^ Z.of_nat (S l) <= 2 ^ 63 ->
  - 2 ^ 63 <= y0 -> y0 + 2 ^ Z.of_nat (S l) <= 2 ^ 63 ->
  exists cells : list (Z * Z),
    NoDup cells /\
    Z.of_nat (length cells) = Population n /\
    (forall (U : Type) (callback : Z -> Z -> U -> U) (u : U),
       FindLifeCells t x0 y0 callback u s
       = Ok (fold_left (fun u xy => callback (fst xy) (snd xy) u) cells u) s) /\
    (forall x y, (x, y) ∈ cells <->
       inbox (S l) (x - x0 - 2 ^ Z.of_nat l) /\ inbox (S l) (y - y0 - 2 ^ Z.of_nat l) /\
       Cell t (x - x0 - 2 ^ Z.of_nat l) (y - y0 - 2 ^ Z.of_nat l) s = Ok 1 s).
Proof.
  intros Hr [q Ha] Hl Hp Hx0 Hx1 Hy0 Hy1.
  pose proof (reachable_inv s Hr) as Hi. pose proof (reachable_pop_ok s Hr) as Hpop.
  pose proof (abs_wf s _ t q Ha) as Hw.
  exists (qlive (S l) q x0 y0). split; [|split; [|split]].
  - apply qlive_NoDup; auto. lia.
  - rewrite qlive_length by exact Hw. symmetry.
    apply (Population_qcount false s (S l) Hi Hpop ltac:(lia) t q n Ha Hp).
  - intros U callback u.
    apply (FindLifeCells_spec false s callback (S l) t q x0 y0 u Hi Hpop ltac:(lia) Ha).
  - intros x y. rewrite (qlive_elem (S l) ltac:(lia) q x0 y0 x y Hw Hx0 Hx1 Hy0 Hy1).
    rewrite !(inbox_range l) by lia. rewrite pow2_S. pose proof (pow2_pos l) as Hpos.
    split.
    + intros (Hx & Hy & Hq). split; [lia|]. split; [lia|].
      rewrite (Cell_plane false s l t q _ _ Hi Ha ltac:(lia))
        by (apply inbox_range; lia).
      rewrite plane_in by lia.
      replace (x - x0 - 2 ^ Z.of_nat l + 2 ^ Z.of_nat l) with (x - x0) by lia.
      replace (y - y0 - 2 ^ Z.of_nat l + 2 ^ Z.of_nat l) with (y - y0) by lia.
      rewrite Hq. reflexivity.
    + intros (Hx & Hy & Hc). split; [lia|]. split; [lia|].
      rewrite (Cell_plane false s l t q _ _ Hi Ha ltac:(lia)) in Hc
        by (apply inbox_range; lia).
      rewrite plane_in in Hc by lia.
      replace (x - x0 - 2 ^ Z.of_nat l + 2 ^ Z.of_nat l) with (x - x0) in Hc by lia.
      replace (y - y0 - 2 ^ Z.of_nat l + 2 ^ Z.of_nat l) with (y - y0) in Hc by lia.
      destruct (qat (S l) q (x - x0) (y - y0)); [reflexivity|discriminate].
Qed.

Lemma FindLifeCells_visits_live_cells_witness :
  exists cells : list (Z * Z),
    NoDup cells /\
    (forall (U : Type) (callback : Z -> Z -> U -> U) (u : U),
       FindLifeCells (value_of run_dot2) (-2) (-2) callback u (state_of run_dot2)
       = Ok (fold_left (fun u xy => callback (fst xy) (snd xy) u) cells u)
            (state_of run_dot2)) /\
    ((0, 0) ∈ cells <->
     Cell (value_of run_dot2) 0 0 (state_of run_dot2) = Ok 1 (state_of run_dot2)).
Proof.
  destruct (FindLifeCells_visits_live_cells (state_of run_dot2) 1 (value_of run_dot2)
              (node_at (state_of run_dot2) (value_of run_dot2)) (-2) (-2))
    as (cells & Hnd & _ & Hrun & Hin).
  - apply reachable_keeping_reachable, reach_dot2.
  - by_compute.
  - lia.
  - by_compute.
  - by_compute.
  - by_compute.
  - by_compute.
  - by_compute.
  - exists cells. split; [exact Hnd|]. split; [exact Hrun|].
    rewrite (Hin 0 0). split.
    + intros (_ & _ & H). exact H.
    + intros H. split; [by_compute|]. split; [by_compute|]. exact H.
Defined.

(** ** All-dead trees *)

Lemma Population_empty c (s : state) : inv c s -> pop_ok s ->
  forall l p n, abs s l p = Some (qempty l) -> heap s !! p = Some n -> Population n = 0.
Proof.
  intros Hi Hpop. induction l as [|l IH]; intros p n Ha Hp.
  - apply abs_0_inv in Ha as (b & Hb & ->). cbn [qempty] in Hb.
    assert (b = false) as -> by congruence.
    rewrite (leaf_lookup c s false Hi) in Hp. assert (n = deadNode) as -> by congruence.
    reflexivity.
  - pose proof (abs_S_nonleaf c s l p _ Hi Ha) as Hnl.
    apply abs_S_inv in Ha as (n' & se & sw & nw & ne & Hp' & _ & Hq & A1 & A2 & A3 & A4).
    assert (n' = n) as -> by congruence.
    cbn [qempty] in Hq.
    assert (se = qempty l /\ sw = qempty l /\ nw = qempty l /\ ne = qempty l)
      as (-> & -> & -> & ->) by (repeat split; congruence).
    destruct (Hpop p n Hp Hnl) as (nse & nsw & nnw & nne & L1 & L2 & L3 & L4 & ->).
    rewrite (IH _ _ A1 L1), (IH _ _ A2 L2), (IH _ _ A3 L3), (IH _ _ A4 L4). reflexivity.
Qed.

Lemma Childs_eta (k : Childs) : k = mkChilds (SE k) (SW k) (NW k) (NE k).
Proof. destruct k; reflexivity. Qed.

(** All-dead trees are interned at every level. *)
Lemma empty_canon (s : state) : inv true s -> pop_ok s ->
  forall l a b, abs s l a = Some (qempty l) -> abs s l b = Some (qempty l) -> a = b.
Proof.
  intros Hi Hpop. induction l as [|l IH]; intros a b Ha Hb.
  - apply abs_0_inv in Ha as (ba & Ea & ->). apply abs_0_inv in Hb as (bb & Eb & ->).
    cbn [qempty] in Ea, Eb. congruence.
  - pose proof (abs_S_nonleaf true s l a _ Hi Ha) as Hna.
    pose proof (abs_S_nonleaf true s l b _ Hi Hb) as Hnb.
    destruct (abs_alloc true s _ a _ Hi Ha) as [na Hpa].
    destruct (abs_alloc true s _ b _ Hi Hb) as [nb Hpb].
    pose proof (Population_empty true s Hi Hpop _ a na Ha Hpa) as P1.
    pose proof (Population_empty true s Hi Hpop _ b nb Hb Hpb) as P2.
    apply abs_S_inv in Ha as (na' & se & sw & nw & ne & Hpa' & _ & Hq & A1 & A2 & A3 & A4).
    assert (na' = na) as -> by congruence.
    cbn [qempty] in Hq.
    assert (se = qempty l /\ sw = qempty l /\ nw = qempty l /\ ne = qempty l)
      as (-> & -> & -> & ->) by (repeat split; congruence).
    apply abs_S_inv in Hb as (nb' & se & sw & nw & ne & Hpb' & _ & Hq' & B1 & B2 & B3 & B4).
    assert (nb' = nb) as -> by congruence.
    cbn [qempty] in Hq'.
    assert (se = qempty l /\ sw = qempty l /\ nw = qempty l /\ ne = qempty l)
      as (-> & -> & -> & ->) by (repeat split; congruence).
    assert (E : childs na = childs nb).
    { rewrite (Childs_eta (childs na)), (Childs_eta (childs nb)).
      rewrite (IH _ _ A1 B1), (IH _ _ A2 B2), (IH _ _ A3 B3), (IH _ _ A4 B4). reflexivity. }
    pose proof (inv_canon true s Hi eq_refl a na Hpa Hna (or_introl P1)) as Ca.
    pose proof (inv_canon true s Hi eq_refl b nb Hpb Hnb (or_introl P2)) as Cb.
    rewrite E in Ca. congruence.
Qed.

Lemma qfind_empty (l : nat) : forall x y b, qfind l (qempty l) x y = Some b -> b = false.
Proof.
  induction l as [|l IH]; intros x y b H.
  - cbn [qempty qfind] in H. destruct (leafCheck x y); congruence.
  - cbn [qempty] in H. rewrite qfind_step in H.
    destruct (0 <=? x), (0 <=? y); exact (IH _ _ _ H).
Qed.

Lemma cellb_empty (l : nat) (x y : Z) : cellb l (qempty l) x y = false.
Proof.
  unfold cellb. destruct (qfind l (qempty l) x y) as [b|] eqn:E; [|reflexivity].
  exact (qfind_empty l x y b E).
Qed.

Lemma FindLifeCells_pop0 {U : Type} (s : state) (t : ptr) (n : Quadtree) x y
    (callback : Z -> Z -> U -> U) (u : U) :
  heap s !! t = Some n -> Population n = 0 -> FindLifeCells t x y callback u s = Ok u s.
Proof.
  intros Hp H0. unfold FindLifeCells. rewrite (bind_deref s t n _ Hp).
  cbn [FindLifeCells_fuel]. rewrite (bind_deref s t n _ Hp), H0. reflexivity.
Qed.

(** A picture whose cells are all dead is the all-dead picture. *)
Lemma dead_picture c (s : state) (l : nat) (t : ptr) (q : quad) :
  inv c s -> (l <= 64)%nat -> abs s l t = Some q ->
  (forall x y, inbox l x -> inbox l y -> Cell t x y s = Ok 0 s) -> q = qempty l.
Proof.
  intros Hi Hl Ha Hc. pose proof (abs_wf s l t q Ha) as Hw.
  destruct l as [|l].
  - apply qwf_0_inv in Hw as [b ->].
    specialize (Hc 0 0 eq_refl eq_refl).
    rewrite (Cell_value c s 0 t _ 0 0 Hi Ha eq_refl eq_refl) in Hc.
    destruct b; [discriminate|reflexivity].
  - apply (plane_unique l q (qempty (S l)) Hw (qempty_wf (S l))).
    intros x y Hx Hy.
    assert (Bx : inbox (S l) x) by (apply inbox_range; lia).
    assert (By : inbox (S l) y) by (apply inbox_range; lia).
    specialize (Hc x y Bx By).
    rewrite (Cell_plane c s l t q x y Hi Ha ltac:(lia) Bx By) in Hc.
    rewrite (plane_in l (qempty (S l))) by lia. rewrite qat_empty.
    destruct (plane (S l) q x y); [discriminate|reflexivity].
Qed.

(** In a state with the cache intact, [EmptyTree] finds an all-dead tree that
    exists already and allocates nothing. *)
Lemma EmptyTree_fuel_hit (l : nat) : forall (s : state) (t : ptr) (fuel : nat),
  inv true s -> pop_ok s -> Z.of_nat l < 2 ^ 64 - 2 -> (l <= fuel)%nat ->
  abs s l t = Some (qempty l) ->
  exists s', EmptyTree_fuel fuel (Z.of_nat l) s = Ok t s' /\
    heap s' = heap s /\ nodeMap s' = nodeMap s /\ cacheMiss s' = cacheMiss s.
Proof.
  induction l as [|l IH]; intros s t fuel Hi Hpop Hl Hf Ha.
  - apply abs_0_inv in Ha as (b & Hb & ->). cbn [qempty] in Hb.
    assert (b = false) as -> by congruence.
    exists s. destruct fuel; cbn [EmptyTree_fuel]; auto.
  - destruct fuel as [|fuel]; [lia|]. cbn [EmptyTree_fuel].
    destruct (Z.eqb_spec (Z.of_nat (S l)) 0) as [E|_]; [lia|].
    rewrite !wrapu_id by (unfold uint; lia).
    destruct (Z.eqb_spec (Z.of_nat (S l) + 1) 0) as [E1|_]; [lia|].
    destruct (Z.eqb_spec (Z.of_nat (S l) + 2) 0) as [E2|_]; [lia|]. cbn [orb].
    replace (Z.of_nat (S l) - 1) with (Z.of_nat l) by lia.
    pose proof (abs_S_nonleaf true s l t _ Hi Ha) as Hnl.
    destruct (abs_alloc true s _ t _ Hi Ha) as [n Hp].
    pose proof (Population_empty true s Hi Hpop _ t n Ha Hp) as P0.
    pose proof (inv_canon true s Hi eq_refl t n Hp Hnl (or_introl P0)) as Hc.
    pose proof Ha as Ha'.
    apply abs_S_inv in Ha' as (n' & se & sw & nw & ne & Hp' & _ & Hq & A1 & A2 & A3 & A4).
    assert (n' = n) as -> by congruence.
    cbn [qempty] in Hq.
    assert (se = qempty l /\ sw = qempty l /\ nw = qempty l /\ ne = qempty l)
      as (-> & -> & -> & ->) by (repeat split; congruence).
    destruct (IH s (SE (childs n)) fuel Hi Hpop ltac:(lia) ltac:(lia) A1)
      as (s1 & Hrun & Hh & Hm & Hcm).
    unfold bind. rewrite Hrun.
    assert (Ek : mkChilds (SE (childs n)) (SE (childs n)) (SE (childs n)) (SE (childs n))
                 = childs n).
    { rewrite (Childs_eta (childs n)) at 5.
      rewrite (empty_canon s Hi Hpop l _ _ A2 A1), (empty_canon s Hi Hpop l _ _ A3 A1),
        (empty_canon s Hi Hpop l _ _ A4 A1). reflexivity. }
    rewrite Ek. unfold NewTree. rewrite Hm, Hc.
    eexists. split; [reflexivity|]. cbn [heap nodeMap cacheMiss]. auto.
Qed.

(** ** [EmptyTree] *)

(** X4. [EmptyTree] returns for every level from 0 to 64 and for the two
    levels next to the overflow, [2^64 - 2] and [2^64 - 1]: the result is a
    node with population 0 on which [FindLifeCells] calls nothing.  Up to
    level 64 it is a tree of the requested level whose cells are all dead; at
    level 0 and at the two levels next to the overflow it is the dead leaf and
    the state is untouched.  (In between the recursion is as deep as the
    level.) *)
Theorem EmptyTree_all_dead (s : state) (level : Z) :
  reachable s -> 0 <= level <= 64 \/ level = 2 ^ 64 - 2 \/ level = 2 ^ 64 - 1 ->
  exists r s' n,
    EmptyTree level s = Ok r s' /\ heap s' !! r = Some n /\ Population n = 0 /\
    (forall (U : Type) (callback : Z -> Z -> U -> U) (u : U) x y,
       FindLifeCells r x y callback u s' = Ok u s') /\
    (level = 0 \/ 2 ^ 64 - 2 <= level -> r = deadLeaf /\ s' = s) /\
    (level <= 64 ->
       is_tree s' (Z.to_nat level) r /\ Level n = level /\
       forall x y, inbox (Z.to_nat level) x -> inbox (Z.to_nat level) y ->
         Cell r x y s' = Ok 0 s').
Proof.
  intros Hr Hu. pose proof (reachable_inv s Hr) as Hi.
  pose proof (reachable_pop_ok s Hr) as Hpop.
  assert (H64 : 64 < 2 ^ 64 - 2) by (vm_compute; reflexivity).
  destruct (Z_le_gt_dec level 64) as [Hlt|Hge].
  - destruct (EmptyTree_post false s (Z.to_nat level) Hi ltac:(lia))
      as (r & s' & Hrun & Hi' & He & Ha).
    rewrite Z2Nat.id in Hrun by lia.
    pose proof (keeps_EmptyTree pop_ok pop_ok_NewTree level s r s' Hpop Hrun) as Hpop'.
    destruct (abs_alloc false s' _ r _ Hi' Ha) as [n Hp].
    pose proof (Population_empty false s' Hi' Hpop' _ r n Ha Hp) as P0.
    exists r, s', n. split; [exact Hrun|]. split; [exact Hp|]. split; [exact P0|].
    split; [|split].
    + intros U callback u x y. exact (FindLifeCells_pop0 s' r n x y callback u Hp P0).
    + intros [->|Hbig]; [|lia].
      rewrite (EmptyTree_collapse 0 s (or_introl eq_refl)) in Hrun.
      split; congruence.
    + intros _. split; [exists (qempty (Z.to_nat level)); exact Ha|]. split.
      * rewrite (abs_Level false s' _ r _ n Hi' Ha Hp). lia.
      * intros x y Hx Hy. rewrite (Cell_value false s' _ r _ x y Hi' Ha Hx Hy).
        rewrite cellb_empty. reflexivity.
  - assert (Hc : level = 0 \/ level = 2 ^ 64 - 1 \/ level = 2 ^ 64 - 2) by lia.
    exists deadLeaf, s, deadNode.
    split; [exact (EmptyTree_collapse level s Hc)|].
    split; [exact (inv_dead false s Hi)|]. split; [reflexivity|]. split; [|split].
    + intros U callback u x y.
      exact (FindLifeCells_pop0 s deadLeaf deadNode x y callback u (inv_dead false s Hi) eq_refl).
    + auto.
    + intros H. lia.
Qed.

Lemma EmptyTree_all_dead_witness :
  exists r s' n,
    EmptyTree 3 init = Ok r s' /\ heap s' !! r = Some n /\ Population n = 0 /\
    Level n = 3 /\ Cell r (-4) 3 s' = Ok 0 s'.
Proof.
  destruct (EmptyTree_all_dead init 3) as (r & s' & n & Hrun & Hp & P0 & _ & _ & Hl).
  - exact reach_init.
  - left. lia.
  - destruct (Hl ltac:(lia)) as (_ & HL & Hc).
    exists r, s', n. split; [exact Hrun|]. split; [exact Hp|]. split; [exact P0|].
    split; [exact HL|]. apply Hc; by_compute.
Defined.

(** X5. All-dead trees are interned at every level: in a state reached
    without a cache reset, [EmptyTree l] returns the very tree [t] of level
    [l] whose cells are all dead, if there is one, and allocates no node. *)
Theorem EmptyTree_returns_existing (s : state) (l : nat) (t : ptr) :
  reachable_keeping s -> is_tree s l t -> (l <= 64)%nat ->
  (forall x y, inbox l x -> inbox l y -> Cell t x y s = Ok 0 s) ->
  exists s', EmptyTree (Z.of_nat l) s = Ok t s' /\
    heap s' = heap s /\ nodeMap s' = nodeMap s /\ cacheMiss s' = cacheMiss s.
Proof.
  intros Hr [q Ha] Hl Hc. pose proof (reachable_keeping_inv s Hr) as Hi.
  pose proof (reachable_pop_ok s (reachable_keeping_reachable s Hr)) as Hpop.
  rewrite (dead_picture true s l t q Hi Hl Ha Hc) in Ha.
  unfold EmptyTree. rewrite Nat2Z.id.
  apply (EmptyTree_fuel_hit l s t l Hi Hpop); [|lia|exact Ha].
  assert (2 ^ 7 < 2 ^ 64 - 2) by (vm_compute; reflexivity).
  assert (Z.of_nat l <= 2 ^ 7) by (change (2 ^ 7) with 128; lia). lia.
Qed.

Lemma EmptyTree_returns_existing_witness :
  exists s', EmptyTree 2 (state_of run_empty2) = Ok (value_of run_empty2) s' /\
    heap s' = heap (state_of run_empty2).
Proof.
  destruct (EmptyTree_returns_existing (state_of run_empty2) 2 (value_of run_empty2))
    as (s' & Hrun & Hh & _).
  - exact reach_empty2.
  - by_compute.
  - lia.
  - intros x y [_ Hx] [_ Hy]. change (2 ^ Z.of_nat 1) with 2 in Hx, Hy.
    assert (Ex : x = -2 \/ x = -1 \/ x = 0 \/ x = 1) by lia.
    assert (Ey : y = -2 \/ y = -1 \/ y = 0 \/ y = 1) by lia.
    destruct Ex as [->|[->|[->| ->]]]; destruct Ey as [->|[->|[->| ->]]];
      vm_compute; reflexivity.
  - exists s'. split; [exact Hrun|exact Hh].
Defined.

(** ** [grow] *)

Lemma qcount_qgrow (l : nat) (q : quad) : qwf (S l) q -> qcount (qgrow (S l) q) = qcount q.
Proof.
  intros Hq. apply qwf_S_inv in Hq as (se & sw & nw & ne & -> & _).
  unfold qgrow. cbn [qcount qSE qSW qNW qNE]. rewrite qcount_empty. lia.
Qed.

(** X6. [grow] on a tree of level [l] from 1 to 62 returns a tree of level
    [l + 1] with the cells of [t] at the same coordinates and dead cells
    around them; up to level 30 the population stays the same. *)
Theorem grow_pads_with_dead_cells (s : state) (l : nat) (t : ptr) :
  reachable s -> is_tree s l t -> (1 <= l <= 62)%nat ->
  exists r s',
    grow t s = Ok r s' /\ is_tree s' (S l) r /\
    (forall x y, inbox (S l) x -> inbox (S l) y ->
       Cell r x y s' = Ok (Z.b2z (cellOrDead s l t x y)) s') /\
    ((l <= 30)%nat -> forall n nr, heap s !! t = Some n -> heap s' !! r = Some nr ->
       Population nr = Population n).
Proof.
  intros Hr [q Ha] Hl. pose proof (reachable_inv s Hr) as Hi.
  pose proof (reachable_pop_ok s Hr) as Hpop.
  destruct l as [|l]; [lia|].
  destruct (grow_post false s (S l) t q Hi Ha ltac:(lia)) as (r & s' & Hrun & Hi' & He & Hg).
  pose proof (keeps_grow pop_ok pop_ok_NewTree t s r s' Hpop Hrun) as Hpop'.
  pose proof (abs_wf s _ t q Ha) as Hw.
  exists r, s'. split; [exact Hrun|]. split; [eexists; exact Hg|]. split.
  - intros x y Hx Hy.
    rewrite (Cell_plane false s' (S l) r _ x y Hi' Hg ltac:(lia) Hx Hy).
    rewrite (plane_grow l q x y Hw).
    rewrite (cellOrDead_plane false s l t q x y Hi Ha ltac:(lia)). reflexivity.
  - intros Hl' n nr Hp Hp'.
    rewrite (Population_qcount false s' (S (S l)) Hi' Hpop' ltac:(lia) r _ nr Hg Hp').
    rewrite (Population_qcount false s (S l) Hi Hpop ltac:(lia) t q n Ha Hp).
    apply qcount_qgrow, Hw.
Qed.

Lemma grow_pads_with_dead_cells_witness :
  exists r s',
    grow (value_of run_dot2) (state_of run_dot2) = Ok r s' /\
    Cell r 0 0 s' = Ok (Z.b2z (cellOrDead (state_of run_dot2) 2 (value_of run_dot2) 0 0)) s' /\
    Cell r 3 (-4) s' = Ok (Z.b2z (cellOrDead (state_of run_dot2) 2 (value_of run_dot2) 3 (-4))) s'.
Proof.
  destruct (grow_pads_with_dead_cells (state_of run_dot2) 2 (value_of run_dot2))
    as (r & s' & Hrun & _ & Hc & _).
  - apply reachable_keeping_reachable, reach_dot2.
  - by_compute.
  - lia.
  - exists r, s'. split; [exact Hrun|]. split; apply Hc; by_compute.
Defined.

(** ** [NextGen] on the empty universe *)

Lemma plane_empty (l : nat) (x y : Z) : plane l (qempty l) x y = false.
Proof. unfold plane. rewrite qat_empty. destruct (_ && _); reflexivity. Qed.

Lemma qnext_empty (l : nat) : qnext (S (S l)) (qgrow (S l) (qempty (S l))) = qempty (S l).
Proof.
  pose proof (qempty_wf (S l)) as Hw.
  pose proof (qgrow_wf l _ Hw) as Hg.
  pose proof (qnext_win l _ _ 0 0 (win_self _ _ Hg)) as Hn.
  apply (plane_unique l); [exact (win_wf _ _ _ _ _ Hn)|exact Hw|].
  intros x y Hx Hy.
  rewrite (plane_life l _ x y Hg Hx Hy), plane_empty.
  unfold life, neighbours. rewrite !(plane_grow l _ _ _ Hw), !plane_empty. reflexivity.
Qed.

(** X7. The empty universe is a fixed point, as a handle and at every level
    from 1 to 62: in a state reached without a cache reset, and with the cache
    below its limit, [NextGen] of a tree whose cells are all dead returns the
    same tree. *)
Theorem NextGen_empty_is_fixed (s : state) (l : nat) (t : ptr) :
  reachable_keeping s -> Z.of_nat (size (nodeMap s)) <= cacheLimit ->
  is_tree s l t -> (1 <= l <= 62)%nat ->
  (forall x y, inbox l x -> inbox l y -> Cell t x y s = Ok 0 s) ->
  exists s', NextGen t s = Ok t s'.
Proof.
  intros Hr Hsz [q Ha] Hl Hc. pose proof (reachable_keeping_inv s Hr) as Hi.
  pose proof (reachable_pop_ok s (reachable_keeping_reachable s Hr)) as Hpop.
  rewrite (dead_picture true s l t q Hi ltac:(lia) Ha Hc) in Ha.
  destruct l as [|l]; [lia|].
  destruct (NextGen_post true s (S l) t _ Hi (fun _ => Hsz) Ha ltac:(lia))
    as (r & s' & Hrun & Hi' & He & Hn).
  rewrite qnext_empty in Hn.
  pose proof (keeps_NextGen pop_ok pop_ok_NewTree pop_ok_setNext pop_ok_discard
                t s r s' Hpop Hrun) as Hpop'.
  pose proof (abs_mono s s' He _ _ _ Ha) as Ha'.
  exists s'. rewrite Hrun. f_equal. exact (empty_canon s' Hi' Hpop' _ r t Hn Ha').
Qed.

Lemma NextGen_empty_is_fixed_witness :
  exists s', NextGen (value_of run_empty2) (state_of run_empty2)
             = Ok (value_of run_empty2) s'.
Proof.
  apply (NextGen_empty_is_fixed (state_of run_empty2) 2 (value_of run_empty2)).
  - exact reach_empty2.
  - by_compute.
  - by_compute.
  - lia.
  - intros x y [_ Hx] [_ Hy]. change (2 ^ Z.of_nat 1) with 2 in Hx, Hy.
    assert (Ex : x = -2 \/ x = -1 \/ x = 0 \/ x = 1) by lia.
    assert (Ey : y = -2 \/ y = -1 \/ y = 0 \/ y = 1) by lia.
    destruct Ex as [->|[->|[->| ->]]]; destruct Ey as [->|[->|[->| ->]]];
      vm_compute; reflexivity.
Defined.

(** ** Coordinates outside the box *)

(** A coordinate outside the box of a level stays outside on the way down. *)
Lemma childCoord_outside (l : nat) (x : Z) : (S l <= 64)%nat -> int64 x ->
  ~ dbox (S l) x -> int64 (childCoord (S l) x) /\ ~ dbox l (childCoord (S l) x).
Proof.
  intros Hl Hx Ho. unfold childCoord. unfold int64 in Hx.
  destruct l as [|l].
  - change (Z.of_nat 1) with 1. rewrite distanceToOrigin_1, Z.sub_0_r, Z.add_0_r.
    rewrite wrap64_id by exact Hx.
    assert (E : (if 0 <=? x then x else x) = x) by (destruct (0 <=? x); reflexivity).
    rewrite E. split; [exact Hx|]. cbn [dbox inbox] in Ho |- *.
    change (2 ^ Z.of_nat 0) with 1 in Ho. unfold int64 in Ho. lia.
  - rewrite (distanceToOrigin_small (S (S l))) by lia.
    replace (Z.of_nat (S (S l)) - 2) with (Z.of_nat l) by lia.
    pose proof (pow2_pos l) as Hp.
    assert (Hb : 2 ^ Z.of_nat l <= 2 ^ 62) by (apply Z.pow_le_mono_r; lia).
    cbn [dbox inbox] in Ho |- *. rewrite pow2_S in Ho. unfold int64 in Ho |- *.
    destruct (Z.leb_spec 0 x).
    + rewrite wrap64_id by (unfold int64; lia). lia.
    + rewrite wrap64_id by (unfold int64; lia). lia.
Qed.

Lemma dbox_dec (l : nat) (x : Z) : dbox l x \/ ~ dbox l x.
Proof.
  destruct l as [|l]; cbn [dbox inbox]; unfold int64; lia.
Qed.

Lemma outside_step (l : nat) (x y : Z) : (S l <= 64)%nat -> int64 x -> int64 y ->
  ~ (dbox (S l) x /\ dbox (S l) y) ->
  int64 (childCoord (S l) x) /\ int64 (childCoord (S l) y) /\
  ~ (dbox l (childCoord (S l) x) /\ dbox l (childCoord (S l) y)).
Proof.
  intros Hl Hx Hy Ho.
  assert (Ix : int64 (childCoord (S l) x)).
  { unfold childCoord. destruct (0 <=? x); apply wrap64_int64. }
  assert (Iy : int64 (childCoord (S l) y)).
  { unfold childCoord. destruct (0 <=? y); apply wrap64_int64. }
  split; [exact Ix|]. split; [exact Iy|]. intros [Dx Dy].
  destruct (dbox_dec (S l) x) as [Bx|Bx].
  - destruct (dbox_dec (S l) y) as [By|By]; [tauto|].
    exact (proj2 (childCoord_outside l y Hl Hy By) Dy).
  - exact (proj2 (childCoord_outside l x Hl Hx Bx) Dx).
Qed.

Lemma qfind_outside (l : nat) : (l <= 64)%nat ->
  forall q x y, int64 x -> int64 y -> ~ (dbox l x /\ dbox l y) -> qfind l q x y = None.
Proof.
  induction l as [|l IH]; intros Hl q x y Hx Hy Ho.
  - destruct q as [b|]; [|reflexivity]. cbn [qfind].
    assert (E : leafCheck x y = true).
    { unfold leafCheck. cbn [dbox] in Ho.
      destruct (Z.ltb_spec x (-1)), (Z.ltb_spec 0 x), (Z.ltb_spec y (-1)), (Z.ltb_spec 0 y);
        try reflexivity. lia. }
    rewrite E. reflexivity.
  - destruct q as [|se sw nw ne]; [reflexivity|]. rewrite qfind_step.
    destruct (outside_step l x y Hl Hx Hy Ho) as (Ix & Iy & Hc).
    apply IH; auto. lia.
Qed.

Lemma qset_outside (l : nat) (b : bool) : (l <= 64)%nat ->
  forall q x y, int64 x -> int64 y -> ~ (dbox l x /\ dbox l y) -> qset l q x y b = None.
Proof.
  induction l as [|l IH]; intros Hl q x y Hx Hy Ho.
  - destruct q as [b0|]; [|reflexivity]. cbn [qset].
    assert (E : leafCheck x y = true).
    { unfold leafCheck. cbn [dbox] in Ho.
      destruct (Z.ltb_spec x (-1)), (Z.ltb_spec 0 x), (Z.ltb_spec y (-1)), (Z.ltb_spec 0 y);
        try reflexivity. lia. }
    rewrite E. reflexivity.
  - destruct q as [|se sw nw ne]; [reflexivity|]. rewrite qset_step. cbv zeta.
    destruct (outside_step l x y Hl Hx Hy Ho) as (Ix & Iy & Hc).
    destruct (0 <=? x), (0 <=? y); rewrite IH by (auto; lia); reflexivity.
Qed.

Lemma leafCheck_outside (x y : Z) : ~ (dbox 0 x /\ dbox 0 y) -> leafCheck x y = true.
Proof.
  intros Ho. unfold leafCheck. cbn [dbox] in Ho.
  destruct (Z.ltb_spec x (-1)), (Z.ltb_spec 0 x), (Z.ltb_spec y (-1)), (Z.ltb_spec 0 y);
    try reflexivity. lia.
Qed.

(** Outside the box the descent ends in the coordinate test of the leaf. *)
Lemma leafCoord_outside (l : nat) : (l <= 64)%nat ->
  forall x y, int64 x -> int64 y -> ~ (dbox l x /\ dbox l y) ->
  leafCheck (leafCoord l x) (leafCoord l y) = true.
Proof.
  induction l as [|l IH]; intros Hl x y Hx Hy Ho.
  - apply leafCheck_outside, Ho.
  - destruct (outside_step l x y Hl Hx Hy Ho) as (Ix & Iy & Hc).
    cbn [leafCoord]. apply IH; auto. lia.
Qed.

Lemma findLeaf_fuel_outside c (s : state) (l : nat) : inv c s -> (l <= 64)%nat ->
  forall (fuel : nat) p q x y, abs s l p = Some q -> (l < fuel)%nat ->
  int64 x -> int64 y -> ~ (dbox l x /\ dbox l y) ->
  findLeaf_fuel fuel p x y s = Panic (LeafCoords (leafCoord l x) (leafCoord l y)).
Proof.
  intros Hi. induction l as [|l IH]; intros Hl fuel p q x y Ha Hf Hx Hy Ho;
    (destruct fuel as [|fuel]; [lia|]);
    destruct (abs_alloc c s _ p q Hi Ha) as [n Hp];
    pose proof (abs_Level c s _ p q n Hi Ha Hp) as HL;
    cbn [findLeaf_fuel]; rewrite (bind_deref s p n _ Hp), HL.
  - change (Z.of_nat 0 =? 0) with true. cbv iota.
    rewrite (leafCheck_outside x y Ho). reflexivity.
  - destruct (Z.eqb_spec (Z.of_nat (S l)) 0) as [E|_]; [lia|]. cbv zeta.
    apply abs_S_inv in Ha as (n' & se & sw & nw & ne & Hp' & _ & _ & A1 & A2 & A3 & A4).
    assert (n' = n) as -> by congruence.
    destruct (outside_step l x y Hl Hx Hy Ho) as (Ix & Iy & Hc).
    cbn [leafCoord]. unfold childCoord in *.
    destruct (0 <=? x), (0 <=? y).
    + exact (IH ltac:(lia) fuel _ _ _ _ A1 ltac:(lia) Ix Iy Hc).
    + exact (IH ltac:(lia) fuel _ _ _ _ A4 ltac:(lia) Ix Iy Hc).
    + exact (IH ltac:(lia) fuel _ _ _ _ A2 ltac:(lia) Ix Iy Hc).
    + exact (IH ltac:(lia) fuel _ _ _ _ A3 ltac:(lia) Ix Iy Hc).
Qed.

Lemma SetCell_fuel_outside c (s : state) (l : nat) : inv c s -> (l <= 64)%nat ->
  forall (fuel : nat) p q x y v, abs s l p = Some q -> (l < fuel)%nat ->
  int64 x -> int64 y -> ~ (dbox l x /\ dbox l y) ->
  SetCell_fuel fuel p x y v s = Panic (LeafCoords (leafCoord l x) (leafCoord l y)).
Proof.
  intros Hi. induction l as [|l IH]; intros Hl fuel p q x y v Ha Hf Hx Hy Ho;
    (destruct fuel as [|fuel]; [lia|]);
    destruct (abs_alloc c s _ p q Hi Ha) as [n Hp];
    pose proof (abs_Level c s _ p q n Hi Ha Hp) as HL;
    cbn [SetCell_fuel]; rewrite (bind_deref s p n _ Hp), HL.
  - change (Z.of_nat 0 =? 0) with true. cbv iota.
    rewrite (leafCheck_outside x y Ho). reflexivity.
  - destruct (Z.eqb_spec (Z.of_nat (S l)) 0) as [E|_]; [lia|]. cbv zeta.
    apply abs_S_inv in Ha as (n' & se & sw & nw & ne & Hp' & _ & _ & A1 & A2 & A3 & A4).
    assert (n' = n) as -> by congruence.
    destruct (outside_step l x y Hl Hx Hy Ho) as (Ix & Iy & Hc).
    cbn [leafCoord]. unfold childCoord in *.
    destruct (0 <=? x), (0 <=? y); unfold bind.
    + rewrite (IH ltac:(lia) fuel _ _ _ _ v A1 ltac:(lia) Ix Iy Hc). reflexivity.
    + rewrite (IH ltac:(lia) fuel _ _ _ _ v A4 ltac:(lia) Ix Iy Hc). reflexivity.
    + rewrite (IH ltac:(lia) fuel _ _ _ _ v A2 ltac:(lia) Ix Iy Hc). reflexivity.
    + rewrite (IH ltac:(lia) fuel _ _ _ _ v A3 ltac:(lia) Ix Iy Hc). reflexivity.
Qed.

(** X8. On a tree of level [l] from 1 to 64, [findLeaf], [Cell] and
    [SetCell] panic for every int64 coordinate pair that is not inside the box
    of the tree, and the panic is the one of the coordinate test at the leaf:
    the descent carries the excess down to the leaf, where it arrives with the
    coordinates [(leafCoord l x, leafCoord l y)] that the test refuses.
    [SetCell] fails with the same panic as [findLeaf]: the one of the leaf
    test, not a failure of [NewTree]. *)
Theorem outside_box_panics (s : state) (l : nat) (t : ptr) (x y v : Z) :
  reachable s -> is_tree s l t -> (1 <= l <= 64)%nat -> int64 x -> int64 y ->
  ~ (inbox l x /\ inbox l y) ->
  leafCheck (leafCoord l x) (leafCoord l y) = true /\
  findLeaf t x y s = Panic (LeafCoords (leafCoord l x) (leafCoord l y)) /\
  Cell t x y s = Panic (LeafCoords (leafCoord l x) (leafCoord l y)) /\
  SetCell t x y v s = Panic (LeafCoords (leafCoord l x) (leafCoord l y)).
Proof.
  intros Hr [q Ha] Hl Hx Hy Ho. pose proof (reachable_inv s Hr) as Hi.
  destruct (abs_alloc false s l t q Hi Ha) as [n Hp].
  pose proof (abs_Level false s l t q n Hi Ha Hp) as HL.
  assert (Hd : ~ (dbox l x /\ dbox l y)) by (destruct l as [|l']; [lia|exact Ho]).
  assert (Hf : findLeaf t x y s = Panic (LeafCoords (leafCoord l x) (leafCoord l y))).
  { unfold findLeaf. rewrite (bind_deref s t n _ Hp), HL, Nat2Z.id.
    apply (findLeaf_fuel_outside false s l Hi ltac:(lia) (S l) t q x y Ha ltac:(lia) Hx Hy Hd). }
  split; [apply leafCoord_outside; auto; lia|]. split; [exact Hf|]. split.
  - unfold Cell, bind. rewrite Hf. reflexivity.
  - unfold SetCell. rewrite (bind_deref s t n _ Hp), HL, Nat2Z.id.
    apply (SetCell_fuel_outside false s l Hi ltac:(lia) (S l) t q x y v Ha ltac:(lia) Hx Hy Hd).
Qed.

Lemma outside_box_panics_witness :
  findLeaf (value_of run_empty2) 2 0 (state_of run_empty2) = Panic (LeafCoords 1 (-1)) /\
  Cell (value_of run_empty2) 2 0 (state_of run_empty2) = Panic (LeafCoords 1 (-1)) /\
  SetCell (value_of run_empty2) 2 0 1 (state_of run_empty2) = Panic (LeafCoords 1 (-1)).
Proof.
  destruct (outside_box_panics (state_of run_empty2) 2 (value_of run_empty2) 2 0 1)
    as (_ & H).
  - apply reachable_keeping_reachable, reach_empty2.
  - by_compute.
  - lia.
  - by_compute.
  - by_compute.
  - intros [[_ H] _]. vm_compute in H. destruct H as [_ H]. apply H. reflexivity.
  - exact H.
Defined.

(** ** Writing the value a cell has *)

Lemma qset_same (l : nat) : forall q x y b,
  qfind l q x y = Some b -> qset l q x y b = Some q.
Proof.
  induction l as [|l IH]; intros q x y b H.
  - destruct q as [b0|]; [|discriminate]. cbn [qfind qset] in H |- *.
    destruct (leafCheck x y); congruence.
  - destruct q as [|se sw nw ne]; [discriminate|].
    rewrite qfind_step in H. rewrite qset_step. cbv zeta.
    destruct (0 <=? x), (0 <=? y); rewrite (IH _ _ _ _ H); reflexivity.
Qed.

(** X9. Writing to a cell the value it has returns the tree itself: for a
    tree of level up to 16, in a state reached without a cache reset,
    [SetCell t x y v] returns the handle [t] when [Cell t x y] is 0 and
    [v = 0], or is 1 and [v <> 0]. *)
Theorem SetCell_same_value_same_tree (s : state) (l : nat) (t : ptr) (x y v c : Z) :
  reachable_keeping s -> is_tree s l t -> (l <= 16)%nat -> inbox l x -> inbox l y ->
  Cell t x y s = Ok c s -> (v = 0 <-> c = 0) ->
  exists s', SetCell t x y v s = Ok t s'.
Proof.
  intros Hr [q Ha] Hl Hx Hy Hc Hv. pose proof (reachable_keeping_inv s Hr) as Hi.
  pose proof (Cell_spec true s l t q x y Hi Ha) as Hf.
  destruct (qfind l q x y) as [b|] eqn:Ef.
  - assert (Eb : negb (v =? 0) = b).
    { rewrite Hc in Hf. assert (c = Z.b2z b) as -> by congruence.
      destruct (Z.eqb_spec v 0) as [E|E]; destruct b; cbn in *; try reflexivity.
      - apply Hv in E. discriminate.
      - exfalso. apply E, Hv. reflexivity. }
    pose proof (SetCell_spec true s l t q x y v Hi Ha) as Hs.
    rewrite Eb, (qset_same l q x y b Ef) in Hs.
    destruct Hs as (r & s' & Hrun & Hi' & He & Hr').
    exists s'. rewrite Hrun. f_equal.
    exact (canon_unique s' l Hi' Hl r t q Hr' (abs_mono s s' He _ _ _ Ha)).
  - destruct Hf as [e Hf]. congruence.
Qed.

Lemma SetCell_same_value_same_tree_witness :
  exists s', SetCell (value_of run_dot2) 0 0 5 (state_of run_dot2)
             = Ok (value_of run_dot2) s'.
Proof.
  apply (SetCell_same_value_same_tree (state_of run_dot2) 2 (value_of run_dot2) 0 0 5 1).
  - exact reach_dot2.
  - by_compute.
  - lia.
  - by_compute.
  - by_compute.
  - by_compute.
  - split; discriminate.
Defined.

(** ** [slowSimulation] and [NextGeneration] *)

Lemma life_cellOrDead c (s : state) (l : nat) (t : ptr) (q : quad) (x y : Z) :
  inv c s -> abs s (S l) t = Some q -> (l <= 63)%nat ->
  life (plane (S l) q) x y = life (cellOrDead s (S l) t) x y.
Proof.
  intros Hi Ha Hl. apply life_map. intros du dv _ _.
  symmetry. apply (cellOrDead_plane c s l t q _ _ Hi Ha Hl).
Qed.

(** X10. [slowSimulation] works on level 2 only: there it returns the
    level-1 tree of the four center cells advanced by one generation of Life;
    at any other level it panics. *)
Theorem slowSimulation_is_life (s : state) (l : nat) (t : ptr) :
  reachable s -> is_tree s l t ->
  if (l =? 2)%nat then
    exists r s',
      slowSimulation t s = Ok r s' /\ is_tree s' 1 r /\
      forall x y, inbox 1 x -> inbox 1 y ->
        Cell r x y s' = Ok (Z.b2z (life (cellOrDead s 2 t) x y)) s'
  else slowSimulation t s = Panic SlowSimLevel.
Proof.
  intros Hr [q Ha]. pose proof (reachable_inv s Hr) as Hi.
  destruct (Nat.eqb_spec l 2) as [->|Hn].
  - destruct (slowSimulation_post false s t q Hi Ha) as (r & s' & Hrun & Hi' & He & Hs).
    exists r, s'. split; [exact Hrun|]. split; [eexists; exact Hs|].
    intros x y Hx Hy.
    rewrite (Cell_plane false s' 0 r _ x y Hi' Hs ltac:(lia) Hx Hy).
    change (qslow q) with (qnext 2 q).
    apply (inbox_range 0 x ltac:(lia)) in Hx. apply (inbox_range 0 y ltac:(lia)) in Hy.
    rewrite (plane_life 0 q x y (abs_wf s 2 t q Ha) Hx Hy).
    rewrite (life_cellOrDead false s 1 t q x y Hi Ha ltac:(lia)). reflexivity.
  - destruct (abs_alloc false s l t q Hi Ha) as [n Hp].
    pose proof (abs_Level false s l t q n Hi Ha Hp) as HL.
    unfold slowSimulation. rewrite (bind_deref s t n _ Hp), HL.
    destruct (Z.eqb_spec (Z.of_nat l) 2) as [E|_]; [lia|]. reflexivity.
Qed.

Lemma slowSimulation_is_life_witness :
  exists r s',
    slowSimulation (value_of run_dot2) (state_of run_dot2) = Ok r s' /\
    Cell r 0 0 s'
    = Ok (Z.b2z (life (cellOrDead (state_of run_dot2) 2 (value_of run_dot2)) 0 0)) s'.
Proof.
  destruct (slowSimulation_is_life (state_of run_dot2) 2 (value_of run_dot2))
    as (r & s' & Hrun & _ & Hc).
  - apply reachable_keeping_reachable, reach_dot2.
  - by_compute.
  - exists r, s'. split; [exact Hrun|]. apply Hc; by_compute.
Defined.

(** X11. [NextGeneration] on a tree of level [l + 2] (from 2 to 64) returns a
    tree of level [l + 1], half the size: its cells are the center of the
    tree advanced by one generation of Life. *)
Theorem NextGeneration_is_life_on_center (s : state) (l : nat) (t : ptr) :
  reachable s -> is_tree s (S (S l)) t -> (l <= 62)%nat ->
  exists r s',
    NextGeneration t s = Ok r s' /\ is_tree s' (S l) r /\
    forall x y, inbox (S l) x -> inbox (S l) y ->
      Cell r x y s' = Ok (Z.b2z (life (cellOrDead s (S (S l)) t) x y)) s'.
Proof.
  intros Hr [q Ha] Hl. pose proof (reachable_inv s Hr) as Hi.
  destruct (NextGeneration_post false s l t q Hi Ha) as (r & s' & Hrun & Hi' & He & Hn).
  exists r, s'. split; [exact Hrun|]. split; [eexists; exact Hn|].
  intros x y Hx Hy.
  rewrite (Cell_plane false s' l r _ x y Hi' Hn ltac:(lia) Hx Hy).
  apply (inbox_range l x ltac:(lia)) in Hx. apply (inbox_range l y ltac:(lia)) in Hy.
  rewrite (plane_life l q x y (abs_wf s _ t q Ha) Hx Hy).
  rewrite (life_cellOrDead false s (S l) t q x y Hi Ha ltac:(lia)). reflexivity.
Qed.

Lemma NextGeneration_is_life_on_center_witness :
  exists r s',
    NextGeneration (value_of run_dot2) (state_of run_dot2) = Ok r s' /\
    Cell r (-1) (-1) s'
    = Ok (Z.b2z (life (cellOrDead (state_of run_dot2) 2 (value_of run_dot2)) (-1) (-1))) s'.
Proof.
  destruct (NextGeneration_is_life_on_center (state_of run_dot2) 0 (value_of run_dot2))
    as (r & s' & Hrun & _ & Hc).
  - apply reachable_keeping_reachable, reach_dot2.
  - by_compute.
  - lia.
  - exists r, s'. split; [exact Hrun|]. apply Hc; by_compute.
Defined.

(** *** The [next] field *)

Lemma yields_bind {A B} (P : state -> Prop) (m : M A) (k : A -> M B)
    (Q : B -> state -> Prop) :
  keeps P m -> (forall a, yields P (k a) Q) -> yields P (bind m k) Q.
Proof.
  intros Hm Hk s b s' HP H. unfold bind in H.
  destruct (m s) as [a s1| |] eqn:E; try discriminate.
  exact (Hk a s1 b s' (Hm s a s1 HP E) H).
Qed.

Lemma nonnil_NewTree (ch : Childs) : keeps nonnil (NewTree ch).
Proof.
  intros s r s' [Hn Hc] H.
  apply NewTree_run in H as [(_ & Hh & Hm & _)|(_ & nse & nsw & nnw & nne & _ & _ & _ & _ &
                                               Hf & Hr & Hh & Hm & _)].
  - split; [rewrite Hh; exact Hn|]. rewrite Hm. exact Hc.
  - cbv zeta in Hh, Hm. split.
    + rewrite Hh, lookup_insert_ne by auto. exact Hn.
    + intros k p Hk. rewrite Hm in Hk.
      destruct (_ || _); [|exact (Hc k p Hk)].
      destruct (decide (ch = k)) as [->|Hne].
      * rewrite lookup_insert_eq in Hk. congruence.
      * rewrite lookup_insert_ne in Hk by auto. exact (Hc k p Hk).
Qed.

Lemma setNext_run (qt r : ptr) (s : state) (u : unit) (s' : state) :
  setNext qt r s = Ok u s' ->
  exists n, heap s !! qt = Some n /\
    heap s' = <[qt := mkQuadtree (Level n) (childs n) (Population n) r]> (heap s) /\
    nodeMap s' = nodeMap s.
Proof.
  unfold setNext. destruct (heap s !! qt) as [n|] eqn:E; [|discriminate].
  intros H. exists n. split; [reflexivity|].
  assert (s' = mkState (<[qt := mkQuadtree (Level n) (childs n) (Population n) r]> (heap s))
                 (nodeMap s) (cacheHit s) (cacheMiss s)) as -> by congruence.
  auto.
Qed.

Lemma nonnil_setNext (qt r : ptr) : keeps nonnil (setNext qt r).
Proof.
  intros s u s' [Hn Hc] H. apply setNext_run in H as (n & Hp & Hh & Hm).
  split.
  - rewrite Hh, lookup_insert_ne; [exact Hn|]. intros ->. congruence.
  - rewrite Hm. exact Hc.
Qed.

Lemma nonnil_discard : keeps nonnil discardCache.
Proof.
  intros s u s' [Hn Hc] H. unfold discardCache in H.
  destruct (cacheLimit <? _).
  - assert (s' = mkState (heap s) ∅ (cacheHit s) (cacheMiss s)) as -> by congruence.
    split; [exact Hn|]. intros k p Hk. cbn [nodeMap] in Hk.
    rewrite lookup_empty in Hk. discriminate.
  - assert (s' = s) as -> by congruence. split; assumption.
Qed.

Lemma inv_nonnil c (s : state) : inv c s -> nonnil s.
Proof.
  intros Hi. split; [exact (inv_nil c s Hi)|].
  intros k p Hk. destruct (inv_cache c s Hi k p Hk) as (_ & n & Hp & _).
  intros ->. rewrite (inv_nil c s Hi) in Hp. discriminate.
Qed.

(** The last three steps of [NextGeneration]: the result is stored in the
    [next] field of the node. *)
Lemma yields_store (qt : ptr) (ch : Childs) :
  yields nonnil
    (let! nextGen := NewTree ch in let! _ := setNext qt nextGen in ret nextGen)
    (fun r s' => r <> nil /\ exists n', heap s' !! qt = Some n' /\ next n' = r).
Proof.
  intros s r s' HP H. unfold bind in H.
  destruct (NewTree ch s) as [g s1| |] eqn:E1; try discriminate.
  destruct (setNext qt g s1) as [u s2| |] eqn:E2; try discriminate.
  unfold ret in H. assert (g = r /\ s2 = s') as [-> ->] by (split; congruence).
  split.
  - pose proof E1 as E1'.
    apply NewTree_run in E1' as [(Hk & _)|(_ & _ & _ & _ & _ & _ & _ & _ & _ & _ & Hr & _)].
    + exact (proj2 HP ch r Hk).
    + exact Hr.
  - apply setNext_run in E2 as (n & Hp & Hh & _).
    eexists. split; [rewrite Hh; apply lookup_insert_eq|reflexivity].
Qed.

Lemma NextGeneration_fuel_stores (fuel : nat) (qt : ptr) (n : Quadtree) (s : state) :
  heap s !! qt = Some n -> next n = nil -> Level n <> 2 -> nonnil s ->
  forall r s', NextGeneration_fuel (S fuel) qt s = Ok r s' ->
  r <> nil /\ exists n', heap s' !! qt = Some n' /\ next n' = r.
Proof.
  intros Hp Hnx HL HP r s' H. cbn [NextGeneration_fuel] in H.
  rewrite (bind_deref s qt n _ Hp), Hnx in H. cbn [N.eqb negb] in H.
  destruct (Z.eqb_spec (Level n) 2) as [E|_]; [contradiction|].
  cbv zeta in H. clear Hp. revert s r s' HP H.
  change (yields nonnil
    (let! n00 := centeredSubnode (NW (childs n)) in
     let! n01 := centeredHorizontal (NW (childs n)) (NE (childs n)) in
     let! n02 := centeredSubnode (NE (childs n)) in
     let! n10 := centeredVertical (NW (childs n)) (SW (childs n)) in
     let! n11 := centeredSubSubnode qt in
     let! n12 := centeredVertical (NE (childs n)) (SE (childs n)) in
     let! n20 := centeredSubnode (SW (childs n)) in
     let! n21 := centeredHorizontal (SW (childs n)) (SE (childs n)) in
     let! n22 := centeredSubnode (SE (childs n)) in
     let! bnw := NewTree (mkChilds n11 n10 n00 n01) in
     let! rnw := NextGeneration_fuel fuel bnw in
     let! bne := NewTree (mkChilds n12 n11 n01 n02) in
     let! rne := NextGeneration_fuel fuel bne in
     let! bsw := NewTree (mkChilds n21 n20 n10 n11) in
     let! rsw := NextGeneration_fuel fuel bsw in
     let! bse := NewTree (mkChilds n22 n21 n11 n12) in
     let! rse := NextGeneration_fuel fuel bse in
     let! nextGen := NewTree (mkChilds rse rsw rnw rne) in
     let! _ := setNext qt nextGen in
     ret nextGen)
    (fun r s' => r <> nil /\ exists n', heap s' !! qt = Some n' /\ next n' = r)).
  do 17 (apply yields_bind;
          [first [ apply (keeps_centeredSubnode nonnil nonnil_NewTree)
                 | apply (keeps_centeredHorizontal nonnil nonnil_NewTree)
                 | apply (keeps_centeredVertical nonnil nonnil_NewTree)
                 | apply (keeps_centeredSubSubnode nonnil nonnil_NewTree)
                 | apply (keeps_NextGeneration_fuel nonnil nonnil_NewTree nonnil_setNext)
                 | apply nonnil_NewTree ]
          |intros ?]).
  apply yields_store.
Qed.

(** X12. [NextGeneration] remembers its result: after a call on a tree of
    level 3 or more, a second call on the same tree returns the same handle
    and leaves the state, the hit and miss counters included, as it is. *)
Theorem NextGeneration_memoises (s : state) (l : nat) (t r : ptr) (s' : state) :
  reachable s -> is_tree s l t -> (3 <= l)%nat ->
  NextGeneration t s = Ok r s' -> NextGeneration t s' = Ok r s'.
Proof.
  intros Hr [q Ha] Hl Hrun. pose proof (reachable_inv s Hr) as Hi.
  destruct (abs_alloc false s l t q Hi Ha) as [n Hp].
  pose proof (abs_Level false s l t q n Hi Ha Hp) as HL.
  unfold NextGeneration in Hrun. rewrite (bind_deref s t n _ Hp) in Hrun.
  assert (Hs : r <> nil /\ exists n', heap s' !! t = Some n' /\ next n' = r).
  { destruct (N.eqb_spec (next n) nil) as [E|E].
    - apply (NextGeneration_fuel_stores _ t n s Hp E ltac:(lia) (inv_nonnil false s Hi) r s' Hrun).
    - cbn [NextGeneration_fuel] in Hrun. rewrite (bind_deref s t n _ Hp) in Hrun.
      destruct (N.eqb_spec (next n) nil) as [E'|_]; [contradiction|].
      cbn [negb] in Hrun. unfold ret in Hrun.
      assert (next n = r /\ s = s') as [<- <-] by (split; congruence).
      split; [exact E|]. exists n. auto. }
  destruct Hs as (Hnn & n' & Hp' & Hn').
  unfold NextGeneration. rewrite (bind_deref s' t n' _ Hp').
  cbn [NextGeneration_fuel]. rewrite (bind_deref s' t n' _ Hp'), Hn'.
  destruct (N.eqb_spec r nil) as [E|_]; [contradiction|]. reflexivity.
Qed.

Lemma reach_empty3 : reachable_keeping (state_of run_empty3).
Proof.
  apply (keep_step init (OpEmptyTree 3) (value_of run_empty3) (state_of run_empty3) keep_init);
    by_compute.
Qed.

Lemma reach_dot3 : reachable_keeping (state_of run_dot3).
Proof.
  apply (keep_step (state_of run_empty3) (OpSetCell (value_of run_empty3) 0 0 1)
           (value_of run_dot3) (state_of run_dot3) reach_empty3);
    [split; [exists 3%nat|]| |]; by_compute.
Qed.

Lemma NextGeneration_memoises_witness :
  NextGeneration (value_of run_dot3) (state_of run_next3)
  = Ok (value_of run_next3) (state_of run_next3).
Proof.
  apply (NextGeneration_memoises (state_of run_dot3) 3 (value_of run_dot3)).
  - apply reachable_keeping_reachable, reach_dot3.
  - by_compute.
  - lia.
  - vm_compute. reflexivity.
Defined.

Lemma centeredSubnode_nil (s : state) (p : ptr) :
  heap s !! p = None \/ (exists n, heap s !! p = Some n /\ heap s !! SE (childs n) = None) ->
  centeredSubnode p s = Panic NilDeref.
Proof.
  intros [H|(n & Hp & H)]; unfold centeredSubnode.
  - unfold bind at 1. unfold deref at 1. rewrite H. reflexivity.
  - rewrite (bind_deref s p n _ Hp). unfold bind at 1. unfold deref at 1.
    rewrite H. reflexivity.
Qed.

(** X13. [NextGeneration] on a leaf or on a tree of level 1 dereferences a
    nil child and panics. *)
Theorem NextGeneration_below_level2_panics (s : state) (l : nat) (t : ptr) :
  reachable s -> is_tree s l t -> (l < 2)%nat -> NextGeneration t s = Panic NilDeref.
Proof.
  intros Hr [q Ha] Hl. pose proof (reachable_inv s Hr) as Hi.
  destruct (abs_alloc false s l t q Hi Ha) as [n Hp].
  pose proof (abs_Level false s l t q n Hi Ha Hp) as HL.
  assert (Hnx : next n = nil).
  { destruct (N.eqb_spec (next n) nil) as [E|E]; [exact E|].
    destruct (inv_memo false s Hi t n l q Hp E Ha) as [H3 _]. lia. }
  assert (Hc : centeredSubnode (NW (childs n)) s = Panic NilDeref).
  { apply centeredSubnode_nil. destruct l as [|[|l]]; [| |lia].
    - left. apply abs_0_inv in Ha as (b & _ & ->).
      rewrite (leaf_lookup false s b Hi) in Hp.
      assert (NW (childs n) = nil) as -> by (destruct b; inversion Hp; reflexivity).
      exact (inv_nil false s Hi).
    - right.
      apply abs_S_inv in Ha as (n0 & se & sw & nw & ne & Hp0 & _ & _ & _ & _ & A3 & _).
      assert (n0 = n) as -> by congruence.
      apply abs_0_inv in A3 as (b & _ & Eb).
      pose proof (leaf_lookup false s b Hi) as Hb. rewrite <- Eb in Hb.
      eexists. split; [exact Hb|].
      assert (SE (childs (if b then liveNode else deadNode)) = nil) as ->
        by (destruct b; reflexivity).
      exact (inv_nil false s Hi). }
  unfold NextGeneration. rewrite (bind_deref s t n _ Hp).
  cbn [NextGeneration_fuel]. rewrite (bind_deref s t n _ Hp), Hnx.
  change (negb (nil =? nil)%N) with false. cbv iota.
  destruct (Z.eqb_spec (Level n) 2) as [E|_]; [lia|]. cbv zeta.
  unfold bind at 1. rewrite Hc. reflexivity.
Qed.

Lemma NextGeneration_below_level2_panics_witness :
  NextGeneration (value_of run_empty1) (state_of run_empty1) = Panic NilDeref.
Proof.
  apply (NextGeneration_below_level2_panics (state_of run_empty1) 1 (value_of run_empty1)).
  - apply reachable_keeping_reachable, reach_empty1.
  - by_compute.
  - lia.
Defined.

(** ** The centering helpers of [NextGeneration] *)

Lemma Cell_qat c (s : state) (l : nat) (t : ptr) (q : quad) (x y : Z) :
  inv c s -> abs s (S l) t = Some q -> (l <= 63)%nat ->
  - 2 ^ Z.of_nat l <= x < 2 ^ Z.of_nat l -> - 2 ^ Z.of_nat l <= y < 2 ^ Z.of_nat l ->
  Cell t x y s = Ok (Z.b2z (qat (S l) q (x + 2 ^ Z.of_nat l) (y + 2 ^ Z.of_nat l))) s.
Proof.
  intros Hi Ha Hl Hx Hy.
  rewrite (Cell_plane c s l t q x y Hi Ha Hl) by (apply inbox_range; lia).
  rewrite plane_in by lia. reflexivity.
Qed.

(** X14. [centeredHorizontal w e], for two trees of level [l + 2] (up to
    64) with [w] lying to the west of [e], returns the tree of level [l + 1]
    that straddles their common edge: its western half shows cells of [w], its
    eastern half cells of [e], [2^(l+1)] columns away in the coordinates of
    each. *)
Theorem centeredHorizontal_window (s : state) (l : nat) (w e : ptr) :
  reachable s -> is_tree s (S (S l)) w -> is_tree s (S (S l)) e -> (l <= 62)%nat ->
  exists r s',
    centeredHorizontal w e s = Ok r s' /\ is_tree s' (S l) r /\
    forall x y, inbox (S l) x -> inbox (S l) y ->
      exists c, Cell r x y s' = Ok c s' /\
        (if x <? 0 then Cell w (x + 2 ^ Z.of_nat (S l)) y s
         else Cell e (x - 2 ^ Z.of_nat (S l)) y s) = Ok c s.
Proof.
  intros Hr [qw Hw] [qe He] Hl. pose proof (reachable_inv s Hr) as Hi.
  destruct (centeredHorizontal_post false s l w e qw qe Hi Hw He)
    as (r & s' & Hrun & Hi' & _ & Ha).
  exists r, s'. split; [exact Hrun|]. split; [eexists; exact Ha|].
  intros x y Hx Hy. apply (inbox_range l) in Hx, Hy; try lia.
  pose proof (pow2_pos l) as Hp.
  set (f := fun a b : Z => if a <? 4 * 2 ^ Z.of_nat l then qat (S (S l)) qw a b
                           else qat (S (S l)) qe (a - 4 * 2 ^ Z.of_nat l) b).
  assert (W1 : win (S (S l)) qw f 0 0).
  { split; [exact (abs_wf s _ w qw Hw)|]. intros i j Hi0 Hj0. rewrite !pow2_S in Hi0.
    unfold f. destruct (Z.ltb_spec (0 + i) (4 * 2 ^ Z.of_nat l)); [reflexivity|lia]. }
  assert (W2 : win (S (S l)) qe f (0 + 4 * 2 ^ Z.of_nat l) 0).
  { split; [exact (abs_wf s _ e qe He)|]. intros i j Hi0 Hj0.
    unfold f. destruct (Z.ltb_spec (0 + 4 * 2 ^ Z.of_nat l + i) (4 * 2 ^ Z.of_nat l)); [lia|].
    f_equal; lia. }
  destruct (win_centeredH l qw qe f 0 0 W1 W2) as [_ Hwin].
  eexists. split.
  - apply (Cell_qat false s' l r _ x y Hi' Ha ltac:(lia) Hx Hy).
  - rewrite Hwin by (rewrite pow2_S; lia). unfold f. rewrite pow2_S.
    destruct (Z.ltb_spec x 0);
      destruct (Z.ltb_spec (0 + 3 * 2 ^ Z.of_nat l + (x + 2 ^ Z.of_nat l)) (4 * 2 ^ Z.of_nat l));
      try lia.
    + rewrite (Cell_qat false s (S l) w qw _ y Hi Hw ltac:(lia)) by (rewrite pow2_S; lia).
      rewrite pow2_S. do 3 f_equal; lia.
    + rewrite (Cell_qat false s (S l) e qe _ y Hi He ltac:(lia)) by (rewrite pow2_S; lia).
      rewrite pow2_S. do 3 f_equal; lia.
Qed.

Lemma centeredHorizontal_window_witness :
  exists r s' c,
    centeredHorizontal (value_of run_dot2) (value_of run_dot2) (state_of run_dot2) = Ok r s' /\
    Cell r (-1) 0 s' = Ok c s' /\
    Cell (value_of run_dot2) 1 0 (state_of run_dot2) = Ok c (state_of run_dot2).
Proof.
  destruct (centeredHorizontal_window (state_of run_dot2) 0 (value_of run_dot2)
              (value_of run_dot2)) as (r & s' & Hrun & _ & Hc).
  - apply reachable_keeping_reachable, reach_dot2.
  - by_compute.
  - by_compute.
  - lia.
  - destruct (Hc (-1) 0 ltac:(by_compute) ltac:(by_compute)) as (c & H1 & H2).
    exists r, s', c. split; [exact Hrun|]. split; [exact H1|exact H2].
Defined.

(** X15. [centeredVertical n s0], for two trees of level [l + 2] (up to 64)
    with [n] lying to the north of [s0], returns the tree of level [l + 1]
    that straddles their common edge: its northern half shows cells of [n],
    its southern half cells of [s0], [2^(l+1)] rows away in the coordinates of
    each. *)
Theorem centeredVertical_window (s : state) (l : nat) (n s0 : ptr) :
  reachable s -> is_tree s (S (S l)) n -> is_tree s (S (S l)) s0 -> (l <= 62)%nat ->
  exists r s',
    centeredVertical n s0 s = Ok r s' /\ is_tree s' (S l) r /\
    forall x y, inbox (S l) x -> inbox (S l) y ->
      exists c, Cell r x y s' = Ok c s' /\
        (if y <? 0 then Cell n x (y + 2 ^ Z.of_nat (S l)) s
         else Cell s0 x (y - 2 ^ Z.of_nat (S l)) s) = Ok c s.
Proof.
  intros Hr [qn Hn] [qs Hs] Hl. pose proof (reachable_inv s Hr) as Hi.
  destruct (centeredVertical_post false s l n s0 qn qs Hi Hn Hs)
    as (r & s' & Hrun & Hi' & _ & Ha).
  exists r, s'. split; [exact Hrun|]. split; [eexists; exact Ha|].
  intros x y Hx Hy. apply (inbox_range l) in Hx, Hy; try lia.
  pose proof (pow2_pos l) as Hp.
  set (f := fun a b : Z => if b <? 4 * 2 ^ Z.of_nat l then qat (S (S l)) qn a b
                           else qat (S (S l)) qs a (b - 4 * 2 ^ Z.of_nat l)).
  assert (W1 : win (S (S l)) qn f 0 0).
  { split; [exact (abs_wf s _ n qn Hn)|]. intros i j Hi0 Hj0. rewrite !pow2_S in Hj0.
    unfold f. destruct (Z.ltb_spec (0 + j) (4 * 2 ^ Z.of_nat l)); [reflexivity|lia]. }
  assert (W2 : win (S (S l)) qs f 0 (0 + 4 * 2 ^ Z.of_nat l)).
  { split; [exact (abs_wf s _ s0 qs Hs)|]. intros i j Hi0 Hj0.
    unfold f. destruct (Z.ltb_spec (0 + 4 * 2 ^ Z.of_nat l + j) (4 * 2 ^ Z.of_nat l)); [lia|].
    f_equal; lia. }
  destruct (win_centeredV l qn qs f 0 0 W1 W2) as [_ Hwin].
  eexists. split.
  - apply (Cell_qat false s' l r _ x y Hi' Ha ltac:(lia) Hx Hy).
  - rewrite Hwin by (rewrite pow2_S; lia). unfold f. rewrite pow2_S.
    destruct (Z.ltb_spec y 0);
      destruct (Z.ltb_spec (0 + 3 * 2 ^ Z.of_nat l + (y + 2 ^ Z.of_nat l)) (4 * 2 ^ Z.of_nat l));
      try lia.
    + rewrite (Cell_qat false s (S l) n qn x _ Hi Hn ltac:(lia)) by (rewrite pow2_S; lia).
      rewrite pow2_S. do 3 f_equal; lia.
    + rewrite (Cell_qat false s (S l) s0 qs x _ Hi Hs ltac:(lia)) by (rewrite pow2_S; lia).
      rewrite pow2_S. do 3 f_equal; lia.
Qed.

Lemma centeredVertical_window_witness :
  exists r s' c,
    centeredVertical (value_of run_dot2) (value_of run_dot2) (state_of run_dot2) = Ok r s' /\
    Cell r 0 0 s' = Ok c s' /\
    Cell (value_of run_dot2) 0 (-2) (state_of run_dot2) = Ok c (state_of run_dot2).
Proof.
  destruct (centeredVertical_window (state_of run_dot2) 0 (value_of run_dot2)
              (value_of run_dot2)) as (r & s' & Hrun & _ & Hc).
  - apply reachable_keeping_reachable, reach_dot2.
  - by_compute.
  - by_compute.
  - lia.
  - destruct (Hc 0 0 ltac:(by_compute) ltac:(by_compute)) as (c & H1 & H2).
    exists r, s', c. split; [exact Hrun|]. split; [exact H1|exact H2].
Defined.

(** X16. [centeredSubSubnode] on a tree of level [l + 3] (up to 64) returns
    the tree of level [l + 1] around the origin: a quarter of the side, the
    same cell at every coordinate of its box. *)
Theorem centeredSubSubnode_center (s : state) (l : nat) (t : ptr) :
  reachable s -> is_tree s (S (S (S l))) t -> (l <= 61)%nat ->
  exists r s',
    centeredSubSubnode t s = Ok r s' /\ is_tree s' (S l) r /\
    forall x y, inbox (S l) x -> inbox (S l) y ->
      exists c, Cell r x y s' = Ok c s' /\ Cell t x y s = Ok c s.
Proof.
  intros Hr [q Ha] Hl. pose proof (reachable_inv s Hr) as Hi.
  destruct (centeredSubSubnode_post false s l t q Hi Ha) as (r & s' & Hrun & Hi' & _ & Har).
  exists r, s'. split; [exact Hrun|]. split; [eexists; exact Har|].
  intros x y Hx Hy. apply (inbox_range l) in Hx, Hy; try lia.
  pose proof (pow2_pos l) as Hp.
  destruct (win_centeredSS l q _ 0 0 (win_self _ q (abs_wf s _ t q Ha))) as [_ Hwin].
  eexists. split.
  - apply (Cell_qat false s' l r _ x y Hi' Har ltac:(lia) Hx Hy).
  - rewrite Hwin by (rewrite pow2_S; lia).
    rewrite (Cell_qat false s (S (S l)) t q x y Hi Ha ltac:(lia)) by (rewrite !pow2_S; lia).
    rewrite !pow2_S. do 3 f_equal; lia.
Qed.

Lemma centeredSubSubnode_center_witness :
  exists r s' c,
    centeredSubSubnode (value_of run_dot3) (state_of run_dot3) = Ok r s' /\
    Cell r 0 0 s' = Ok c s' /\
    Cell (value_of run_dot3) 0 0 (state_of run_dot3) = Ok c (state_of run_dot3).
Proof.
  destruct (centeredSubSubnode_center (state_of run_dot3) 0 (value_of run_dot3))
    as (r & s' & Hrun & _ & Hc).
  - apply reachable_keeping_reachable, reach_dot3.
  - by_compute.
  - lia.
  - destruct (Hc 0 0 ltac:(by_compute) ltac:(by_compute)) as (c & H1 & H2).
    exists r, s', c. split; [exact Hrun|]. split; [exact H1|exact H2].
Defined.

(** ** Trees are immutable *)

Lemma ext_NewTree (s0 : state) (ch : Childs) : keeps (ext s0) (NewTree ch).
Proof.
  intros s r s' He H. apply (ext_trans s0 s s' He).
  apply NewTree_run in H as [(_ & Hh & _)|(_ & nse & nsw & nnw & nne & _ & _ & _ & _ &
                                          Hf & _ & Hh & _)].
  - intros p n Hp. exists n. rewrite Hh. auto.
  - cbv zeta in Hh. intros p n Hp. exists n. rewrite Hh.
    rewrite lookup_insert_ne by (intros ->; congruence). auto.
Qed.

Lemma ext_setNext (s0 : state) (qt r : ptr) : keeps (ext s0) (setNext qt r).
Proof.
  intros s u s' He H. apply (ext_trans s0 s s' He).
  apply setNext_run in H as (n & Hq & Hh & _).
  intros p m Hp. rewrite Hh. destruct (decide (qt = p)) as [->|Hne].
  - rewrite lookup_insert_eq. assert (m = n) as -> by congruence.
    eexists. split; [reflexivity|]. auto.
  - rewrite lookup_insert_ne by auto. exists m. auto.
Qed.

Lemma discardCache_heap (s : state) (u : unit) (sd : state) :
  discardCache s = Ok u sd -> heap sd = heap s.
Proof.
  unfold discardCache. destruct (_ <? _); intros H; injection H as H; subst sd; reflexivity.
Qed.

Lemma ext_discard (s0 : state) : keeps (ext s0) discardCache.
Proof.
  intros s u s' He H. apply (ext_trans s0 s s' He).
  intros p n Hp. exists n. rewrite (discardCache_heap s u s' H). auto.
Qed.

Lemma ext_run_op (s : state) (o : op) (r : ptr) (s' : state) :
  run_op o s = Ok r s' -> ext s s'.
Proof.
  intros H.
  exact (keeps_run_op (ext s) (ext_NewTree s) (ext_setNext s) (ext_discard s) o s r s'
           (ext_refl s) H).
Qed.

(** X17. Trees are immutable: whatever public operation runs, a tree that
    existed before is a tree of the same level afterwards and [Cell] reports
    the same value at every coordinate of its box. *)
Theorem trees_are_persistent (s : state) (l : nat) (t : ptr) (o : op) (r : ptr) (s' : state) :
  reachable s -> is_tree s l t -> op_ok s o -> run_op o s = Ok r s' ->
  is_tree s' l t /\
  forall x y, inbox l x -> inbox l y ->
    exists c, Cell t x y s = Ok c s /\ Cell t x y s' = Ok c s'.
Proof.
  intros Hr [q Ha] Hok Hrun. pose proof (reachable_inv s Hr) as Hi.
  pose proof (ext_run_op s o r s' Hrun) as He.
  assert (Hi' : inv false s') by (eapply step_inv; eauto; discriminate).
  pose proof (abs_mono s s' He _ _ _ Ha) as Ha'.
  split; [eexists; exact Ha'|]. intros x y Hx Hy.
  exists (Z.b2z (cellb l q x y)). split.
  - exact (Cell_value false s l t q x y Hi Ha Hx Hy).
  - exact (Cell_value false s' l t q x y Hi' Ha' Hx Hy).
Qed.

Lemma trees_are_persistent_witness :
  exists c,
    Cell (value_of run_dot2) 0 0 (state_of run_dot2) = Ok c (state_of run_dot2) /\
    Cell (value_of run_dot2) 0 0
      (state_of (SetCell (value_of run_dot2) 0 0 0 (state_of run_dot2)))
    = Ok c (state_of (SetCell (value_of run_dot2) 0 0 0 (state_of run_dot2))).
Proof.
  destruct (trees_are_persistent (state_of run_dot2) 2 (value_of run_dot2)
              (OpSetCell (value_of run_dot2) 0 0 0)
              (value_of (SetCell (value_of run_dot2) 0 0 0 (state_of run_dot2)))
              (state_of (SetCell (value_of run_dot2) 0 0 0 (state_of run_dot2))))
    as [_ Hc].
  - apply reachable_keeping_reachable, reach_dot2.
  - by_compute.
  - split; [exists 2%nat|]; by_compute.
  - vm_compute. reflexivity.
  - apply Hc; by_compute.
Defined.

(** ** What an operation that returns has done *)

Lemma NextGen_level (s : state) (qt : ptr) (n : Quadtree) (r : ptr) (s' : state) :
  heap s !! qt = Some n -> NextGen qt s = Ok r s' -> 1 <= Level n < 63.
Proof.
  intros Hp Hrun.
  destruct (Z_lt_le_dec (Level n) 1) as [H0|H1];
    [|destruct (Z_lt_le_dec (Level n) 63) as [Hlt|H63]; [lia|]]; exfalso.
  all: unfold NextGen, bind in Hrun.
  all: destruct (discardCache s) as [u sd| |] eqn:Hd; [|discriminate..].
  all: destruct (grow_panics sd qt n) as [e He];
    [rewrite (discardCache_heap s u sd Hd); exact Hp|lia|].
  all: rewrite He in Hrun; discriminate.
Qed.

Lemma fitLevel_fits (fuel : nat) (x y : Z) : forall l l', fitLevel fuel l x y = Some l' ->
  fits (Z.of_nat l') x y = true /\ (l' = l \/ (l < l' <= 63)%nat).
Proof.
  induction fuel as [|fuel IH]; intros l l' Ef; [discriminate|].
  cbn [fitLevel] in Ef. destruct (fits (Z.of_nat l) x y) eqn:Hf.
  - assert (l' = l) as -> by congruence. auto.
  - destruct (Z.leb_spec 63 (Z.of_nat l)); [discriminate|].
    destruct (Z.ltb_spec (Z.of_nat l) 1); [discriminate|]. cbn [orb] in Ef.
    destruct (IH _ _ Ef) as [H1 [->|H2]]; split; auto; right; lia.
Qed.

(** X18. What a public operation that returns has returned: [EmptyTree] a
    tree of the level asked for (of level 0 next to the overflow), [NewTree]
    on four trees of one level a tree one level up, [SetCell] a tree of the
    same level, and only for coordinates inside the box, [grow] a tree one
    level up, and only from a level between 1 and 62, [GrowToFit] a tree of
    the same or a higher level, at most 63, that passes the fit test, [NextGen]
    a tree of the same level, and only at a level between 1 and 62. *)
Theorem operations_return_trees (s : state) (o : op) (r : ptr) (s' : state) :
  reachable s -> op_ok s o -> run_op o s = Ok r s' ->
  match o with
  | OpEmptyTree level =>
      is_tree s' (if level <? 2 ^ 64 - 2 then Z.to_nat level else 0%nat) r
  | OpNewTree ch =>
      forall l, Z.of_nat l + 1 < 2 ^ 64 ->
        is_tree s l (SE ch) -> is_tree s l (SW ch) ->
        is_tree s l (NW ch) -> is_tree s l (NE ch) -> is_tree s' (S l) r
  | OpSetCell qt x y v =>
      forall l, is_tree s l qt ->
        is_tree s' l r /\ ((1 <= l <= 64)%nat -> inbox l x /\ inbox l y)
  | OpGrow qt =>
      forall l, is_tree s l qt -> (1 <= l <= 62)%nat /\ is_tree s' (S l) r
  | OpGrowToFit qt x y =>
      forall l, is_tree s l qt ->
        exists l', (l' = l \/ (l < l' <= 63)%nat) /\ is_tree s' l' r /\
                   fits (Z.of_nat l') x y = true
  | OpNextGen qt =>
      forall l, is_tree s l qt -> (1 <= l <= 62)%nat /\ is_tree s' l r
  end.
Proof.
  intros Hr Hok Hrun. pose proof (reachable_inv s Hr) as Hi.
  destruct o as [level|k|qt x y v|qt|qt x y|qt]; cbn [run_op op_ok] in *.
  - unfold uint in Hok. destruct (Z.ltb_spec level (2 ^ 64 - 2)) as [Hs|Hb].
    + destruct (EmptyTree_post false s (Z.to_nat level) Hi ltac:(lia))
        as (r' & s'' & Hrun' & _ & _ & Ha).
      rewrite Z2Nat.id in Hrun' by lia.
      assert (r' = r /\ s'' = s') as [-> ->] by (split; congruence).
      eexists; exact Ha.
    + rewrite EmptyTree_collapse in Hrun by lia.
      assert (r = deadLeaf /\ s' = s) as [-> ->] by (split; congruence).
      exists (QLeaf false). exact (abs_leaf s false).
  - intros l Hl [q1 A1] [q2 A2] [q3 A3] [q4 A4].
    destruct (NewTree_abs false s k l q1 q2 q3 q4 Hi Hl A1 A2 A3 A4)
      as (r' & s'' & Hrun' & _ & _ & Ha & _).
    assert (r' = r /\ s'' = s') as [-> ->] by (split; congruence).
    eexists; exact Ha.
  - intros l [q Ha]. destruct Hok as (_ & Hx & Hy & _).
    pose proof (SetCell_spec false s l qt q x y v Hi Ha) as H.
    destruct (qset l q x y (negb (v =? 0))) as [q'|] eqn:Eq.
    + destruct H as (r' & s'' & Hrun' & _ & _ & Ha').
      assert (r' = r /\ s'' = s') as [-> ->] by (split; congruence).
      split; [eexists; exact Ha'|]. intros Hl.
      destruct l as [|l]; [lia|].
      destruct (dbox_dec (S l) x) as [Bx|Bx]; [destruct (dbox_dec (S l) y) as [By|By]|].
      * split; assumption.
      * rewrite (qset_outside (S l) _ ltac:(lia) q x y Hx Hy) in Eq by tauto. discriminate.
      * rewrite (qset_outside (S l) _ ltac:(lia) q x y Hx Hy) in Eq by tauto. discriminate.
    + destruct H as [e He]. congruence.
  - intros l [q Ha].
    destruct (abs_alloc false s l qt q Hi Ha) as [n Hp].
    pose proof (abs_Level false s l qt q n Hi Ha Hp) as HL.
    destruct (le_lt_dec 1 l) as [H1|H0]; [destruct (le_lt_dec 63 l) as [H63|Hlt]|].
    + destruct (grow_panics s qt n Hp) as [e He]; [lia|congruence].
    + destruct (grow_post false s l qt q Hi Ha ltac:(lia)) as (r' & s'' & Hrun' & _ & _ & Ha').
      assert (r' = r /\ s'' = s') as [-> ->] by (split; congruence).
      split; [lia|eexists; exact Ha'].
    + destruct (grow_panics s qt n Hp) as [e He]; [lia|congruence].
  - intros l [q Ha].
    pose proof (GrowToFit_fuel_spec false x y 64 s l qt q Hi Ha) as H.
    unfold GrowToFit in Hrun.
    destruct (fitLevel 64 l x y) as [l'|] eqn:Ef.
    + destruct H as (r' & s'' & Hrun' & _ & _ & Ha' & _).
      assert (r' = r /\ s'' = s') as [-> ->] by (split; congruence).
      destruct (fitLevel_fits 64 x y l l' Ef) as [Hf Hb].
      exists l'. split; [exact Hb|]. split; [eexists; exact Ha'|exact Hf].
    + exfalso. eapply H; eauto.
  - intros l [q Ha].
    destruct (abs_alloc false s l qt q Hi Ha) as [n Hp].
    pose proof (abs_Level false s l qt q n Hi Ha Hp) as HL.
    pose proof (NextGen_level s qt n r s' Hp Hrun) as Hlv.
    destruct (NextGen_post false s l qt q Hi ltac:(discriminate) Ha ltac:(lia))
      as (r' & s'' & Hrun' & _ & _ & Ha').
    assert (r' = r /\ s'' = s') as [-> ->] by (split; congruence).
    split; [lia|eexists; exact Ha'].
Qed.

Lemma operations_return_trees_witness :
  is_tree (state_of (grow (value_of run_dot2) (state_of run_dot2))) 3
    (value_of (grow (value_of run_dot2) (state_of run_dot2))).
Proof.
  apply (operations_return_trees (state_of run_dot2) (OpGrow (value_of run_dot2))
           (value_of (grow (value_of run_dot2) (state_of run_dot2)))
           (state_of (grow (value_of run_dot2) (state_of run_dot2)))).
  - apply reachable_keeping_reachable, reach_dot2.
  - exists 2%nat. by_compute.
  - vm_compute. reflexivity.
  - by_compute.
Defined.

(** ** Allocation *)

Lemma NewTree_size (ch : Childs) (s : state) (r : ptr) (s' : state) :
  NewTree ch s = Ok r s' -> (size (heap s') <= size (heap s) + 1)%nat.
Proof.
  intros H.
  apply NewTree_run in H as [(_ & Hh & _)|(_ & nse & nsw & nnw & nne & _ & _ & _ & _ &
                                          Hf & _ & Hh & _)].
  - rewrite Hh. lia.
  - cbv zeta in Hh. rewrite Hh, map_size_insert_None by exact Hf. lia.
Qed.

Lemma SetCell_fuel_size c (s : state) : inv c s ->
  forall (l fuel : nat) p q x y v r s',
    abs s l p = Some q -> SetCell_fuel fuel p x y v s = Ok r s' ->
    (size (heap s') <= size (heap s) + l)%nat.
Proof.
  intros Hi. induction l as [|l IH]; intros fuel p q x y v r s' Ha H;
    (destruct fuel as [|fuel]; [discriminate|]);
    destruct (abs_alloc c s _ p q Hi Ha) as [n Hp];
    pose proof (abs_Level c s _ p q n Hi Ha Hp) as HL;
    cbn [SetCell_fuel] in H; rewrite (bind_deref s p n _ Hp), HL in H.
  - change (Z.of_nat 0 =? 0) with true in H. cbv iota in H.
    destruct (leafCheck x y); [discriminate|].
    destruct (v =? 0); injection H as _ <-; lia.
  - destruct (Z.eqb_spec (Z.of_nat (S l)) 0) as [E|_]; [lia|]. cbv zeta in H.
    apply abs_S_inv in Ha as (n' & se & sw & nw & ne & Hp' & _ & _ & A1 & A2 & A3 & A4).
    assert (n' = n) as -> by congruence.
    destruct (0 <=? x), (0 <=? y); unfold bind in H;
      match type of H with
      | match SetCell_fuel ?f ?c ?a ?b ?w s with _ => _ end = _ =>
          destruct (SetCell_fuel f c a b w s) as [r1 s1| |] eqn:E1; [|discriminate..]
      end;
      apply NewTree_size in H.
    + pose proof (IH _ _ _ _ _ _ _ _ A1 E1). lia.
    + pose proof (IH _ _ _ _ _ _ _ _ A4 E1). lia.
    + pose proof (IH _ _ _ _ _ _ _ _ A2 E1). lia.
    + pose proof (IH _ _ _ _ _ _ _ _ A3 E1). lia.
Qed.

(** X19. [SetCell] shares what it does not change: on a tree of level [l]
    it allocates at most [l] nodes, one for each level on the path to the
    cell. *)
Theorem SetCell_allocates_at_most_level (s : state) (l : nat) (t : ptr) (x y v : Z)
    (r : ptr) (s' : state) :
  reachable s -> is_tree s l t -> SetCell t x y v s = Ok r s' ->
  (size (heap s') <= size (heap s) + l)%nat.
Proof.
  intros Hr [q Ha] Hrun. pose proof (reachable_inv s Hr) as Hi.
  destruct (abs_alloc false s l t q Hi Ha) as [n Hp].
  unfold SetCell in Hrun. rewrite (bind_deref s t n _ Hp) in Hrun.
  exact (SetCell_fuel_size false s Hi l _ t q x y v r s' Ha Hrun).
Qed.

Lemma SetCell_allocates_at_most_level_witness :
  (size (heap (state_of (SetCell (value_of run_dot2) 1 1 1 (state_of run_dot2))))
   <= size (heap (state_of run_dot2)) + 2)%nat.
Proof.
  apply (SetCell_allocates_at_most_level (state_of run_dot2) 2 (value_of run_dot2) 1 1 1
           (value_of (SetCell (value_of run_dot2) 1 1 1 (state_of run_dot2)))).
  - apply reachable_keeping_reachable, reach_dot2.
  - by_compute.
  - vm_compute. reflexivity.
Defined.

(** ** Several generations *)

Lemma lifeIn_ext (l : nat) (f g : Z -> Z -> bool) :
  (forall x y, f x y = g x y) -> forall x y, lifeIn l f x y = lifeIn l g x y.
Proof.
  intros H x y. unfold lifeIn. destruct (_ && _); [|reflexivity].
  apply life_map. intros du dv _ _. apply H.
Qed.

Lemma iter_lifeIn_ext (l k : nat) (f g : Z -> Z -> bool) :
  (forall x y, f x y = g x y) ->
  forall x y, Nat.iter k (lifeIn l) f x y = Nat.iter k (lifeIn l) g x y.
Proof.
  intros H. induction k as [|k IH]; [exact H|].
  cbn [Nat.iter]. apply lifeIn_ext, IH.
Qed.

Lemma inboxb_false (l : nat) (x : Z) : (l <= 63)%nat -> inboxb (S l) x = false ->
  ~ (- 2 ^ Z.of_nat l <= x < 2 ^ Z.of_nat l).
Proof.
  intros Hl Hb Hx. apply (inbox_range l x Hl) in Hx. apply inboxb_spec in Hx. congruence.
Qed.

Lemma NextGens_plane (l : nat) : (l <= 61)%nat ->
  forall (k : nat) (s : state) (t : ptr) (q : quad),
  inv false s -> abs s (S l) t = Some q ->
  exists r s' qr,
    NextGens k t s = Ok r s' /\ inv false s' /\ abs s' (S l) r = Some qr /\
    forall x y, plane (S l) qr x y = Nat.iter k (lifeIn (S l)) (plane (S l) q) x y.
Proof.
  intros Hl. induction k as [|k IH]; intros s t q Hi Ha.
  - exists t, s, q. auto.
  - destruct (NextGen_plane false s l t q Hi ltac:(discriminate) Ha Hl)
      as (r1 & s1 & q1 & Hrun1 & Hi1 & Ha1 & Hp1).
    destruct (IH s1 r1 q1 Hi1 Ha1) as (r & s' & qr & Hrun & Hi' & Har & Hp).
    exists r, s', qr. cbn [NextGens]. unfold bind. rewrite Hrun1.
    split; [exact Hrun|]. split; [exact Hi'|]. split; [exact Har|].
    intros x y. rewrite Hp, Nat.iter_succ_r.
    apply iter_lifeIn_ext. clear x y. intros x y. unfold lifeIn.
    destruct (inboxb (S l) x) eqn:Ex; [destruct (inboxb (S l) y) eqn:Ey|]; cbn [andb].
    + apply Hp1; apply inboxb_spec; assumption.
    + apply plane_out. intros [_ H]. exact (inboxb_false l y ltac:(lia) Ey H).
    + apply plane_out. intros [H _]. exact (inboxb_false l x ltac:(lia) Ex H).
Qed.

(** X20. [k] calls of [NextGen] in a row, on a tree of level [l] from 1 to
    62, return a tree of the same level that shows the [k]-th generation of
    Life on the box of the tree, where a cell outside the box is dead in
    every generation. *)
Theorem NextGen_iterates_life (s : state) (l : nat) (t : ptr) (k : nat) :
  reachable s -> is_tree s l t -> (1 <= l <= 62)%nat ->
  exists r s',
    NextGens k t s = Ok r s' /\ is_tree s' l r /\
    forall x y, inbox l x -> inbox l y ->
      Cell r x y s' = Ok (Z.b2z (Nat.iter k (lifeIn l) (cellOrDead s l t) x y)) s'.
Proof.
  intros Hr [q Ha] Hl. pose proof (reachable_inv s Hr) as Hi.
  destruct l as [|l]; [lia|].
  destruct (NextGens_plane l ltac:(lia) k s t q Hi Ha) as (r & s' & qr & Hrun & Hi' & Har & Hp).
  exists r, s'. split; [exact Hrun|]. split; [eexists; exact Har|].
  intros x y Hx Hy.
  rewrite (Cell_plane false s' l r qr x y Hi' Har ltac:(lia) Hx Hy), Hp.
  do 2 f_equal. apply iter_lifeIn_ext. intros u v. symmetry.
  apply (cellOrDead_plane false s l t q u v Hi Ha). lia.
Qed.

Lemma NextGen_iterates_life_witness :
  exists r s',
    NextGens 3 (value_of run_dot2) (state_of run_dot2) = Ok r s' /\
    Cell r 0 0 s'
    = Ok (Z.b2z (Nat.iter 3 (lifeIn 2) (cellOrDead (state_of run_dot2) 2 (value_of run_dot2))
                   0 0)) s'.
Proof.
  destruct (NextGen_iterates_life (state_of run_dot2) 2 (value_of run_dot2) 3)
    as (r & s' & Hrun & _ & Hc).
  - apply reachable_keeping_reachable, reach_dot2.
  - by_compute.
  - lia.
  - exists r, s'. split; [exact Hrun|]. apply Hc; by_compute.
Defined.

(** ** Setting a cell anywhere *)

(** X21. [GrowToFit] followed by [SetCell] sets a cell anywhere within
    [-2^62, 2^62): for a tree of level 1 to 63 the pair never panics, the
    result is a tree of a level [l'] between the old level and 63 whose box
    holds [(x, y)], the addressed cell reads 0 for [v = 0] and 1 otherwise,
    and every other cell of the box reads what the old tree had there, dead
    outside the old box. *)
Theorem GrowToFit_then_SetCell (s : state) (l : nat) (t : ptr) (x y v : Z) :
  reachable s -> is_tree s l t -> (1 <= l <= 63)%nat ->
  - 2 ^ 62 <= x < 2 ^ 62 -> - 2 ^ 62 <= y < 2 ^ 62 ->
  exists r s' l',
    (let! g := GrowToFit t x y in SetCell g x y v) s = Ok r s' /\
    is_tree s' l' r /\ (l <= l' <= 63)%nat /\ inbox l' x /\ inbox l' y /\
    Cell r x y s' = Ok (if v =? 0 then 0 else 1) s' /\
    forall u w, inbox l' u -> inbox l' w -> (u, w) <> (x, y) ->
      Cell r u w s' = Ok (Z.b2z (cellOrDead s l t u w)) s'.
Proof.
  intros Hr [q Ha] Hl Hx Hy. pose proof (reachable_inv s Hr) as Hi.
  destruct l as [|l]; [lia|].
  pose proof (abs_wf s _ t q Ha) as Hw.
  destruct (fitLevel_spec x y Hx Hy 64 l ltac:(lia) ltac:(lia))
    as (l' & E & Hrg & Hfit & _).
  pose proof (GrowToFit_fuel_spec false x y 64 s (S l) t q Hi Ha) as Hspec.
  rewrite E in Hspec. destruct Hspec as (g & s1 & Hrun1 & Hi1 & He1 & Hag & _).
  apply (fits_inbox l' x y ltac:(lia)) in Hfit.
  assert (Hbx : inbox (S l') x) by (apply inbox_range; lia).
  assert (Hby : inbox (S l') y) by (apply inbox_range; lia).
  destruct (SetCell_Cell_spec false s1 (S l') g _ x y v Hi1 Hag Hbx Hby)
    as (r & s' & q' & Hrun2 & Hi' & He2 & Har & Hqs & _ & Hc).
  exists r, s', (S l'). unfold bind, GrowToFit. rewrite Hrun1.
  split; [exact Hrun2|]. split; [eexists; exact Har|]. split; [lia|].
  split; [exact Hbx|]. split; [exact Hby|]. split.
  - rewrite Hc. destruct (v =? 0); reflexivity.
  - intros u w Hu Hw' Hne.
    destruct (SetCell_frame_spec false s1 s' (S l') g r _ q' x y u w _ Hi1 Hi' Hag Har Hqs
                Hbx Hby Hu Hw' Hne) as (c & C1 & C2).
    rewrite C2. rewrite (Cell_plane false s1 l' g _ u w Hi1 Hag ltac:(lia) Hu Hw') in C1.
    rewrite (cellOrDead_plane false s l t q u w Hi Ha ltac:(lia)).
    replace (S l') with ((S l' - S l) + S l)%nat in C1 at 1 by lia.
    rewrite plane_grows in C1 by exact Hw. congruence.
Qed.

Lemma GrowToFit_then_SetCell_witness :
  exists r s' l',
    (let! g := GrowToFit (value_of run_dot2) 5 (-7) in SetCell g 5 (-7) 1) (state_of run_dot2)
    = Ok r s' /\
    is_tree s' l' r /\ Cell r 5 (-7) s' = Ok 1 s'.
Proof.
  destruct (GrowToFit_then_SetCell (state_of run_dot2) 2 (value_of run_dot2) 5 (-7) 1)
    as (r & s' & l' & Hrun & Ht & _ & _ & _ & Hc & _).
  - apply reachable_keeping_reachable, reach_dot2.
  - by_compute.
  - lia.
  - lia.
  - lia.
  - exists r, s', l'. split; [exact Hrun|]. split; [exact Ht|exact Hc].
Defined.

(** ** The population counter wraps *)

Lemma wrap64_add_l (a b : Z) : wrap64 (wrap64 a + b) = wrap64 (a + b).
Proof.
  unfold wrap64. f_equal.
  replace ((a + 2 ^ 63) mod 2 ^ 64 - 2 ^ 63 + b + 2 ^ 63)
    with ((a + 2 ^ 63) mod 2 ^ 64 + b) by lia.
  rewrite Zplus_mod_idemp_l. f_equal. lia.
Qed.

Lemma wrap64_shift (a k : Z) : wrap64 (a + k * 2 ^ 64) = wrap64 a.
Proof.
  unfold wrap64. f_equal.
  replace (a + k * 2 ^ 64 + 2 ^ 63) with (a + 2 ^ 63 + k * 2 ^ 64) by lia.
  apply Z_mod_plus_full.
Qed.

Lemma wrap64_mod (a : Z) : exists k, wrap64 a = a + k * 2 ^ 64.
Proof.
  exists (- ((a + 2 ^ 63) / 2 ^ 64)). unfold wrap64.
  pose proof (Z.div_mod (a + 2 ^ 63) (2 ^ 64) ltac:(lia)). lia.
Qed.

Lemma wrap64_sum4 (q : Z) :
  wrap64 (wrap64 (wrap64 (wrap64 q + wrap64 q) + wrap64 q) + wrap64 q) = wrap64 (4 * q).
Proof.
  destruct (wrap64_mod q) as [k Hk]. rewrite Hk. set (P := q + k * 2 ^ 64).
  rewrite (wrap64_add_l (P + P) P), (wrap64_add_l (P + P + P) P). subst P.
  replace (q + k * 2 ^ 64 + (q + k * 2 ^ 64) + (q + k * 2 ^ 64) + (q + k * 2 ^ 64))
    with (4 * q + (4 * k) * 2 ^ 64) by lia.
  apply wrap64_shift.
Qed.

Lemma qfull_wf (l : nat) : qwf l (qfull l).
Proof. induction l as [|l IH]; cbn [qfull qwf]; auto. Qed.

Lemma qfind_full (l : nat) : forall x y b, qfind l (qfull l) x y = Some b -> b = true.
Proof.
  induction l as [|l IH]; intros x y b H.
  - cbn [qfull qfind] in H. destruct (leafCheck x y); congruence.
  - cbn [qfull] in H. rewrite qfind_step in H.
    destruct (0 <=? x), (0 <=? y); exact (IH _ _ _ H).
Qed.

Lemma fullTree_post (l : nat) : Z.of_nat l + 1 < 2 ^ 64 ->
  forall s, reachable s ->
  exists t s' n,
    fullTree l s = Ok t s' /\ reachable s' /\ abs s' l t = Some (qfull l) /\
    heap s' !! t = Some n /\ Population n = wrap64 (4 ^ Z.of_nat l).
Proof.
  induction l as [|l IH]; intros Hl s Hr.
  - exists liveLeaf, s, liveNode. split; [reflexivity|]. split; [exact Hr|].
    split; [exact (abs_leaf s true)|].
    split; [exact (inv_live false s (reachable_inv s Hr))|reflexivity].
  - destruct (IH ltac:(lia) s Hr) as (c & s1 & nc & Hrun1 & Hr1 & Ac & Hc & Pc).
    pose proof (reachable_inv s1 Hr1) as Hi1.
    destruct (NewTree_abs false s1 (mkChilds c c c c) l _ _ _ _ Hi1 ltac:(lia) Ac Ac Ac Ac)
      as (t & s' & Hrun & Hi' & He & At & n & Hn & Hk).
    assert (Hr' : reachable s').
    { exact (reach_step s1 (OpNewTree (mkChilds c c c c)) t s' Hr1 I Hrun). }
    exists t, s', n. cbn [fullTree]. unfold bind. rewrite Hrun1.
    split; [exact Hrun|]. split; [exact Hr'|]. split; [exact At|]. split; [exact Hn|].
    destruct (reachable_pop_ok s' Hr' t n Hn (abs_S_nonleaf false s' l t _ Hi' At))
      as (n1 & n2 & n3 & n4 & L1 & L2 & L3 & L4 & ->).
    rewrite Hk in L1, L2, L3, L4. cbn [SE SW NW NE] in L1, L2, L3, L4.
    destruct (He c nc Hc) as (nc' & Hc' & _ & _ & Pc').
    assert (n1 = nc' /\ n2 = nc' /\ n3 = nc' /\ n4 = nc') as (-> & -> & -> & ->)
      by (repeat split; congruence).
    rewrite Pc', Pc, wrap64_sum4. f_equal.
    rewrite Nat2Z.inj_succ, Z.pow_succ_r by lia. reflexivity.
Qed.

(** X22. The [Population] field wraps at int64.  The all-live tree of level
    [l] (up to 64), built bottom-up by [l] calls of [NewTree], has population
    [4^l] reduced to int64; from level 32 on that is 0, although [Cell]
    reports 1 at every coordinate, and [FindLifeCells] then calls the callback
    for no cell at all. *)
Theorem Population_wraps (s : state) (l : nat) :
  reachable s -> (l <= 64)%nat ->
  exists t s' n,
    fullTree l s = Ok t s' /\ reachable s' /\ is_tree s' l t /\
    (forall x y, inbox l x -> inbox l y -> Cell t x y s' = Ok 1 s') /\
    heap s' !! t = Some n /\ Population n = wrap64 (4 ^ Z.of_nat l) /\
    ((32 <= l)%nat ->
       Population n = 0 /\
       forall (U : Type) (callback : Z -> Z -> U -> U) (u : U) x0 y0,
         FindLifeCells t x0 y0 callback u s' = Ok u s').
Proof.
  intros Hr Hl.
  assert (Hb : Z.of_nat l + 1 < 2 ^ 64).
  { assert (2 ^ 7 < 2 ^ 64) by (vm_compute; reflexivity).
    assert (Z.of_nat l + 1 <= 2 ^ 7) by (change (2 ^ 7) with 128; lia). lia. }
  destruct (fullTree_post l Hb s Hr) as (t & s' & n & Hrun & Hr' & Ha & Hn & HP).
  pose proof (reachable_inv s' Hr') as Hi'.
  exists t, s', n. split; [exact Hrun|]. split; [exact Hr'|]. split; [eexists; exact Ha|].
  split; [|split; [exact Hn|split; [exact HP|]]].
  - intros x y Hx Hy. rewrite (Cell_value false s' l t _ x y Hi' Ha Hx Hy).
    unfold cellb.
    destruct (qfind_total l ltac:(lia) (qfull l) x y (qfull_wf l)
                (inbox_dbox l x Hx) (inbox_dbox l y Hy)) as [b Hb'].
    rewrite Hb', (qfind_full l x y b Hb'). reflexivity.
  - intros H32.
    assert (P0 : Population n = 0).
    { rewrite HP.
      assert (E : 4 ^ Z.of_nat l = 0 + 4 ^ (Z.of_nat l - 32) * 2 ^ 64).
      { change (2 ^ 64) with (4 ^ 32). rewrite <- Z.pow_add_r by lia.
        rewrite Z.add_0_l. f_equal. lia. }
      rewrite E, wrap64_shift. reflexivity. }
    split; [exact P0|]. intros U callback u x0 y0.
    exact (FindLifeCells_pop0 s' t n x0 y0 callback u Hn P0).
Qed.

Lemma Population_wraps_witness :
  exists t s' n,
    fullTree 32 init = Ok t s' /\ reachable s' /\ Cell t 0 0 s' = Ok 1 s' /\
    heap s' !! t = Some n /\ Population n = 0.
Proof.
  destruct (Population_wraps init 32) as (t & s' & n & Hrun & Hr & _ & Hc & Hn & _ & H0).
  - exact reach_init.
  - lia.
  - exists t, s', n. split; [exact Hrun|]. split; [exact Hr|].
    split; [apply Hc; by_compute|]. split; [exact Hn|]. apply H0. lia.
Defined.
